(** * folly::coro async closures: a shallow embedding

    Sources embedded here:
    - [folly/coro/Result.h]  ([co_error], [co_result], [co_cancelled])
    - [folly/coro/safe/detail/AsyncClosure.h]  (the closure engine)
    - [folly/coro/safe/NowTask.h]  ([toNowTask])

    The enumeration [safe_alias] and [least_safe_alias] live in
    [folly/coro/safe/SafeAlias.h], the bindings in
    [folly/coro/safe/detail/AsyncClosureBindings.h], and the tuple helpers
    in [folly/detail/tuple.h]; these headers are not embedded here. *)

From Stdlib Require Import List Arith ZArith Bool Lia Permutation.
Import ListNotations.

Set Implicit Arguments.

(* ===================================================================== *)
(** ** The safety lattice *)
(* ===================================================================== *)

Module SafeAlias.

(** Modelled from the spec: the enumeration [safe_alias] of [SafeAlias.h],
    which is missing from the sources.  The levels are listed from the least
    safe to the safest, in the order the data model gives them. *)
Inductive safe_alias : Set :=
| unsafe
| unsafe_closure_internal
| co_cleanup_safe_ref
| after_cleanup_ref
| maybe_value
| value.

(** The underlying value of the enumerator: C++ compares [enum class] values
    through it. *)
Definition rank (s : safe_alias) : nat :=
  match s with
  | unsafe => 0
  | unsafe_closure_internal => 1
  | co_cleanup_safe_ref => 2
  | after_cleanup_ref => 3
  | maybe_value => 4
  | value => 5
  end.

(** [a <= b] on [safe_alias]. *)
Definition leb (a b : safe_alias) : bool := rank a <=? rank b.

(** [a >= b] on [safe_alias], as the source writes its thresholds. *)
Definition geb (a b : safe_alias) : bool := leb b a.

Definition le (a b : safe_alias) : Prop := rank a <= rank b.

(** [std::min] and [std::max] on [safe_alias]. *)
Definition min (a b : safe_alias) : safe_alias := if leb b a then b else a.
Definition max (a b : safe_alias) : safe_alias := if leb a b then b else a.

(** The safest level. *)
Definition safest : safe_alias := value.

(** Modelled from the spec: [least_safe_alias] of [SafeAlias.h], which is
    missing from the sources.  The join of a sequence of levels is the least
    safe of them; the join of no level at all is the safest level. *)
Definition least_safe_alias (levels : list safe_alias) : safe_alias :=
  fold_right min safest levels.

Definition eq_dec (a b : safe_alias) : {a = b} + {a <> b}.
Proof. decide equality. Defined.

End SafeAlias.

Import SafeAlias(safe_alias).

(* ===================================================================== *)
(** ** Exceptions, [exception_wrapper], [Try] *)
(* ===================================================================== *)

(** The exception objects that occur in the sources.  [user_exception n]
    stands for an exception of the user's, such as [MagicError{111}]. *)
Inductive exception : Set :=
| bad_alloc
| OperationCancelled
| UsingUninitializedTry
| BUG_co_cleanup_must_not_copy_error
| user_exception (code : Z).

(** [folly::exception_wrapper]: empty, or holding one exception. *)
Definition exception_wrapper : Set := option exception.

(** [exception_wrapper::operator bool] and [has_exception_ptr]. *)
Definition has_exception_ptr (ew : exception_wrapper) : bool :=
  match ew with Some _ => true | None => false end.

(** [folly::Try<T>]: a value, an exception, or the state of a [Try] that was
    default-constructed and never written.  In that last state [Try<T>] is
    empty, and [Try<void>] counts as holding a value: see [hasValue]. *)
Inductive Try (T : Type) : Type :=
| VALUE (v : T)
| EXCEPTION (e : exception_wrapper)
| NOTHING.

Arguments VALUE {T} v.
Arguments EXCEPTION {T} e.
Arguments NOTHING {T}.

(** [std::is_void_v<T>]: the type has one value, which stands for "no
    value at all". *)
Record void_type (T : Type) : Type := Build_void_type {
  the_unit : T;
  only_value : forall v : T, v = the_unit
}.

Definition void_unit : void_type unit :=
  @Build_void_type unit tt (fun v => match v with tt => eq_refl end).

(** [Try::hasValue()]; [is_void] tells whether [T] is [void]. *)
Definition hasValue {T} (is_void : option (void_type T)) (t : Try T) : bool :=
  match t with
  | VALUE _ => true
  | EXCEPTION _ => false
  | NOTHING => match is_void with Some _ => true | None => false end
  end.



(** [assert(c)] of [<cassert>].  When [NDEBUG] is not defined, which is
    when [folly::kIsDebug] holds, the program goes on when [c] holds and
    aborts otherwise; when [NDEBUG] is defined, [assert(c)] is no code at all. *)
Definition assert (kIsDebug : bool) (c : bool) : option unit :=
  if kIsDebug then (if c then Some tt else None) else Some tt.

(* ===================================================================== *)
(** ** [folly/coro/Result.h] *)
(* ===================================================================== *)

Module Result.

(** What an [exception_wrapper] can be constructed from: an exception object,
    or another wrapper (copied or moved), which may be empty. *)
Inductive ctor_args : Set :=
| from_exception (e : exception)
| from_exception_wrapper (ew : exception_wrapper).

Definition make_exception_wrapper (a : ctor_args) : exception_wrapper :=
  match a with
  | from_exception e => Some e
  | from_exception_wrapper ew => ew
  end.

Record co_error : Set := Build_co_error { ex_ : exception_wrapper }.

(** [co_error::co_error(A&&... a) : ex_(a...) { assert(ex_); }] *)
Definition co_error_ctor (kIsDebug : bool) (a : ctor_args) : option co_error :=
  let ex := make_exception_wrapper a in
  match assert kIsDebug (has_exception_ptr ex) with
  | Some _ => Some (Build_co_error ex)
  | None => None
  end.

(** [co_error::exception()] *)
Definition exception_of (c : co_error) : exception_wrapper := ex_ c.






End Result.

(* ===================================================================== *)
(** ** [cumsum_except_last] *)
(* ===================================================================== *)

Section Cumsum.

Variable T : Type.
(** The [+] of the values' type. *)
Variable add : T -> T -> T.

(** [template <auto Sum, auto...> cumsum_except_last = vtag<>;]
    [cumsum_except_last<Sum, Head, Tail...> =
       vtag<Sum, Vs...>] where [Vs...] is [cumsum_except_last<Sum + Head, Tail...>]. *)
Fixpoint cumsum_except_last (Sum : T) (vs : list T) : list T :=
  match vs with
  | [] => []
  | Head :: Tail => Sum :: cumsum_except_last (add Sum Head) Tail
  end.

(** [S + v1 + ... + vk], summed from the left as the template does. *)
Definition sum_from (Sum : T) (vs : list T) : T := fold_left add vs Sum.

End Cumsum.

(* ===================================================================== *)
(** ** The machine: allocation, the observable trace, C++ exceptions *)
(* ===================================================================== *)

(** What an observer of a closure can see, in the order it happens.  Stored
    arguments are named by their index in the storage tuple. *)
Inductive event : Set :=
| ev_construct (i : nat)
    (* stored argument [i] constructed in place *)
| ev_make_inner
    (* [make_inner_coro] called: the inner task is created, not started *)
| ev_make_cleanup (i k : nat)
    (* [co_cleanup] task [k] of argument [i] created *)
| ev_make_outer
    (* outer coroutine frame created *)
| ev_set_cancel_token (i : nat)
    (* cancellation token handed to argument [i] *)
| ev_await_inner
    (* the inner task is awaited: its body runs *)
| ev_cleanup (i k : nat) (seen : option exception_wrapper)
    (* [co_cleanup] task [k] of argument [i] awaited to completion; [seen] is
       what it read through its [const exception_wrapper*], if it was given
       one *)
| ev_destroy (i : nat).
    (* destructor of stored argument [i] *)

(** [heap n] tells whether the [n]-th request to [operator new] succeeds.
    The requests are those for the storage of a closure and for the frames
    of coroutines, which [allocate] makes, and [allocations] counts them.
    The memory of an exception object ([make_exception_wrapper],
    [co_error(UsingUninitializedTry{})]) is not asked from this heap, and is
    not counted: the C++ run time allocates exception objects by itself, and
    does not answer a failure with [bad_alloc]. *)
Record machine : Type := Build_machine {
  heap : nat -> bool;
  allocations : nat;
  trace : list event
}.

Inductive outcome (A : Type) : Type :=
| Normal (a : A)
| Thrown (e : exception).

Arguments Normal {A} a.
Arguments Thrown {A} e.

Definition M (A : Type) : Type := machine -> outcome A * machine.

Definition ret {A} (a : A) : M A := fun m => (Normal a, m).

Definition bind {A B} (c : M A) (k : A -> M B) : M B :=
  fun m =>
    match c m with
    | (Normal a, m') => k a m'
    | (Thrown e, m') => (Thrown e, m')
    end.

Declare Scope coro_scope.
Delimit Scope coro_scope with coro.
Notation "x <- c ;; k" := (bind c (fun x => k))
  (at level 61, c at next level, right associativity) : coro_scope.
Notation "' pat <- c ;; k" := (bind c (fun x => match x with pat => k end))
  (at level 61, pat pattern, c at next level, right associativity) : coro_scope.
Notation "c ;; k" := (bind c (fun _ => k))
  (at level 61, right associativity) : coro_scope.
Local Open Scope coro_scope.

(** [throw e] *)
Definition throw {A} (e : exception) : M A := fun m => (Thrown e, m).

Definition emit (ev : event) : M unit :=
  fun m => (Normal tt, Build_machine (heap m) (allocations m) (trace m ++ [ev])).

(** [operator new]: throws [std::bad_alloc] when the heap refuses. *)
Definition allocate : M unit :=
  fun m =>
    let m' := Build_machine (heap m) (S (allocations m)) (trace m) in
    if heap m (allocations m) then (Normal tt, m') else (Thrown bad_alloc, m').

(** [folly::try_and_catch]: runs [c]; the wrapper returned holds what [c]
    threw, and is empty when [c] returned. *)
Definition try_and_catch (c : M unit) : M exception_wrapper :=
  fun m =>
    match c m with
    | (Normal _, m') => (Normal None, m')
    | (Thrown e, m') => (Normal (Some e), m')
    end.

(** Stack unwinding: when [c] throws, the destructors [guard] run and the
    exception goes on. *)
Definition on_unwind {A} (guard : M unit) (c : M A) : M A :=
  fun m =>
    match c m with
    | (Normal a, m') => (Normal a, m')
    | (Thrown e, m') => (Thrown e, snd (guard m'))
    end.

(** A pack expansion [(f(args), ...)], left to right. *)
Fixpoint for_each {A} (f : A -> M unit) (l : list A) : M unit :=
  match l with
  | [] => ret tt
  | x :: l' => f x ;; for_each f l'
  end.

Fixpoint map_M {A B} (f : A -> M B) (l : list A) : M (list B) :=
  match l with
  | [] => ret []
  | x :: l' => y <- f x ;; ys <- map_M f l' ;; ret (y :: ys)
  end.

(** Modelled from the spec: [lite_tuple::reverse_apply] of
    [folly/detail/tuple.h], which is missing from the sources.  It applies a
    function to the elements of a tuple taken in the reverse of their order:
    the cleanup tasks are built "preserving construction order", and the
    sequence is then "logically reversed". *)
Definition reverse_apply {A B} (f : list A -> B) (t : list A) : B := f (rev t).

(** Modelled from the spec: [lite_tuple::tuple_cat] of
    [folly/detail/tuple.h], which is missing from the sources.  It merges
    tuples into one, in the order they are given. *)
Definition tuple_cat {A} (tuples : list (list A)) : list A := concat tuples.

(** The elements of a tuple with their indices. *)
Definition indexed {A} (l : list A) : list (nat * A) :=
  combine (seq 0 (length l)) l.

(** The order in which the arguments of one call are evaluated, which C++
    leaves to the compiler: [order_of n] lists the positions of the [n]
    arguments of a call, the one evaluated first at the head.  Every argument
    is evaluated, once. *)
Record evaluation_order : Type := Build_evaluation_order {
  order_of : nat -> list nat;
  order_permutes : forall n : nat, Permutation (order_of n) (seq 0 n)
}.

Definition left_to_right : evaluation_order :=
  Build_evaluation_order (fun n => seq 0 n) (fun n => Permutation_refl (seq 0 n)).


(** A pack expansion [f(args)...] that makes the arguments of one call: the
    calls [f(arg)] run one after the other in the order [o], and their
    results stand in the order of the pack. *)
Definition call_arguments {A B} (o : evaluation_order) (f : A -> M B)
    (args : list A) : M (list B) :=
  evaluated <-
    map_M (fun i => match nth_error args i with
                    | Some arg => y <- f arg ;; ret [(i, y)]
                    | None => ret []
                    end)
          (order_of o (length args)) ;;
  ret (flat_map (fun i => match find (fun iy => fst iy =? i) (concat evaluated) with
                          | Some iy => [snd iy]
                          | None => []
                          end)
         (seq 0 (length args))).

(* ===================================================================== *)
(** ** [folly/coro/safe/detail/AsyncClosure.h] *)
(* ===================================================================== *)

(** How a call into user code ends: it returns, or throws. *)
Definition call_result : Set := option exception.

Definition call (r : call_result) : M unit :=
  match r with
  | None => ret tt
  | Some e => throw e
  end.

(** A [capture] argument, seen through the members the closure machinery
    looks for.  [None] in a member's field: the type has no such member. *)
Record capture_arg : Set := Build_capture_arg {
  object_id : nat;
  privateHackSetParentCancelToken : option call_result;
  setParentCancelToken : option call_result;
  (** [Some n]: the member exists and returns a tuple of [n] tasks *)
  privateHack_co_cleanup : option nat;
  (** [has_async_closure_co_cleanup_with_error] *)
  co_cleanup_with_error : bool;
  (** [has_async_closure_co_cleanup_error_oblivious] *)
  co_cleanup_error_oblivious : bool;
  (** [noexcept_awaitable_v<T> && std::is_void_v<semi_await_result_t<T>>],
      for the type [T] of what the member [co_cleanup] returns *)
  co_cleanup_is_noexcept_void : bool
}.

(** The type of a [capture] argument, as far as the closure machinery tells
    types apart: the members it has, and what they return. *)
Definition storage_type (a : capture_arg)
  : bool * bool * option nat * (bool * bool * bool) :=
  (match privateHackSetParentCancelToken a with Some _ => true | None => false end,
   match setParentCancelToken a with Some _ => true | None => false end,
   privateHack_co_cleanup a,
   (co_cleanup_with_error a, co_cleanup_error_oblivious a,
    co_cleanup_is_noexcept_void a)).

(** [std::is_same_v] on these types. *)
Definition is_same_v (x y : bool * bool * option nat * (bool * bool * bool))
  : {x = y} + {x <> y}.
Proof. repeat decide equality. Defined.

(** [async_closure_storage<Ts...>]: the arguments stored on the outer
    coroutine and the cell of the first error. *)
Record async_closure_storage : Set := Build_async_closure_storage {
  inner_err_ : exception_wrapper;
  storage_tuple_ : list capture_arg
}.

Definition storage_tuple_like (s : async_closure_storage) : list capture_arg :=
  storage_tuple_ s.

Definition set_inner_err (s : async_closure_storage) (e : exception_wrapper)
  : async_closure_storage :=
  Build_async_closure_storage e (storage_tuple_ s).

(** A [co_cleanup] task: a lazily started coroutine of argument [owner].
    [err] tells whether it was given the pointer to the first-error cell; it
    reads the cell when it runs. *)
Record cleanup_task : Set := Build_cleanup_task {
  owner : nat;
  position : nat;
  err : bool
}.

(** The types of task objects. *)
Inductive task_type : Set :=
| SafeTask (s : safe_alias)
| MemberTask
| Task
| NowTask.

Definition is_MemberTask (t : task_type) : bool :=
  match t with MemberTask => true | _ => false end.

(** How a coroutine of the user's ends; cancellation is the exception
    [OperationCancelled]. *)
Inductive task_result (V : Type) : Type :=
| returns (v : V)
| throws (e : exception).

Arguments returns {V} v.
Arguments throws {V} e.

(** [async_closure_config], the fields read by [bind_captures_to_closure]. *)
Record async_closure_config : Set := Build_async_closure_config {
  force_shared_cleanup : bool;
  is_invoke_member : bool
}.

(** The bindings resolved by [detail/AsyncClosureBindings.h], which decides
    where each argument is stored; an argument with a [co_cleanup] is
    stored on the outer coroutine.  [any_capture] is a binding for which
    [is_any_capture<Bs>] holds, and [capture_type_is_reference] is its
    [std::is_reference_v<typename Bs::capture_type>]; [other_binding] is a
    binding of any other type. *)
Inductive binding : Set :=
| async_closure_outer_stored_arg (bindWrapper_ : capture_arg)
| async_closure_inner_stored_arg (bindWrapper_ : capture_arg)
| async_closure_scope_self_ref_hack (bindWrapper_ : capture_arg)
| any_capture (capture_type_is_reference : bool) (ref : nat)
| async_closure_regular_arg (what_to_bind : Z)
| other_binding (what_to_bind : Z).

(** What the inner coroutine receives for a binding. *)
Inductive inner_coro_arg : Set :=
| to_capture_ref (stored : capture_arg)   (* reference to a slot of the storage *)
| owned_capture (a : capture_arg)         (* [storage_type{priv, bindWrapper_}] *)
| moved_capture (ref : nat)
| plain (what_to_bind : Z)
| dereferenced (a : inner_coro_arg).      (* [*arg], for [FOLLY_INVOKE_MEMBER] *)

(** Why a closure does not compile. *)
Inductive static_assert_failure : Set :=
| args_must_have_safe_alias_of_at_least_shared_cleanup
| only_SafeTask_supported_as_the_inner_coro
| MemberTask_needs_FOLLY_INVOKE_MEMBER
| cannot_co_return_after_cleanup_without_a_cleanup_arg
| co_cleanup_must_return_a_noexcept_awaitable_void_coro
| storage_type_is_not_the_type_of_the_slot
| capture_type_must_be_a_reference
| binding_must_be_async_closure_regular_arg
| get_out_of_range.

Section Engine.

(** [folly::kIsDebug]. *)
Variable kIsDebug : bool.
(** The order in which the compiler evaluates the arguments of a call. *)
Variable pack_order : evaluation_order.
(** [safe_alias::closure_min_arg_safety], declared in [SafeAlias.h]. *)
Variable closure_min_arg_safety : safe_alias.
(** [safe_task_traits<T>::arg_safety], declared in [SafeTask.h]. *)
Variable arg_safety : task_type -> safe_alias.
(** [ResultT], the type of the inner coroutine's value. *)
Variable V : Type.

(** The inner coroutine, as returned by [make_inner_coro]. *)
Record inner_coro : Type := Build_inner_coro {
  coro_type : task_type;
  result : task_result V;
  (** [has_result_after_cleanup<ResultT>], and what the member computes *)
  result_after_cleanup : option (V -> V);
  (** [std::is_void_v<ResultT>] *)
  is_void : option (void_type V)
}.

Definition withNewSafety (s : safe_alias) (c : inner_coro) : inner_coro :=
  Build_inner_coro (SafeTask s) (result c) (result_after_cleanup c) (is_void c).

Inductive coro_frame : Type :=
| inner_frame (c : inner_coro)
| outer_frame (SetCancelTok : bool) (inner_mover : inner_coro)
              (storage_ptr : async_closure_storage)
              (reversed_noexcept_cleanups : list cleanup_task).

Record task : Type := Build_task {
  type_of : task_type;
  frame : coro_frame
}.

(** [toNowTask] of [NowTask.h] and [SafeTask.h]. *)
Definition toNowTask (t : task) : task := Build_task NowTask (frame t).

(** How the body of the outer coroutine ends. *)
Inductive completion : Type :=
| co_return (v : V)
| co_yield_co_error (e : Result.co_error)
| assertion_failed.

(** [async_closure_set_cancel_token(priv, arg, ctok)] *)
Definition async_closure_set_cancel_token (ia : nat * capture_arg) : M unit :=
  let '(i, arg) := ia in
  match privateHackSetParentCancelToken arg with
  | Some r => emit (ev_set_cancel_token i) ;; call r
  | None =>
    match setParentCancelToken arg with
    | Some r => emit (ev_set_cancel_token i) ;; call r
    | None => ret tt
    end
  end.

(** Calling a [co_cleanup] member: the coroutine frame is allocated, the
    body does not start.  [with_err] tells whether the member is given the
    pointer [err] to the first-error cell; the task reads through it when its
    body runs, which is when it is awaited. *)
Definition make_task (i k : nat) (with_err : bool) : M cleanup_task :=
  allocate ;; emit (ev_make_cleanup i k) ;; ret (Build_cleanup_task i k with_err).

(** [async_closure_make_cleanup_tuple(priv, arg, err)] *)
Definition async_closure_make_cleanup_tuple (ia : nat * capture_arg)
  : M (list cleanup_task) :=
  let '(i, arg) := ia in
  match privateHack_co_cleanup arg with
  | Some n => map_M (fun k => make_task i k true) (seq 0 n)
  | None =>
    if co_cleanup_with_error arg then
      t <- make_task i 0 true ;; ret [t]
    else if co_cleanup_error_oblivious arg then
      t <- make_task i 0 false ;; ret [t]
    else ret []
  end.

(** The [static_assert] of [async_closure_make_cleanup_tuple], in
    [to_lite_tuple]: it is met when the function is compiled for an argument
    whose [co_cleanup] member is called. *)
Definition async_closure_make_cleanup_tuple_asserts (arg : capture_arg)
  : option static_assert_failure :=
  match privateHack_co_cleanup arg with
  | Some _ => None
  | None =>
    if co_cleanup_with_error arg || co_cleanup_error_oblivious arg then
      if co_cleanup_is_noexcept_void arg then None
      else Some co_cleanup_must_return_a_noexcept_awaitable_void_coro
    else None
  end.

(** The [static_assert]s met when [async_closure_make_outer_coro] is
    compiled for a storage: those of the cleanup tuples of its arguments,
    the first that fails. *)
Fixpoint async_closure_make_outer_coro_asserts (sas : list capture_arg)
  : option static_assert_failure :=
  match sas with
  | [] => None
  | arg :: sas' =>
      match async_closure_make_cleanup_tuple_asserts arg with
      | Some f => Some f
      | None => async_closure_make_outer_coro_asserts sas'
      end
  end.

(** [async_closure_outer_coro_result(priv, r)] *)
Definition async_closure_outer_coro_result (c : inner_coro) (r : V) : V :=
  match result_after_cleanup c with
  | Some f => f r
  | None => r
  end.

(** The return type of [async_closure_outer_coro]. *)
Definition outer_coro_type (OuterSafety : safe_alias) : task_type :=
  if SafeAlias.geb OuterSafety closure_min_arg_safety
  then SafeTask OuterSafety
  else NowTask.

(** [async_closure_make_outer_coro<SetCancelTok, ResultT, OuterSafety>]:
    the cleanup tuples of the stored arguments, taken from the last to the
    first, are merged into one pack, and the outer coroutine is created with
    it.  The calls of [async_closure_make_cleanup_tuple] are the arguments of
    the one call of [tuple_cat]: they run in the order the compiler
    chooses. *)
Definition async_closure_make_outer_coro (SetCancelTok : bool)
    (OuterSafety : safe_alias) (inner_mover : inner_coro)
    (storage_ptr : async_closure_storage) : M task :=
  reversed_noexcept_cleanups <-
    reverse_apply
      (fun args =>
         tuples <- call_arguments pack_order
                     async_closure_make_cleanup_tuple args ;;
         ret (tuple_cat tuples))
      (indexed (storage_tuple_like storage_ptr)) ;;
  allocate ;; emit ev_make_outer ;;
  ret (Build_task (outer_coro_type OuterSafety)
         (outer_frame SetCancelTok inner_mover storage_ptr
            reversed_noexcept_cleanups)).

(** [co_awaitTry(std::move(inner_mover)())] *)
Definition co_awaitTry (c : inner_coro) : M (Try V) :=
  emit ev_await_inner ;;
  ret (match result c with
       | returns v => VALUE v
       | throws e => EXCEPTION (Some e)
       end).

(** [co_await] of one cleanup task: its body runs now, and reads the
    first-error cell of the storage through its pointer. *)
Definition co_await_cleanup (s : async_closure_storage) (t : cleanup_task)
  : M unit :=
  emit (ev_cleanup (owner t) (position t)
          (if err t then Some (inner_err_ s) else None)).

(** [async_closure_outer_coro], first part of the body: the cancellation
    token is handed over and the inner task is awaited, unless some
    [setParentCancelToken] failed.  It leaves [res] and the storage, whose
    cell [inner_err] holds the first error. *)
Definition outer_coro_await_inner (SetCancelTok : bool)
    (inner_mover : inner_coro) (storage_ptr : async_closure_storage)
  : M (Try V * async_closure_storage) :=
  (* [if constexpr (kIsDebug) inner_err.reset();] *)
  let s := if kIsDebug then set_inner_err storage_ptr None else storage_ptr in
  s <- (if SetCancelTok then
          e <- try_and_catch
                 (for_each async_closure_set_cancel_token
                    (indexed (storage_tuple_like s))) ;;
          ret (set_inner_err s e)
        else ret s) ;;
  (* [Try<ResultT> res; if (!inner_err) { ... }] *)
  if negb (has_exception_ptr (inner_err_ s)) then
    res <- co_awaitTry inner_mover ;;
    match res with
    | EXCEPTION e =>
        (* [inner_err = std::move(res.exception())]: [res] keeps its state,
           its wrapper is left empty *)
        ret (EXCEPTION None, set_inner_err s e)
    | _ => ret (res, s)
    end
  else ret (NOTHING, s).

(** [async_closure_outer_coro], last part of the body: the [if] on [res]
    that follows the cleanups.  The first two cases are those of
    [res.hasValue()], the third is that of [res.hasException()], and the
    last is the [else]. *)
Definition outer_coro_complete (inner_mover : inner_coro) (res : Try V)
    (s : async_closure_storage) : completion :=
  match res, is_void inner_mover with
  | VALUE _, Some unit_type
  | NOTHING, Some unit_type =>
      (* [res.hasValue()], which a [Try<void>] that was never written
         answers with [true]; [if constexpr (std::is_void_v<ResultT>)
         co_return;] *)
      co_return (the_unit unit_type)
  | VALUE v, None =>
      co_return (async_closure_outer_coro_result inner_mover v)
  | EXCEPTION _, _ =>
      (* [co_yield co_error(std::move(inner_err))] *)
      match Result.co_error_ctor kIsDebug
              (Result.from_exception_wrapper (inner_err_ s)) with
      | Some e => co_yield_co_error e
      | None => assertion_failed
      end
  | NOTHING, None =>
      (* "should never happen": [co_yield co_error(UsingUninitializedTry{})] *)
      match Result.co_error_ctor kIsDebug
              (Result.from_exception UsingUninitializedTry) with
      | Some e => co_yield_co_error e
      | None => assertion_failed
      end
  end.

(** The body of [async_closure_outer_coro<SetCancelTok, ResultT, OuterSafety>]. *)
Definition async_closure_outer_coro (SetCancelTok : bool)
    (inner_mover : inner_coro) (storage_ptr : async_closure_storage)
    (reversed_noexcept_cleanups : list cleanup_task) : M completion :=
  '(res, s) <- outer_coro_await_inner SetCancelTok inner_mover storage_ptr ;;
  (* [(co_await std::move(reversed_noexcept_cleanups.get()), ...);] *)
  for_each (co_await_cleanup s) reversed_noexcept_cleanups ;;
  ret (outer_coro_complete inner_mover res s).

(** The destructor of the storage: the stored arguments are destroyed from
    the last to the first. *)
Definition destroy_storage (s : async_closure_storage) : M unit :=
  for_each (fun i => emit (ev_destroy i))
           (rev (seq 0 (length (storage_tuple_ s)))).

(** Awaiting a task to completion, as [co_awaitTry(task)] shows it to the
    caller; [None] when an assertion stopped the program.  The storage is a
    parameter of the outer coroutine: it lives in the frame and goes with
    it, once the body is over.  The frames exist already: what is left to
    make is the exception object of a [co_error], see [machine]. *)
Definition co_awaitTry_task (t : task) : M (option (Try V)) :=
  match frame t with
  | inner_frame c => r <- co_awaitTry c ;; ret (Some r)
  | outer_frame tok c s cleanups =>
      r <- async_closure_outer_coro tok c s cleanups ;;
      match r with
      | co_return v => destroy_storage s ;; ret (Some (VALUE v))
      | co_yield_co_error e =>
          destroy_storage s ;; ret (Some (EXCEPTION (Result.exception_of e)))
      | assertion_failed => ret None
      end
  end.

(** [async_closure_wrap_coro<OuterSafety, InnerSafety, OuterMover>] *)
(** [OuterSafety] and [InnerSafety] are template arguments, known when the
    call is compiled; [outer_mover_] is what the call builds when it runs. *)
Record async_closure_wrap_coro : Type := Build_async_closure_wrap_coro {
  OuterSafety : safe_alias;
  InnerSafety : safe_alias;
  outer_mover_ : M task
}.

Definition has_safe_args (w : async_closure_wrap_coro) : bool :=
  SafeAlias.geb (OuterSafety w) closure_min_arg_safety.

Definition is_inner_coro_safe (w : async_closure_wrap_coro) : bool :=
  SafeAlias.geb (InnerSafety w) SafeAlias.unsafe_closure_internal.

Definition is_safe (w : async_closure_wrap_coro) : bool :=
  has_safe_args w && is_inner_coro_safe w.

(** [release_outer_coro() &&]: the two [static_assert]s, then the task. *)
Definition release_outer_coro (w : async_closure_wrap_coro)
  : static_assert_failure + M task :=
  if negb (has_safe_args w) then
    inl args_must_have_safe_alias_of_at_least_shared_cleanup
  else if negb (is_inner_coro_safe w) then
    inl only_SafeTask_supported_as_the_inner_coro
  else inr (outer_mover_ w).

(** What [bind_captures_to_closure] returns: a [NowTask] or the wrapper,
    by [if constexpr (Cfg.force_shared_cleanup)]. *)
Inductive bound_closure : Type :=
| now_task (t : M task)
| wrapped (w : async_closure_wrap_coro).

Definition is_outer_stored (b : binding) : bool :=
  match b with async_closure_outer_stored_arg _ => true | _ => false end.

(** (1) Collect the args that need storage on the outer coro. *)
Definition outer_stored_args (b_tup : list binding) : list capture_arg :=
  concat (map (fun b => match b with
                        | async_closure_outer_stored_arg a => [a]
                        | _ => []
                        end) b_tup).

(** [async_closure_default_inner_err()] *)
Definition async_closure_default_inner_err : exception_wrapper :=
  if kIsDebug then Some BUG_co_cleanup_must_not_copy_error else None.

(** (2) Construct all the storage args in-place in one tuple, left to
    right; [None] is [std::nullopt], "no outer closure". *)
Definition make_storage (sas : list capture_arg) : M (option async_closure_storage) :=
  match sas with
  | [] => ret None
  | _ :: _ =>
      allocate ;;
      for_each (fun i => emit (ev_construct i)) (seq 0 (length sas)) ;;
      ret (Some (Build_async_closure_storage async_closure_default_inner_err sas))
  end.

(** [get_from_storage_ptr<Idx>(p)] *)
Definition get_from_storage_ptr (Idx : nat) (p : list capture_arg)
  : option capture_arg :=
  nth_error p Idx.

(** [async_closure_bind_inner_coro_arg<StorageI, Bs>(priv, bs, storage_ptr)]:
    what the function returns; its [static_assert]s follow. *)
Definition async_closure_bind_inner_coro_arg (StorageI : nat) (bs : binding)
    (storage_ptr : list capture_arg) : option inner_coro_arg :=
  match bs with
  | async_closure_outer_stored_arg _ =>
      match get_from_storage_ptr StorageI storage_ptr with
      | Some storage_ref => Some (to_capture_ref storage_ref)
      | None => None
      end
  | async_closure_inner_stored_arg w => Some (owned_capture w)
  | async_closure_scope_self_ref_hack w => Some (owned_capture w)
  | any_capture _ r => Some (moved_capture r)
  | async_closure_regular_arg x => Some (plain x)
  | other_binding x => Some (plain x)
  end.

(** The [static_assert]s of [async_closure_bind_inner_coro_arg<StorageI,
    Bs>]: the type stored for [Bs] is the type of the slot; a capture that
    is passed on holds a reference; and a binding that is no capture is an
    [async_closure_regular_arg]. *)
Definition async_closure_bind_inner_coro_arg_asserts (StorageI : nat)
    (bs : binding) (storage_ptr : list capture_arg)
  : option static_assert_failure :=
  match bs with
  | async_closure_outer_stored_arg w =>
      match get_from_storage_ptr StorageI storage_ptr with
      | Some storage_ref =>
          if is_same_v (storage_type w) (storage_type storage_ref) then None
          else Some storage_type_is_not_the_type_of_the_slot
      | None => Some get_out_of_range
      end
  | async_closure_inner_stored_arg _ => None
  | async_closure_scope_self_ref_hack _ => None
  | any_capture capture_type_is_reference _ =>
      if capture_type_is_reference then None
      else Some capture_type_must_be_a_reference
  | async_closure_regular_arg _ => None
  | other_binding _ => Some binding_must_be_async_closure_regular_arg
  end.

(** The [static_assert]s met when the arguments of [make_inner_coro] are
    compiled, the first that fails. *)
Fixpoint bind_inner_coro_args_asserts (b_tup : list binding)
    (StorageIs : list nat) (storage_ptr : list capture_arg)
  : option static_assert_failure :=
  match b_tup, StorageIs with
  | [], _ => None
  | bs :: b_tup', StorageI :: StorageIs' =>
      match async_closure_bind_inner_coro_arg_asserts StorageI bs storage_ptr with
      | Some f => Some f
      | None => bind_inner_coro_args_asserts b_tup' StorageIs' storage_ptr
      end
  | _ :: _, [] => Some get_out_of_range
  end.

(** The arguments of [make_inner_coro]: [Bs], [ArgIs] and [StorageIs]
    unpacked jointly. *)
Fixpoint bind_inner_coro_args (Cfg : async_closure_config) (ArgI : nat)
    (b_tup : list binding) (StorageIs : list nat)
    (storage_ptr : list capture_arg) : option (list inner_coro_arg) :=
  match b_tup, StorageIs with
  | [], _ => Some []
  | bs :: b_tup', StorageI :: StorageIs' =>
      match async_closure_bind_inner_coro_arg StorageI bs storage_ptr,
            bind_inner_coro_args Cfg (S ArgI) b_tup' StorageIs' storage_ptr with
      | Some a, Some rest =>
          Some ((if is_invoke_member Cfg && (ArgI =? 0)
                 then dereferenced a else a) :: rest)
      | _, _ => None
      end
  | _ :: _, [] => None
  end.

(** [StorageIs]: [cumsum_except_last<(size_t)0, is_instantiation_of_v<
    async_closure_outer_stored_arg, Bs>...>] *)
Definition StorageIs_of (b_tup : list binding) : list nat :=
  cumsum_except_last Nat.add 0
    (map (fun b => if is_outer_stored b then 1 else 0) b_tup).

Definition task_of_inner (c : inner_coro) : task :=
  Build_task (coro_type c) (inner_frame c).

(** The run-time part of [bind_captures_to_closure]: the storage is made
    and filled, [make_inner_coro] is called, and [outer_mover] is built.  An
    exception on the way unwinds the stack, which destroys the storage. *)
Definition build_outer_mover (OuterSafety : safe_alias)
    (inner_mover : inner_coro) (sas : list capture_arg) : M task :=
  storage_ptr <- make_storage sas ;;
  on_unwind (match storage_ptr with
             | Some s => destroy_storage s
             | None => ret tt
             end)
    (allocate ;; emit ev_make_inner ;;
     match storage_ptr with
     | None =>
         (* No outer coro is needed, so we can return the inner one. *)
         ret (task_of_inner inner_mover)
     | Some s =>
         async_closure_make_outer_coro true OuterSafety inner_mover s
     end).

(** [bind_captures_to_closure<Cfg>(make_inner_coro, safeties_and_binds)].
    What is decided when the call is compiled (the [static_assert]s, the
    safety levels, the flavour of the result) is computed here; what the call
    does when it runs is the computation [build_outer_mover]. *)
Definition bind_captures_to_closure (Cfg : async_closure_config)
    (make_inner_coro : list inner_coro_arg -> inner_coro)
    (safeties_and_binds : list safe_alias * list binding)
  : static_assert_failure + bound_closure :=
  let '(arg_safeties, b_tup) := safeties_and_binds in
  let sas := outer_stored_args b_tup in
  match bind_inner_coro_args_asserts b_tup (StorageIs_of b_tup) sas,
        bind_inner_coro_args Cfg 0 b_tup (StorageIs_of b_tup) sas with
  | Some f, _ => inl f
  | None, None => inl get_out_of_range
  | None, Some args =>
    let raw_inner_coro := make_inner_coro args in
    let OuterSafety :=
      if force_shared_cleanup Cfg then SafeAlias.unsafe
      else SafeAlias.least_safe_alias arg_safeties in
    let InnerSafety := arg_safety (coro_type raw_inner_coro) in
    let inner_mover :=
      if SafeAlias.geb InnerSafety SafeAlias.unsafe_closure_internal then
        let newSafety := SafeAlias.max OuterSafety closure_min_arg_safety in
        withNewSafety newSafety raw_inner_coro
      else raw_inner_coro in
    if negb (Bool.eqb (is_MemberTask (coro_type raw_inner_coro))
                      (is_invoke_member Cfg)) then
      inl MemberTask_needs_FOLLY_INVOKE_MEMBER
    else if match sas, result_after_cleanup inner_mover with
            | [], Some _ => true
            | _, _ => false
            end then
      inl cannot_co_return_after_cleanup_without_a_cleanup_arg
    else
      match async_closure_make_outer_coro_asserts sas with
      | Some f => inl f
      | None =>
        let outer_mover : M task :=
          build_outer_mover OuterSafety inner_mover sas in
        inr (if force_shared_cleanup Cfg then
               now_task (t <- outer_mover ;; ret (toNowTask t))
             else
               wrapped (Build_async_closure_wrap_coro
                          OuterSafety InnerSafety outer_mover))
      end
  end.

(** [co_await co_awaitTry(...)] of what [bind_captures_to_closure] returned,
    released first when it is the wrapper. *)
Definition co_await_closure (b : bound_closure)
  : static_assert_failure + M (option (Try V)) :=
  match b with
  | now_task c => inr (t <- c ;; co_awaitTry_task t)
  | wrapped w =>
      match release_outer_coro w with
      | inl f => inl f
      | inr c => inr (t <- c ;; co_awaitTry_task t)
      end
  end.

End Engine.

Arguments inner_frame {V} c.
Arguments outer_frame {V} SetCancelTok inner_mover storage_ptr
  reversed_noexcept_cleanups.
Arguments co_return {V} v.
Arguments co_yield_co_error {V} e.
Arguments assertion_failed {V}.
Arguments now_task {V} t.
Arguments wrapped {V} w.

(** A fresh machine on a given heap. *)
Definition boot (h : nat -> bool) : machine := Build_machine h 0 [].

(** A heap that never refuses. *)
Definition plentiful : nat -> bool := fun _ => true.

(** A heap that refuses from the [n]-th request on. *)
Definition exhausted_after (n : nat) : nat -> bool := fun k => k <? n.

(* ===================================================================== *)
(** ** Reading a trace *)
(* ===================================================================== *)

(** The events of a trace picked by [f], in the order of the trace. *)
Definition collect {A} (f : event -> option A) (tr : list event) : list A :=
  flat_map (fun ev => match f ev with Some a => [a] | None => [] end) tr.

(** The stored arguments constructed, in the order of construction. *)
Definition constructed : list event -> list nat :=
  collect (fun ev => match ev with ev_construct i => Some i | _ => None end).

(** The cleanup tasks that ran, named by argument and position, in the order
    they ran. *)
Definition cleaned_up : list event -> list (nat * nat) :=
  collect (fun ev => match ev with ev_cleanup i k _ => Some (i, k) | _ => None end).


(** The stored arguments destroyed, in the order of destruction. *)
Definition destroyed : list event -> list nat :=
  collect (fun ev => match ev with ev_destroy i => Some i | _ => None end).

(** What the error-aware cleanup tasks read through their pointer. *)
Definition seen_errors : list event -> list exception_wrapper :=
  collect (fun ev => match ev with ev_cleanup _ _ seen => seen | _ => None end).

Definition is_cleanup (ev : event) : bool :=
  match ev with ev_cleanup _ _ _ => true | _ => false end.
Definition is_destroy (ev : event) : bool :=
  match ev with ev_destroy _ => true | _ => false end.
Definition is_await_inner (ev : event) : bool :=
  match ev with ev_await_inner => true | _ => false end.
Definition is_set_cancel_token (ev : event) : bool :=
  match ev with ev_set_cancel_token _ => true | _ => false end.

(** Was the inner task awaited? *)
Definition inner_awaited (tr : list event) : bool := existsb is_await_inner tr.

(** No event picked by [q] comes after an event picked by [p]. *)
Fixpoint never_after (p q : event -> bool) (tr : list event) : bool :=
  match tr with
  | [] => true
  | ev :: tr' =>
      (if p ev then negb (existsb q tr') else true) && never_after p q tr'
  end.

(** No cleanup task runs once a destructor has run. *)
Definition cleanups_before_destructors : list event -> bool :=
  never_after is_destroy is_cleanup.


(* ===================================================================== *)
(** ** The arguments' hooks, read off the same members *)
(* ===================================================================== *)

(** The member [async_closure_set_cancel_token] calls on an argument. *)
Definition token_member (a : capture_arg) : option call_result :=
  match privateHackSetParentCancelToken a with
  | Some r => Some r
  | None => setParentCancelToken a
  end.

(** The tasks [async_closure_make_cleanup_tuple] hands back for argument
    [i], when no allocation fails. *)
Definition cleanup_tuple_of (ia : nat * capture_arg) : list cleanup_task :=
  let '(i, a) := ia in
  match privateHack_co_cleanup a with
  | Some n => map (fun k => Build_cleanup_task i k true) (seq 0 n)
  | None =>
      if co_cleanup_with_error a then [Build_cleanup_task i 0 true]
      else if co_cleanup_error_oblivious a then [Build_cleanup_task i 0 false]
      else []
  end.

(** The cleanup hooks of a storage, argument after argument. *)
Definition cleanup_hooks (sas : list capture_arg) : list (list cleanup_task) :=
  map cleanup_tuple_of (indexed sas).

Definition name_of (t : cleanup_task) : nat * nat := (owner t, position t).

(** The hooks of the arguments constructed in the order [order], taken in
    the reverse of that order. *)
Definition reverse_of_construction (sas : list capture_arg) (order : list nat)
  : list (nat * nat) :=
  flat_map (fun i => map name_of (nth i (cleanup_hooks sas) [])) (rev order).

(** The first argument, in the order of the tuple, whose token member
    throws, and what it throws. *)
Fixpoint token_failure (sas : list capture_arg) : exception_wrapper :=
  match sas with
  | [] => None
  | a :: sas' =>
      match token_member a with
      | Some (Some e) => Some e
      | _ => token_failure sas'
      end
  end.

(** The first error recorded by the outer coroutine: that of the token, or
    else that of the inner task, or else none. *)
Definition first_error {V} (SetCancelTok : bool) (sas : list capture_arg)
    (r : task_result V) : exception_wrapper :=
  match (if SetCancelTok then token_failure sas else None) with
  | Some e => Some e
  | None => match r with throws e => Some e | returns _ => None end
  end.

(** The exclusive prefix sums [<S, S+v1, ..., S+v1+...+v(n-1)>] of
    [v1, ..., vn], written after the words of the specification. *)
Definition exclusive_prefix_sums {T} (add : T -> T -> T) (S0 : T) (vs : list T)
  : list T :=
  map (fun k => sum_from add S0 (firstn k vs)) (seq 0 (length vs)).

(** What the inner coroutine is to receive for a binding: for an argument
    stored on the outer coroutine, a reference to that very argument. *)
Definition inner_arg_of (b : binding) : inner_coro_arg :=
  match b with
  | async_closure_outer_stored_arg a => to_capture_ref a
  | async_closure_inner_stored_arg a => owned_capture a
  | async_closure_scope_self_ref_hack a => owned_capture a
  | any_capture _ r => moved_capture r
  | async_closure_regular_arg x => plain x
  | other_binding x => plain x
  end.

(** With [FOLLY_INVOKE_MEMBER], the first argument is dereferenced. *)
Definition inner_args_of (Cfg : async_closure_config) (b_tup : list binding)
  : list inner_coro_arg :=
  match map inner_arg_of b_tup with
  | [] => []
  | a :: rest => (if is_invoke_member Cfg then dereferenced a else a) :: rest
  end.

(* ===================================================================== *)
(** ** The runs in closed form *)
(* ===================================================================== *)

(** The machine [m] after the events [evs]. *)
Definition logged (m : machine) (evs : list event) : machine :=
  Build_machine (heap m) (allocations m) (trace m ++ evs).

(** The machine [m] after [k] allocations and the events [evs]. *)
Definition advanced (m : machine) (k : nat) (evs : list event) : machine :=
  Build_machine (heap m) (k + allocations m) (trace m ++ evs).

(** The event of the creation of a cleanup task. *)
Definition make_event (t : cleanup_task) : event :=
  ev_make_cleanup (owner t) (position t).

(** The event of a cleanup task that runs while the first-error cell holds [e]. *)
Definition cleanup_event (e : exception_wrapper) (t : cleanup_task) : event :=
  ev_cleanup (owner t) (position t) (if err t then Some e else None).

(** The events of handing the token to the arguments [sas], numbered from
    [k]: the hand-over stops at the first member that throws. *)
Fixpoint token_events (k : nat) (sas : list capture_arg) : list event :=
  match sas with
  | [] => []
  | a :: sas' =>
      match token_member a with
      | None => token_events (S k) sas'
      | Some None => ev_set_cancel_token k :: token_events (S k) sas'
      | Some (Some _) => [ev_set_cancel_token k]
      end
  end.

(** The pack of cleanup tasks of a storage: the hooks of the last argument
    first. *)
Definition scheduled_cleanups (sas : list capture_arg) : list cleanup_task :=
  concat (map cleanup_tuple_of (rev (indexed sas))).

(** The same tasks in the order they are created, which is that of the
    evaluation of the arguments of [tuple_cat]. *)
Definition created_cleanups (o : evaluation_order) (sas : list capture_arg)
  : list cleanup_task :=
  flat_map (fun i => match nth_error (rev (indexed sas)) i with
                     | Some ia => cleanup_tuple_of ia
                     | None => []
                     end)
    (order_of o (length (rev (indexed sas)))).

(** The first-error cell when the outer coroutine comes to the inner task:
    what the hand-over of the token left in it, or else the cell as it was
    (reset in a debug build). *)
Definition cell_before_inner (kIsDebug SetCancelTok : bool)
    (s : async_closure_storage) : exception_wrapper :=
  if SetCancelTok then token_failure (storage_tuple_ s)
  else if kIsDebug then None else inner_err_ s.

Definition events_before_inner (SetCancelTok : bool)
    (s : async_closure_storage) : list event :=
  if SetCancelTok then token_events 0 (storage_tuple_ s) else [].

(** [res] after the await of the inner task, which is skipped when the cell
    holds an error. *)
Definition res_after_inner {V} (cell : exception_wrapper) (r : task_result V)
  : Try V :=
  match cell with
  | Some _ => NOTHING
  | None => match r with returns v => VALUE v | throws _ => EXCEPTION None end
  end.

(** The first-error cell after the await of the inner task. *)
Definition cell_after_inner {V} (cell : exception_wrapper) (r : task_result V)
  : exception_wrapper :=
  match cell with
  | Some e => Some e
  | None => match r with returns _ => None | throws e => Some e end
  end.

Definition inner_events (cell : exception_wrapper) : list event :=
  if has_exception_ptr cell then [] else [ev_await_inner].

(** What the caller of an awaited outer coroutine gets, when the cell held
    [cell] as the coroutine came to the inner task. *)
Definition awaited_outcome {V} (im : inner_coro V) (cell : exception_wrapper)
  : Try V :=
  match cell with
  | Some _ =>
      match is_void im with
      | Some unit_type => VALUE (the_unit unit_type)
      | None => EXCEPTION (Some UsingUninitializedTry)
      end
  | None =>
      match result im with
      | returns v => VALUE (async_closure_outer_coro_result im v)
      | throws e => EXCEPTION (Some e)
      end
  end.

(** The trace of a closure that is constructed and awaited, in closed form:
    [sas] are the arguments stored on the outer coroutine and [r] is how the
    inner coroutine ends. *)
Definition closure_trace {V} (o : evaluation_order) (sas : list capture_arg)
    (r : task_result V) : list event :=
  match sas with
  | [] => [ev_make_inner; ev_await_inner]
  | _ :: _ =>
      let tasks := scheduled_cleanups sas in
      map ev_construct (seq 0 (length sas))
      ++ [ev_make_inner]
      ++ map make_event (created_cleanups o sas)
      ++ [ev_make_outer]
      ++ token_events 0 sas
      ++ inner_events (token_failure sas)
      ++ map (cleanup_event (first_error true sas r)) tasks
      ++ map ev_destroy (rev (seq 0 (length sas)))
  end.

(** What the caller of such a closure gets. *)
Definition closure_outcome {V} (sas : list capture_arg) (raw : inner_coro V)
  : Try V :=
  match sas with
  | [] =>
      match result raw with
      | returns v => VALUE v
      | throws e => EXCEPTION (Some e)
      end
  | _ :: _ => awaited_outcome raw (token_failure sas)
  end.


(** The allocations of a closure that is constructed and awaited: the inner
    coroutine alone, or the storage, the inner coroutine, the cleanup tasks
    and the outer coroutine. *)
Definition closure_allocations (sas : list capture_arg) : nat :=
  match sas with
  | [] => 1
  | _ :: _ => length (scheduled_cleanups sas) + 3
  end.

Definition name_eq_dec (x y : nat * nat) : {x = y} + {x <> y}.
Proof. decide equality; apply Nat.eq_dec. Defined.

(* ===================================================================== *)
(** ** A closure from the call to the end of its await *)
(* ===================================================================== *)

Section Run.

Variable kIsDebug : bool.
Variable pack_order : evaluation_order.
Variable closure_min_arg_safety : safe_alias.
Variable arg_safety : task_type -> safe_alias.
Variable V : Type.

(** [co_await co_awaitTry(async_closure(...))] on a fresh machine with the
    heap [h]: the closure does not compile, or it runs, and then this is how
    the run ends and the machine it leaves. *)
Definition run_closure (Cfg : async_closure_config)
    (make_inner_coro : list inner_coro_arg -> inner_coro V)
    (safeties_and_binds : list safe_alias * list binding)
    (h : nat -> bool)
  : static_assert_failure + outcome (option (Try V)) * machine :=
  match bind_captures_to_closure kIsDebug pack_order closure_min_arg_safety
          arg_safety Cfg make_inner_coro safeties_and_binds with
  | inl f => inl f
  | inr b =>
      match co_await_closure kIsDebug closure_min_arg_safety b with
      | inl f => inl f
      | inr c => inr (c (boot h))
      end
  end.

End Run.

(* ===================================================================== *)
(** ** The closures of the tests *)
(* ===================================================================== *)

Module Tests.

(** [struct OrderTracker]: a [co_cleanup] that takes no error. *)
Definition OrderTracker (n : nat) : capture_arg :=
  Build_capture_arg n None None None false true true.

(** [struct HasCleanup]: a [co_cleanup] that takes the error. *)
Definition HasCleanup (n : nat) : capture_arg :=
  Build_capture_arg n None None None true false true.

(** [as_capture(1000)]: no hook at all. *)
Definition plain_capture (n : nat) : capture_arg :=
  Build_capture_arg n None None None false false true.

(** An argument with a [co_cleanup] whose [setParentCancelToken] throws. *)
Definition refuses_token (n : nat) (e : exception) : capture_arg :=
  Build_capture_arg n None (Some (Some e)) None true false true.


(** [struct InvalidCleanupLacksNoexcept] of the test [invalid_co_cleanup]:
    its [co_cleanup] returns a [Task<void>], which is not [noexcept]. *)
Definition InvalidCleanupLacksNoexcept (n : nat) : capture_arg :=
  Build_capture_arg n None None None false true false.

(** [MagicError{111}] *)
Definition MagicError : exception := user_exception 111.

(** The threshold of the tests: the lowest level above
    [unsafe_closure_internal]. *)
Definition min_arg_safety : safe_alias := SafeAlias.co_cleanup_safe_ref.

(** [safe_task_traits<T>::arg_safety] on the tasks of the tests. *)
Definition arg_safety (t : task_type) : safe_alias :=
  match t with
  | SafeTask s => s
  | _ => SafeAlias.unsafe
  end.

(** [ClosureTask<T>] *)
Definition ClosureTask : task_type := SafeTask SafeAlias.unsafe_closure_internal.

(** An inner coroutine [[](auto...) -> ClosureTask<int>] that ends with [r]. *)
Definition inner (r : task_result Z) (_ : list inner_coro_arg) : inner_coro Z :=
  Build_inner_coro ClosureTask r None None.


(** [async_closure] and [async_now_closure]. *)
Definition closure_cfg : async_closure_config :=
  Build_async_closure_config false false.
Definition now_closure_cfg : async_closure_config :=
  Build_async_closure_config true false.

(** An inner coroutine [[](auto...) -> ClosureTask<void>] that returns. *)
Definition void_inner (_ : list inner_coro_arg) : inner_coro unit :=
  Build_inner_coro ClosureTask (returns tt) None (Some void_unit).

(** [co_await co_awaitTry(async_closure(bound_args{...}, ...))] in a debug
    build, of a compiler that evaluates the arguments of a call from the left
    to the right. *)
Definition run (Cfg : async_closure_config) (r : task_result Z)
    (b_tup : list binding) (h : nat -> bool) :=
  run_closure true left_to_right min_arg_safety arg_safety Cfg (inner r)
    (map (fun _ => SafeAlias.maybe_value) b_tup, b_tup) h.

(** [ctorCleanupDtorOrdering] *)
Definition four_trackers : list binding :=
  map (fun n => async_closure_outer_stored_arg (OrderTracker n)) [1; 2; 3; 4].

(** [cleanupAfterSuccess], [cleanupAfterError] *)
Definition one_cleanup : list binding :=
  [async_closure_outer_stored_arg (HasCleanup 1)].

Definition two_cleanups : list binding :=
  [async_closure_outer_stored_arg (HasCleanup 1);
   async_closure_outer_stored_arg (HasCleanup 2)].

(** A closure whose second argument refuses the token. *)
Definition token_refused : list binding :=
  [async_closure_outer_stored_arg (HasCleanup 1);
   async_closure_outer_stored_arg (refuses_token 2 OperationCancelled)].


(** [inPlaceArgs]: [as_capture(1000)], moved into the inner coroutine, or
    stored on the outer one when it is forced. *)
Definition in_place_args : list binding :=
  [async_closure_regular_arg 30;
   async_closure_inner_stored_arg (plain_capture 1000)].
Definition in_place_args_outer : list binding :=
  [async_closure_regular_arg 30;
   async_closure_outer_stored_arg (plain_capture 1000)].


End Tests.

(** The machines the closures of the tests leave behind. *)
Module Ends.

Definition four_trackers : machine :=
  Build_machine plentiful 7
    [ev_construct 0; ev_construct 1; ev_construct 2; ev_construct 3;
     ev_make_inner;
     ev_make_cleanup 3 0; ev_make_cleanup 2 0; ev_make_cleanup 1 0;
     ev_make_cleanup 0 0; ev_make_outer;
     ev_await_inner;
     ev_cleanup 3 0 None; ev_cleanup 2 0 None; ev_cleanup 1 0 None;
     ev_cleanup 0 0 None;
     ev_destroy 3; ev_destroy 2; ev_destroy 1; ev_destroy 0].


Definition cleanup_after_error : machine :=
  Build_machine plentiful 4
    [ev_construct 0; ev_make_inner; ev_make_cleanup 0 0; ev_make_outer;
     ev_await_inner;
     ev_cleanup 0 0 (Some (Some Tests.MagicError));
     ev_destroy 0].

Definition token_refused : machine :=
  Build_machine plentiful 5
    [ev_construct 0; ev_construct 1; ev_make_inner;
     ev_make_cleanup 1 0; ev_make_cleanup 0 0; ev_make_outer;
     ev_set_cancel_token 1;
     ev_cleanup 1 0 (Some (Some OperationCancelled));
     ev_cleanup 0 0 (Some (Some OperationCancelled));
     ev_destroy 1; ev_destroy 0].

(** The heap gives out while the cleanup tasks are made. *)
Definition out_of_memory : machine :=
  Build_machine (exhausted_after 3) 4
    [ev_construct 0; ev_construct 1; ev_make_inner;
     ev_make_cleanup 1 0;
     ev_destroy 1; ev_destroy 0].

Definition in_place_args : machine :=
  Build_machine plentiful 1 [ev_make_inner; ev_await_inner].

Definition in_place_args_outer : machine :=
  Build_machine plentiful 3
    [ev_construct 0; ev_make_inner; ev_make_outer; ev_await_inner;
     ev_destroy 0].


End Ends.

(* ===================================================================== *)
(** ** The token, argument by argument *)
(* ===================================================================== *)

(** The stored arguments that were handed the cancellation token, in the
    order they were handed it. *)
Definition tokens_given : list event -> list nat :=
  collect (fun ev => match ev with ev_set_cancel_token i => Some i | _ => None end).

(** Has the argument one of the two members
    [async_closure_set_cancel_token] looks for? *)
Definition takes_token (a : capture_arg) : bool :=
  match token_member a with Some _ => true | None => false end.

(** The indices, counted from [k], of the arguments that take the token. *)
Definition token_receivers_from (k : nat) (sas : list capture_arg) : list nat :=
  map fst (filter (fun ia => takes_token (snd ia))
             (combine (seq k (length sas)) sas)).

Definition token_receivers (sas : list capture_arg) : list nat :=
  token_receivers_from 0 sas.


(** The phases of the life of a closure: the stored arguments are
    constructed, the inner coroutine is created, then the cleanup tasks, then
    the outer coroutine; the token is handed over, the inner task is awaited,
    the cleanup tasks run, the stored arguments are destroyed. *)
Definition phase (ev : event) : nat :=
  match ev with
  | ev_construct _ => 0
  | ev_make_inner => 1
  | ev_make_cleanup _ _ => 2
  | ev_make_outer => 3
  | ev_set_cancel_token _ => 4
  | ev_await_inner => 5
  | ev_cleanup _ _ _ => 6
  | ev_destroy _ => 7
  end.

(** No event of a trace belongs to an earlier phase than an event before it. *)
Fixpoint in_phase_order (tr : list event) : bool :=
  match tr with
  | [] => true
  | ev :: tr' =>
      forallb (fun ev' => phase ev <=? phase ev') tr' && in_phase_order tr'
  end.

(** The cleanup tasks of the stored argument [i] that ran, in the order they
    ran: the position of the task in the tuple of the argument, and whether
    it was given the pointer to the first-error cell. *)
Definition cleanups_of (i : nat) : list event -> list (nat * bool) :=
  collect (fun ev =>
             match ev with
             | ev_cleanup j k seen =>
                 if j =? i
                 then Some (k, match seen with Some _ => true | None => false end)
                 else None
             | _ => None
             end).

(* ===================================================================== *)
(** ** The construction of a closure, request by request *)
(* ===================================================================== *)

(** What a computation of the construction does, step by step: [None] is a
    request to the heap, [Some ev] an event. *)
Definition script : Set := list (option event).

(** How a script was played: whether every request was granted, the
    requests made, and the events that happened. *)
Record played : Set := Build_played {
  all_granted : bool;
  requested : nat;
  happened : list event
}.

(** Playing a script on the heap [h], whose next request is the
    [start]-th.  The first request the heap refuses ends it. *)
Fixpoint play (h : nat -> bool) (start : nat) (sc : script) : played :=
  match sc with
  | [] => Build_played true 0 []
  | Some ev :: sc' =>
      let p := play h start sc' in
      Build_played (all_granted p) (requested p) (ev :: happened p)
  | None :: sc' =>
      if h start then
        let p := play h (S start) sc' in
        Build_played (all_granted p) (S (requested p)) (happened p)
      else Build_played false 1 []
  end.

(** The end of a computation that played a script from the machine [m]. *)
Definition finish {A} (a : A) (m : machine) (p : played) : outcome A * machine :=
  (if all_granted p then Normal a else Thrown bad_alloc,
   advanced m (requested p) (happened p)).

(** The computation [c] plays the script [sc], and returns [a] when no
    request is refused. *)
Definition performs {A} (c : M A) (a : A) (sc : script) : Prop :=
  forall m : machine, c m = finish a m (play (heap m) (allocations m) sc).

(** The requests and the events of a whole script. *)
Definition is_request (s : option event) : bool :=
  match s with None => true | Some _ => false end.

Definition requests (sc : script) : nat := length (filter is_request sc).

Definition events_of (sc : script) : list event :=
  flat_map (fun s => match s with Some ev => [ev] | None => [] end) sc.

(** One coroutine frame and its event. *)
Definition frame_script (ev : event) : script := [None; Some ev].

Definition cleanup_scripts (tasks : list cleanup_task) : script :=
  flat_map (fun t => frame_script (make_event t)) tasks.

(** The storage is allocated, then filled. *)
Definition storage_script (sas : list capture_arg) : script :=
  match sas with
  | [] => []
  | _ :: _ => None :: map (fun i => Some (ev_construct i)) (seq 0 (length sas))
  end.

(** The inner coroutine, then the cleanup tasks, then the outer coroutine. *)
Definition coros_script (o : evaluation_order) (sas : list capture_arg)
  : script :=
  frame_script ev_make_inner
  ++ match sas with
     | [] => []
     | _ :: _ =>
         cleanup_scripts (created_cleanups o sas) ++ frame_script ev_make_outer
     end.

(** The task a construction hands back. *)
Definition built_task {V} (kIsDebug : bool) (closure_min_arg_safety : safe_alias)
    (OuterSafety : safe_alias) (inner_mover : inner_coro V)
    (sas : list capture_arg) : task V :=
  match sas with
  | [] => task_of_inner inner_mover
  | _ :: _ =>
      Build_task (outer_coro_type closure_min_arg_safety OuterSafety)
        (outer_frame true inner_mover
           (Build_async_closure_storage
              (async_closure_default_inner_err kIsDebug) sas)
           (scheduled_cleanups sas))
  end.

(** The events of the unwinding of a construction that fails once the
    storage is filled: the storage is destroyed. *)
Definition unwinding (sas : list capture_arg) : list event :=
  map ev_destroy (rev (seq 0 (length sas))).

(** The run of a closure that compiles, from a fresh machine on the heap
    [h], in closed form. *)
Definition closure_life {V} (o : evaluation_order) (sas : list capture_arg)
    (raw : inner_coro V) (h : nat -> bool)
  : outcome (option (Try V)) * machine :=
  let p := play h 0 (storage_script sas) in
  if all_granted p then
    let q := play h (requested p) (coros_script o sas) in
    if all_granted q then
      (Normal (Some (closure_outcome sas raw)),
       Build_machine h (closure_allocations sas)
         (closure_trace o sas (result raw)))
    else
      (Thrown bad_alloc,
       Build_machine h (requested p + requested q)
         (happened p ++ happened q ++ unwinding sas))
  else (Thrown bad_alloc, Build_machine h 1 []).

(** The first binding of a kind that [async_closure_bind_inner_coro_arg]
    refuses: a capture passed on that holds no reference, or a binding that
    is neither a capture nor an [async_closure_regular_arg]. *)
Fixpoint bindings_refusal (b_tup : list binding) : option static_assert_failure :=
  match b_tup with
  | [] => None
  | any_capture false _ :: _ => Some capture_type_must_be_a_reference
  | other_binding _ :: _ => Some binding_must_be_async_closure_regular_arg
  | _ :: b_tup' => bindings_refusal b_tup'
  end.

(** A stored argument whose [co_cleanup] is called and returns something
    else than a [noexcept]-awaitable coroutine of [void]. *)
Definition cleanup_type_refused (a : capture_arg) : bool :=
  match privateHack_co_cleanup a with
  | Some _ => false
  | None =>
      (co_cleanup_with_error a || co_cleanup_error_oblivious a)
      && negb (co_cleanup_is_noexcept_void a)
  end.

(** Why a call of [async_closure] or of [async_now_closure] is refused
    when it is compiled, if it is: the [static_assert]s of
    [bind_captures_to_closure], then those of [release_outer_coro], which
    [async_now_closure] does not go through. *)
Definition closure_refusal {V} (closure_min_arg_safety : safe_alias)
    (arg_safety : task_type -> safe_alias) (Cfg : async_closure_config)
    (raw : inner_coro V) (arg_safeties : list safe_alias)
    (b_tup : list binding) : option static_assert_failure :=
  let sas := outer_stored_args b_tup in
  match bindings_refusal b_tup with
  | Some f => Some f
  | None =>
  if negb (Bool.eqb (is_MemberTask (coro_type raw)) (is_invoke_member Cfg)) then
    Some MemberTask_needs_FOLLY_INVOKE_MEMBER
  else if match sas, result_after_cleanup raw with
          | [], Some _ => true
          | _, _ => false
          end then
    Some cannot_co_return_after_cleanup_without_a_cleanup_arg
  else if existsb cleanup_type_refused sas then
    Some co_cleanup_must_return_a_noexcept_awaitable_void_coro
  else if force_shared_cleanup Cfg then None
  else if negb (SafeAlias.geb (SafeAlias.least_safe_alias arg_safeties)
                  closure_min_arg_safety) then
    Some args_must_have_safe_alias_of_at_least_shared_cleanup
  else if negb (SafeAlias.geb (arg_safety (coro_type raw))
                  SafeAlias.unsafe_closure_internal) then
    Some only_SafeTask_supported_as_the_inner_coro
  else None
  end.

(* ===================================================================== *)
(** ** The safety lattice: [least_safe_alias] *)
(* ===================================================================== *)

Module SafeAliasFacts.
Import SafeAlias.

Lemma leb_le (a b : safe_alias) : leb a b = true <-> le a b.
Proof. unfold leb, le. apply Nat.leb_le. Qed.

Lemma rank_inj (a b : safe_alias) : rank a = rank b -> a = b.
Proof. destruct a, b; simpl; intro H; try reflexivity; discriminate H. Qed.

Lemma le_refl (a : safe_alias) : le a a.
Proof. unfold le. lia. Qed.

Lemma le_trans (a b c : safe_alias) : le a b -> le b c -> le a c.
Proof. unfold le. lia. Qed.

Lemma le_antisym (a b : safe_alias) : le a b -> le b a -> a = b.
Proof. unfold le. intros H1 H2. apply rank_inj. lia. Qed.

Lemma le_total (a b : safe_alias) : le a b \/ le b a.
Proof. unfold le. lia. Qed.

Lemma le_safest (a : safe_alias) : le a safest.
Proof. destruct a; unfold le; simpl; lia. Qed.

Lemma rank_min (a b : safe_alias) : rank (min a b) = Nat.min (rank a) (rank b).
Proof.
  unfold min, leb. destruct (Nat.leb_spec (rank b) (rank a)); lia.
Qed.

Lemma min_cases (a b : safe_alias) : min a b = a \/ min a b = b.
Proof. unfold min. destruct (leb b a); auto. Qed.

Lemma min_safest_l (a : safe_alias) : min safest a = a.
Proof. destruct a; reflexivity. Qed.

Lemma min_safest_r (a : safe_alias) : min a safest = a.
Proof. destruct a; reflexivity. Qed.

Lemma min_assoc (a b c : safe_alias) : min a (min b c) = min (min a b) c.
Proof. apply rank_inj. rewrite !rank_min. lia. Qed.

Lemma join_lower_bound (levels : list safe_alias) :
  Forall (le (least_safe_alias levels)) levels.
Proof.
  induction levels as [|a l IH]; simpl; constructor.
  - unfold le. rewrite rank_min. lia.
  - eapply Forall_impl; [|exact IH].
    intros x Hx. unfold le in *. rewrite rank_min. lia.
Qed.

Lemma join_attained (a : safe_alias) (l : list safe_alias) :
  In (least_safe_alias (a :: l)) (a :: l).
Proof.
  revert a. induction l as [|b l IH]; intro a.
  - simpl. left. symmetry. apply min_safest_r.
  - change (least_safe_alias (a :: b :: l))
      with (min a (least_safe_alias (b :: l))).
    destruct (min_cases a (least_safe_alias (b :: l))) as [E|E]; rewrite E.
    + left; reflexivity.
    + right. apply IH.
Qed.

Lemma join_app (l1 l2 : list safe_alias) :
  least_safe_alias (l1 ++ l2) = min (least_safe_alias l1) (least_safe_alias l2).
Proof.
  induction l1 as [|a l1 IH]; simpl.
  - symmetry. apply min_safest_l.
  - change (fold_right min safest (l1 ++ l2)) with (least_safe_alias (l1 ++ l2)).
    rewrite IH. apply min_assoc.
Qed.

(** C3. The join of a non-empty sequence of safety levels is its minimum
    for the order of the levels: it is one of the levels, and it is below
    every one of them.  The join of the empty sequence is the safest level,
    the maximum of the lattice, and that level is neutral for the join. *)
Theorem least_safe_alias_is_the_minimum :
  (forall (a : safe_alias) (l : list safe_alias),
      In (least_safe_alias (a :: l)) (a :: l)
      /\ Forall (le (least_safe_alias (a :: l))) (a :: l))
  /\ least_safe_alias [] = safest
  /\ (forall a : safe_alias, le a safest)
  /\ (forall l : list safe_alias,
        least_safe_alias (safest :: l) = least_safe_alias l
        /\ least_safe_alias (l ++ [safest]) = least_safe_alias l)
  /\ (forall l1 l2 : list safe_alias,
        least_safe_alias (l1 ++ l2)
        = min (least_safe_alias l1) (least_safe_alias l2)).
Proof.
  split; [|split; [|split; [|split]]].
  - intros a l. split; [apply join_attained | apply join_lower_bound].
  - reflexivity.
  - apply le_safest.
  - intro l. split.
    + simpl. apply min_safest_l.
    + rewrite join_app. simpl. apply min_safest_r.
  - apply join_app.
Qed.

End SafeAliasFacts.

(* ===================================================================== *)
(** ** [cumsum_except_last] *)
(* ===================================================================== *)

Section CumsumFacts.

Variable T : Type.
Variable add : T -> T -> T.

Lemma cumsum_length (S0 : T) (vs : list T) :
  length (cumsum_except_last add S0 vs) = length vs.
Proof.
  revert S0. induction vs as [|v vs IH]; intro S0; simpl; [reflexivity|].
  now rewrite IH.
Qed.

Lemma cumsum_prefix_sums (S0 : T) (vs : list T) :
  cumsum_except_last add S0 vs = exclusive_prefix_sums add S0 vs.
Proof.
  unfold exclusive_prefix_sums, sum_from.
  revert S0. induction vs as [|v vs IH]; intro S0; [reflexivity|].
  cbn [cumsum_except_last length seq map firstn fold_left].
  f_equal. rewrite IH, <- seq_shift, map_map. reflexivity.
Qed.

Lemma cumsum_snoc (S0 : T) (vs : list T) (x : T) :
  cumsum_except_last add S0 (vs ++ [x])
  = cumsum_except_last add S0 vs ++ [sum_from add S0 vs].
Proof.
  unfold sum_from.
  revert S0. induction vs as [|v vs IH]; intro S0; [reflexivity|].
  simpl. now rewrite IH.
Qed.

End CumsumFacts.

Section StorageIndices.

Lemma outer_stored_args_app (l1 l2 : list binding) :
  outer_stored_args (l1 ++ l2) = outer_stored_args l1 ++ outer_stored_args l2.
Proof. unfold outer_stored_args. now rewrite map_app, concat_app. Qed.

Lemma outer_stored_args_length_snoc (pre : list binding) (b : binding) :
  length (outer_stored_args (pre ++ [b]))
  = length (outer_stored_args pre) + (if is_outer_stored b then 1 else 0).
Proof.
  rewrite outer_stored_args_app, length_app.
  destruct b; simpl; reflexivity.
Qed.

(** The slot an argument is looked up in is the slot it was stored in. *)
Lemma bind_one_arg (pre rest : list binding) (b : binding) :
  async_closure_bind_inner_coro_arg
    (length (outer_stored_args pre)) b (outer_stored_args (pre ++ b :: rest))
  = Some (inner_arg_of b).
Proof.
  destruct b; simpl; try reflexivity.
  unfold get_from_storage_ptr.
  rewrite outer_stored_args_app, nth_error_app2, Nat.sub_diag by lia.
  reflexivity.
Qed.

Lemma bind_later_args (Cfg : async_closure_config) (post pre : list binding)
    (ArgI : nat) :
  bind_inner_coro_args Cfg (S ArgI) post
    (cumsum_except_last Nat.add (length (outer_stored_args pre))
       (map (fun b => if is_outer_stored b then 1 else 0) post))
    (outer_stored_args (pre ++ post))
  = Some (map inner_arg_of post).
Proof.
  revert pre ArgI. induction post as [|b post IH]; intros pre ArgI.
  - reflexivity.
  - cbn [map cumsum_except_last bind_inner_coro_args].
    rewrite bind_one_arg.
    rewrite <- outer_stored_args_length_snoc.
    replace (pre ++ b :: post) with ((pre ++ [b]) ++ post)
      by (rewrite <- app_assoc; reflexivity).
    rewrite IH. cbn [Nat.eqb]. rewrite andb_false_r. reflexivity.
Qed.

Lemma bind_all_args (Cfg : async_closure_config) (b_tup : list binding) :
  bind_inner_coro_args Cfg 0 b_tup (StorageIs_of b_tup) (outer_stored_args b_tup)
  = Some (inner_args_of Cfg b_tup).
Proof.
  unfold StorageIs_of, inner_args_of.
  destruct b_tup as [|b post]; [reflexivity|].
  cbn [map cumsum_except_last bind_inner_coro_args].
  pose proof (bind_one_arg [] post b) as H1.
  pose proof (bind_later_args Cfg post [b] 0) as H2.
  replace (length (outer_stored_args [b]))
    with (0 + (if is_outer_stored b then 1 else 0)) in H2
    by (destruct b; reflexivity).
  change ([b] ++ post) with (b :: post) in H2.
  change ([] ++ b :: post) with (b :: post) in H1.
  change (length (outer_stored_args [])) with 0 in H1.
  rewrite H1, H2. cbn [Nat.eqb]. rewrite andb_true_r. reflexivity.
Qed.

(** The [static_assert]s on the bindings: with the indices of
    [cumsum_except_last], the type stored for a binding is the type of its
    slot, and what is left to refuse is the kind of a binding. *)
Lemma bindings_refusal_cons (b : binding) (post : list binding) :
  bindings_refusal (b :: post)
  = match bindings_refusal [b] with
    | Some f => Some f
    | None => bindings_refusal post
    end.
Proof. destruct b as [a|a|a|[|] r|x|x]; reflexivity. Qed.

Lemma bind_one_arg_asserts (pre rest : list binding) (b : binding) :
  async_closure_bind_inner_coro_arg_asserts
    (length (outer_stored_args pre)) b (outer_stored_args (pre ++ b :: rest))
  = bindings_refusal [b].
Proof.
  destruct b as [a|a|a|[|] r|x|x]; try reflexivity.
  cbn [async_closure_bind_inner_coro_arg_asserts]. unfold get_from_storage_ptr.
  rewrite outer_stored_args_app, nth_error_app2, Nat.sub_diag by lia.
  cbn [outer_stored_args map concat app nth_error].
  destruct (is_same_v (storage_type a) (storage_type a)) as [_|H];
    [reflexivity|now contradiction H].
Qed.

Lemma bind_later_asserts (post pre : list binding) :
  bind_inner_coro_args_asserts post
    (cumsum_except_last Nat.add (length (outer_stored_args pre))
       (map (fun b => if is_outer_stored b then 1 else 0) post))
    (outer_stored_args (pre ++ post))
  = bindings_refusal post.
Proof.
  revert pre. induction post as [|b post IH]; intro pre; [reflexivity|].
  cbn [map cumsum_except_last bind_inner_coro_args_asserts].
  rewrite bind_one_arg_asserts, (bindings_refusal_cons b post).
  destruct (bindings_refusal [b]); [reflexivity|].
  rewrite <- outer_stored_args_length_snoc.
  replace (pre ++ b :: post) with ((pre ++ [b]) ++ post)
    by (rewrite <- app_assoc; reflexivity).
  apply IH.
Qed.

Lemma bind_all_asserts (b_tup : list binding) :
  bind_inner_coro_args_asserts b_tup (StorageIs_of b_tup)
    (outer_stored_args b_tup)
  = bindings_refusal b_tup.
Proof. exact (bind_later_asserts b_tup []). Qed.

Lemma make_outer_coro_asserts_refused (sas : list capture_arg) :
  async_closure_make_outer_coro_asserts sas
  = if existsb cleanup_type_refused sas
    then Some co_cleanup_must_return_a_noexcept_awaitable_void_coro
    else None.
Proof.
  induction sas as [|a sas IH]; [reflexivity|].
  cbn [async_closure_make_outer_coro_asserts existsb]. rewrite IH.
  unfold async_closure_make_cleanup_tuple_asserts, cleanup_type_refused.
  destruct (privateHack_co_cleanup a); [reflexivity|].
  destruct (co_cleanup_with_error a || co_cleanup_error_oblivious a);
    [|reflexivity].
  destruct (co_cleanup_is_noexcept_void a); reflexivity.
Qed.

End StorageIndices.

(** C10. For every seed [S] and every sequence [v1, ..., vn],
    [cumsum_except_last<S, v1, ..., vn>] is the sequence of the [n] exclusive
    prefix sums [<S, S+v1, ..., S+v1+...+v(n-1)>]: the last value contributes
    to no output.  With the flags "stored on the outer coroutine" for values,
    it gives every stored argument the index of its own slot in the storage
    tuple: each binding receives the reference to the argument it stored. *)
Theorem cumsum_except_last_is_exclusive_prefix_sums :
  forall (T : Type) (add : T -> T -> T) (S0 : T) (vs : list T),
    cumsum_except_last add S0 vs = exclusive_prefix_sums add S0 vs
    /\ length (cumsum_except_last add S0 vs) = length vs
    /\ (forall x : T,
          cumsum_except_last add S0 (vs ++ [x])
          = cumsum_except_last add S0 vs ++ [sum_from add S0 vs])
    /\ (forall (Cfg : async_closure_config) (b_tup : list binding),
          bind_inner_coro_args Cfg 0 b_tup (StorageIs_of b_tup)
            (outer_stored_args b_tup)
          = Some (inner_args_of Cfg b_tup)).
Proof.
  intros T add S0 vs. split; [|split; [|split]].
  - apply cumsum_prefix_sums.
  - apply cumsum_length.
  - intro x. apply cumsum_snoc.
  - apply bind_all_args.
Qed.

(** The example of the source and the [static_assert] of the test. *)
Example cumsum_of_the_comment :
  cumsum_except_last Nat.add 0 [2; 1; 0; 2] = [0; 2; 3; 3].
Proof. reflexivity. Qed.

Example cumsum_of_the_test :
  cumsum_except_last Z.add 0%Z [2%Z; 1%Z; 3%Z] = [0%Z; 2%Z; 3%Z].
Proof. reflexivity. Qed.

(* ===================================================================== *)
(** ** [Result.h] *)
(* ===================================================================== *)

Module ResultFacts.
Import Result.



Lemma co_error_ctor_keeps (kIsDebug : bool) (a : ctor_args) (c : co_error) :
  co_error_ctor kIsDebug a = Some c ->
  exception_of c = make_exception_wrapper a.
Proof.
  unfold co_error_ctor, assert.
  destruct kIsDebug; [destruct (has_exception_ptr _)|]; intro H;
    inversion H; reflexivity.
Qed.


Lemma co_error_of_wrapper (kIsDebug : bool) (e : exception) :
  co_error_ctor kIsDebug (from_exception_wrapper (Some e))
  = Some (Build_co_error (Some e)).
Proof. destruct kIsDebug; reflexivity. Qed.

Lemma co_error_of_exception (kIsDebug : bool) (e : exception) :
  co_error_ctor kIsDebug (from_exception e) = Some (Build_co_error (Some e)).
Proof. destruct kIsDebug; reflexivity. Qed.


End ResultFacts.

(* ===================================================================== *)
(** ** The machine *)
(* ===================================================================== *)

Lemma logged_nil (m : machine) : logged m [] = m.
Proof. destruct m. unfold logged. simpl. now rewrite app_nil_r. Qed.

Lemma logged_logged (m : machine) (a b : list event) :
  logged (logged m a) b = logged m (a ++ b).
Proof. unfold logged. simpl. now rewrite app_assoc. Qed.

Lemma advanced_zero (m : machine) (evs : list event) :
  advanced m 0 evs = logged m evs.
Proof. reflexivity. Qed.

Lemma logged_advanced (m : machine) (k : nat) (a b : list event) :
  logged (advanced m k a) b = advanced m k (a ++ b).
Proof. unfold logged, advanced. simpl. now rewrite app_assoc. Qed.

Lemma emit_run (ev : event) (m : machine) :
  emit ev m = (Normal tt, logged m [ev]).
Proof. reflexivity. Qed.

Lemma bind_run_Normal {A B} (c : M A) (k : A -> M B) (m m' : machine) (a : A) :
  c m = (Normal a, m') -> bind c k m = k a m'.
Proof. unfold bind. now intros ->. Qed.

Lemma bind_run_Thrown {A B} (c : M A) (k : A -> M B) (m m' : machine)
    (e : exception) :
  c m = (Thrown e, m') -> bind c k m = (Thrown e, m').
Proof. unfold bind. now intros ->. Qed.


Lemma for_each_emit {A} (g : A -> event) (l : list A) (m : machine) :
  for_each (fun x => emit (g x)) l m = (Normal tt, logged m (map g l)).
Proof.
  revert m. induction l as [|x l IH]; intro m; simpl.
  - unfold ret. now rewrite logged_nil.
  - erewrite bind_run_Normal by apply emit_run.
    rewrite IH, logged_logged. reflexivity.
Qed.

Lemma co_await_cleanups_run (s : async_closure_storage)
    (tasks : list cleanup_task) (m : machine) :
  for_each (co_await_cleanup s) tasks m
  = (Normal tt, logged m (map (cleanup_event (inner_err_ s)) tasks)).
Proof. apply (for_each_emit (cleanup_event (inner_err_ s))). Qed.

Lemma destroy_storage_run (s : async_closure_storage) (m : machine) :
  destroy_storage s m
  = (Normal tt,
     logged m (map ev_destroy (rev (seq 0 (length (storage_tuple_ s)))))).
Proof. apply (for_each_emit ev_destroy). Qed.

(** Handing the token over, argument after argument. *)
Lemma set_cancel_tokens_run (sas : list capture_arg) (k : nat) (m : machine) :
  for_each async_closure_set_cancel_token (combine (seq k (length sas)) sas) m
  = (match token_failure sas with
     | None => Normal tt
     | Some e => Thrown e
     end, logged m (token_events k sas)).
Proof.
  revert k m. induction sas as [|a sas IH]; intros k m.
  - simpl. unfold ret. now rewrite logged_nil.
  - cbn [length seq combine for_each token_failure token_events].
    unfold async_closure_set_cancel_token at 1, token_member.
    destruct (privateHackSetParentCancelToken a) as [[e|]|];
      [| |destruct (setParentCancelToken a) as [[e|]|]].
    all: unfold bind at 1; cbn [emit call throw ret bind];
      try reflexivity.
    all: rewrite IH; unfold logged; cbn [heap allocations trace];
      rewrite <- ?app_assoc; reflexivity.
Qed.

(* ===================================================================== *)
(** ** The outer coroutine *)
(* ===================================================================== *)

Section OuterCoro.

Variable kIsDebug : bool.
Variable V : Type.

Lemma set_inner_err_same (s : async_closure_storage) :
  set_inner_err s (inner_err_ s) = s.
Proof. now destruct s. Qed.

Lemma indexed_combine {A} (l : list A) : indexed l = combine (seq 0 (length l)) l.
Proof. reflexivity. Qed.

Lemma outer_coro_await_inner_run (tok : bool) (im : inner_coro V)
    (s : async_closure_storage) (m : machine) :
  let cell := cell_before_inner kIsDebug tok s in
  outer_coro_await_inner kIsDebug tok im s m
  = (Normal (res_after_inner cell (result im),
             set_inner_err s (cell_after_inner cell (result im))),
     logged m (events_before_inner tok s ++ inner_events cell)).
Proof.
  unfold outer_coro_await_inner, cell_before_inner, events_before_inner,
    inner_events, storage_tuple_like.
  destruct tok.
  - (* the token is handed over *)
    assert (Hs : storage_tuple_
                   (if kIsDebug then set_inner_err s None else s)
                 = storage_tuple_ s) by (destruct kIsDebug; reflexivity).
    unfold bind at 1, bind at 1, try_and_catch.
    rewrite indexed_combine, Hs, set_cancel_tokens_run.
    assert (Hset : forall e, set_inner_err
                     (if kIsDebug then set_inner_err s None else s) e
                   = set_inner_err s e) by (destruct kIsDebug; reflexivity).
    destruct (token_failure (storage_tuple_ s)) as [e|];
      cbn [ret inner_err_ set_inner_err has_exception_ptr negb
           res_after_inner cell_after_inner].
    + rewrite app_nil_r. destruct kIsDebug; reflexivity.
    + unfold co_awaitTry, bind, emit, ret; cbn [inner_err_ has_exception_ptr negb].
      destruct (result im); cbn; unfold logged; cbn;
        rewrite <- ?app_assoc; destruct kIsDebug; reflexivity.
  - (* no token *)
    unfold bind at 1, ret at 1.
    destruct kIsDebug; cbn [inner_err_ set_inner_err has_exception_ptr negb].
    + unfold co_awaitTry, bind, emit, ret. cbn.
      destruct (result im); reflexivity.
    + destruct (inner_err_ s) as [e|] eqn:E;
        cbn [has_exception_ptr negb res_after_inner cell_after_inner].
      * unfold ret. rewrite <- E, set_inner_err_same. cbn.
        now rewrite logged_nil.
      * unfold co_awaitTry, bind, emit, ret. cbn.
        destruct (result im); cbn; try reflexivity.
        rewrite <- E, set_inner_err_same. reflexivity.
Qed.

Lemma async_closure_outer_coro_run (tok : bool) (im : inner_coro V)
    (s : async_closure_storage) (tasks : list cleanup_task) (m : machine) :
  let cell := cell_before_inner kIsDebug tok s in
  let first := cell_after_inner cell (result im) in
  async_closure_outer_coro kIsDebug tok im s tasks m
  = (Normal (outer_coro_complete kIsDebug im (res_after_inner cell (result im))
               (set_inner_err s first)),
     logged m (events_before_inner tok s ++ inner_events cell
               ++ map (cleanup_event first) tasks)).
Proof.
  cbv zeta. unfold async_closure_outer_coro.
  unfold bind at 1. rewrite outer_coro_await_inner_run.
  unfold bind at 1. rewrite co_await_cleanups_run.
  unfold ret. cbn [inner_err_ set_inner_err].
  rewrite logged_logged, <- app_assoc. reflexivity.
Qed.

End OuterCoro.

Section AwaitTask.

Variable kIsDebug : bool.
Variable V : Type.

(** For a coroutine of [void], [result_after_cleanup] or not, the value
    returned is the one value of the type. *)
Lemma void_outer_coro_result (im : inner_coro V) (unit_type : void_type V)
    (v : V) :
  is_void im = Some unit_type ->
  the_unit unit_type = async_closure_outer_coro_result im v.
Proof. intros _. symmetry. apply only_value. Qed.

Lemma outer_coro_complete_run (im : inner_coro V) (s : async_closure_storage)
    (cell : exception_wrapper) :
  outer_coro_complete kIsDebug im (res_after_inner cell (result im))
    (set_inner_err s (cell_after_inner cell (result im)))
  = match awaited_outcome im cell with
    | VALUE v => co_return v
    | EXCEPTION e => co_yield_co_error (Result.Build_co_error e)
    | NOTHING => assertion_failed
    end.
Proof.
  unfold awaited_outcome, res_after_inner, cell_after_inner,
    outer_coro_complete.
  destruct cell as [e|].
  - destruct (is_void im); [reflexivity|].
    rewrite ResultFacts.co_error_of_exception. reflexivity.
  - destruct (result im) as [v|e].
    + destruct (is_void im) as [u|] eqn:E; [|reflexivity].
      now rewrite (void_outer_coro_result im v E).
    + cbn [inner_err_ set_inner_err].
      rewrite ResultFacts.co_error_of_wrapper.
      destruct (is_void im); reflexivity.
Qed.

Lemma awaited_outcome_cases (im : inner_coro V) (cell : exception_wrapper) :
  (exists v, awaited_outcome im cell = VALUE v)
  \/ (exists e, awaited_outcome im cell = EXCEPTION (Some e)).
Proof.
  unfold awaited_outcome. destruct cell.
  - destruct (is_void im); [left|right]; eauto.
  - destruct (result im); [left|right]; eauto.
Qed.

Lemma co_awaitTry_outer_frame_run (ty : task_type) (tok : bool)
    (im : inner_coro V) (s : async_closure_storage)
    (tasks : list cleanup_task) (m : machine) :
  let cell := cell_before_inner kIsDebug tok s in
  co_awaitTry_task kIsDebug (Build_task ty (outer_frame tok im s tasks)) m
  = (Normal (Some (awaited_outcome im cell)),
     logged m (events_before_inner tok s ++ inner_events cell
               ++ map (cleanup_event (cell_after_inner cell (result im))) tasks
               ++ map ev_destroy (rev (seq 0 (length (storage_tuple_ s)))))).
Proof.
  cbv zeta. unfold co_awaitTry_task. cbn [frame].
  unfold bind at 1. rewrite async_closure_outer_coro_run.
  rewrite outer_coro_complete_run.
  destruct (awaited_outcome_cases im (cell_before_inner kIsDebug tok s))
    as [[v ->]|[e ->]].
  all: unfold bind at 1; rewrite destroy_storage_run; unfold ret;
    rewrite logged_logged, <- !app_assoc; reflexivity.
Qed.

Lemma co_awaitTry_inner_frame_run (ty : task_type) (im : inner_coro V)
    (m : machine) :
  co_awaitTry_task kIsDebug (Build_task ty (inner_frame im)) m
  = (Normal (Some (match result im with
                   | returns v => VALUE v
                   | throws e => EXCEPTION (Some e)
                   end)),
     logged m [ev_await_inner]).
Proof. reflexivity. Qed.

End AwaitTask.

(* ===================================================================== *)
(** ** The construction of a closure *)
(* ===================================================================== *)

Lemma advanced_advanced (m : machine) (k1 k2 : nat) (e1 e2 : list event) :
  advanced (advanced m k1 e1) k2 e2 = advanced m (k1 + k2) (e1 ++ e2).
Proof.
  unfold advanced. cbn [heap allocations trace].
  rewrite app_assoc. f_equal. lia.
Qed.

Lemma advanced_nothing (m : machine) : advanced m 0 [] = m.
Proof. rewrite advanced_zero. apply logged_nil. Qed.

Lemma allocate_run (m : machine) :
  allocate m
  = (if heap m (allocations m) then Normal tt else Thrown bad_alloc,
     advanced m 1 []).
Proof.
  unfold allocate, advanced. cbn. rewrite app_nil_r.
  destruct (heap m (allocations m)); reflexivity.
Qed.

Lemma allocate_inv (m m' : machine) (u : unit) :
  allocate m = (Normal u, m') -> m' = advanced m 1 [].
Proof.
  rewrite allocate_run. destruct (heap m (allocations m)); intro H;
    inversion H; reflexivity.
Qed.

Lemma flat_map_singleton {A B} (h : A -> B) (l : list A) :
  flat_map (fun x => [h x]) l = map h l.
Proof. induction l; simpl; congruence. Qed.

(* ===================================================================== *)
(** ** Playing a script *)
(* ===================================================================== *)

Lemma play_app (h : nat -> bool) (s : nat) (a b : script) :
  play h s (a ++ b)
  = let p := play h s a in
    if all_granted p then
      let q := play h (s + requested p) b in
      Build_played (all_granted q) (requested p + requested q)
        (happened p ++ happened q)
    else p.
Proof.
  revert s. induction a as [|[ev|] a IH]; intro s; cbn [app play].
  - cbv zeta. cbn [all_granted requested happened app].
    rewrite Nat.add_0_r. now destruct (play h s b).
  - rewrite IH. cbv zeta. cbn [all_granted requested happened].
    destruct (all_granted (play h s a)) eqn:E; [reflexivity|].
    now rewrite E.
  - destruct (h s); [|reflexivity].
    rewrite IH. cbv zeta. cbn [all_granted requested happened].
    destruct (all_granted (play h (S s) a)) eqn:E.
    + now rewrite Nat.add_succ_r.
    + now rewrite E.
Qed.

Lemma requests_app (a b : script) : requests (a ++ b) = requests a + requests b.
Proof. unfold requests. now rewrite filter_app, length_app. Qed.

Lemma events_of_app (a b : script) : events_of (a ++ b) = events_of a ++ events_of b.
Proof. apply flat_map_app. Qed.

(** Every request is granted exactly when the heap grants as many requests
    as the script makes. *)
Lemma play_granted_iff (h : nat -> bool) (sc : script) (s : nat) :
  all_granted (play h s sc) = true
  <-> (forall j, j < requests sc -> h (s + j) = true).
Proof.
  revert s. induction sc as [|[ev|] sc IH]; intro s; cbn [play all_granted].
  - split; [intros _ j Hj; inversion Hj|reflexivity].
  - apply IH.
  - unfold requests. cbn [filter is_request length]. fold (requests sc).
    destruct (h s) eqn:E; cbn [all_granted].
    + rewrite IH. split.
      * intros H [|j] Hj; [now rewrite Nat.add_0_r|].
        rewrite Nat.add_succ_r. apply (H j). lia.
      * intros H j Hj. specialize (H (S j)).
        rewrite Nat.add_succ_r in H. apply H. lia.
    + split; [discriminate|]. intro H. specialize (H 0).
      rewrite Nat.add_0_r, E in H. apply H. lia.
Qed.

Lemma play_granted_all (h : nat -> bool) (sc : script) (s : nat) :
  all_granted (play h s sc) = true ->
  requested (play h s sc) = requests sc
  /\ happened (play h s sc) = events_of sc.
Proof.
  revert s. induction sc as [|[ev|] sc IH]; intro s;
    cbn [play all_granted requested happened].
  - split; reflexivity.
  - intro H. destruct (IH s H) as [H1 H2]. split; [exact H1|].
    cbn [events_of flat_map app]. fold (events_of sc). now rewrite H2.
  - unfold requests. cbn [filter is_request length]. fold (requests sc).
    destruct (h s); cbn [all_granted requested happened]; [|discriminate].
    intro H. destruct (IH (S s) H) as [H1 H2]. split; [now rewrite H1|].
    exact H2.
Qed.

(** A script that is refused stops at the first request the heap refuses;
    the events that happened are the first events of the script. *)
Lemma play_refused (h : nat -> bool) (sc : script) (s : nat) :
  all_granted (play h s sc) = false ->
  exists j,
    requested (play h s sc) = S j
    /\ j < requests sc
    /\ h (s + j) = false
    /\ (forall i, i < j -> h (s + i) = true)
    /\ exists rest, events_of sc = happened (play h s sc) ++ rest.
Proof.
  revert s. induction sc as [|[ev|] sc IH]; intro s;
    cbn [play all_granted requested happened].
  - discriminate.
  - intro H. destruct (IH s H) as (j & H1 & H2 & H3 & H4 & rest & H5).
    exists j. repeat split; try assumption.
    exists rest. cbn [events_of flat_map app]. fold (events_of sc).
    now rewrite H5.
  - unfold requests. cbn [filter is_request length]. fold (requests sc).
    destruct (h s) eqn:E; cbn [all_granted requested happened].
    + intro H. destruct (IH (S s) H) as (j & H1 & H2 & H3 & H4 & rest & H5).
      exists (S j). rewrite H1, Nat.add_succ_r.
      split; [reflexivity|]. split; [lia|]. split; [exact H3|].
      split.
      * intros [|i] Hi; [now rewrite Nat.add_0_r|].
        rewrite Nat.add_succ_r. apply (H4 i). lia.
      * exists rest. exact H5.
    + intros _. exists 0. rewrite Nat.add_0_r.
      split; [reflexivity|]. split; [lia|]. split; [exact E|].
      split; [intros i Hi; inversion Hi|].
      exists (events_of sc). reflexivity.
Qed.

(* ===================================================================== *)
(** ** The computations of the construction play their scripts *)
(* ===================================================================== *)

Lemma performs_ret {A} (a : A) : performs (ret a) a [].
Proof.
  intro m. unfold finish. cbn. now rewrite advanced_nothing.
Qed.

Lemma performs_emit (ev : event) : performs (emit ev) tt [Some ev].
Proof. intro m. reflexivity. Qed.

Lemma performs_allocate : performs allocate tt [None].
Proof.
  intro m. rewrite allocate_run. unfold finish. cbn.
  destruct (heap m (allocations m)); reflexivity.
Qed.

Lemma performs_bind {A B} (c : M A) (k : A -> M B) (a : A) (b : B)
    (s1 s2 sc : script) :
  performs c a s1 -> performs (k a) b s2 -> sc = s1 ++ s2 ->
  performs (bind c k) b sc.
Proof.
  intros Hc Hk -> m. unfold bind. rewrite Hc. unfold finish.
  rewrite play_app. cbv zeta.
  destruct (all_granted (play (heap m) (allocations m) s1)) eqn:E;
    [|cbv iota; rewrite E; reflexivity].
  rewrite Hk. unfold finish. cbn [heap allocations advanced].
  cbn [all_granted requested happened].
  rewrite (Nat.add_comm (requested _) (allocations m)).
  f_equal. unfold advanced. cbn [heap allocations trace].
  rewrite app_assoc. f_equal. lia.
Qed.

Lemma performs_for_each_emit {A} (g : A -> event) (l : list A) :
  performs (for_each (fun x => emit (g x)) l) tt (map (fun x => Some (g x)) l).
Proof.
  induction l as [|x l IH]; cbn [for_each map]; [apply performs_ret|].
  eapply performs_bind; [apply performs_emit|exact IH|reflexivity].
Qed.

Lemma performs_map_M {A B} (f : A -> M B) (g : A -> B) (sc : A -> script)
    (l : list A) :
  (forall x, performs (f x) (g x) (sc x)) ->
  performs (map_M f l) (map g l) (flat_map sc l).
Proof.
  intro H. induction l as [|x l IH]; cbn [map_M map flat_map];
    [apply performs_ret|].
  eapply performs_bind; [apply H| |reflexivity].
  eapply performs_bind; [exact IH|apply performs_ret|].
  now rewrite app_nil_r.
Qed.

Lemma performs_make_task (i k : nat) (b : bool) :
  performs (make_task i k b) (Build_cleanup_task i k b)
    (frame_script (ev_make_cleanup i k)).
Proof.
  unfold make_task.
  eapply performs_bind; [apply performs_allocate| |reflexivity].
  eapply performs_bind; [apply performs_emit|apply performs_ret|reflexivity].
Qed.

Lemma flat_map_of_map {A B C} (f : B -> list C) (g : A -> B) (l : list A) :
  flat_map f (map g l) = flat_map (fun x => f (g x)) l.
Proof. induction l as [|x l IH]; cbn; [reflexivity|]. now rewrite IH. Qed.

Lemma flat_map_of_concat {A B} (f : A -> list B) (ls : list (list A)) :
  flat_map f (concat ls) = flat_map (flat_map f) ls.
Proof.
  induction ls as [|l ls IH]; cbn; [reflexivity|].
  now rewrite flat_map_app, IH.
Qed.

Lemma performs_make_cleanup_tuple (ia : nat * capture_arg) :
  performs (async_closure_make_cleanup_tuple ia) (cleanup_tuple_of ia)
    (cleanup_scripts (cleanup_tuple_of ia)).
Proof.
  destruct ia as [i a].
  unfold async_closure_make_cleanup_tuple, cleanup_tuple_of, cleanup_scripts.
  destruct (privateHack_co_cleanup a) as [n|].
  - rewrite flat_map_of_map.
    apply (performs_map_M (fun k => make_task i k true)
             (fun k => Build_cleanup_task i k true)
             (fun k => frame_script (ev_make_cleanup i k))).
    intro k. apply performs_make_task.
  - destruct (co_cleanup_with_error a);
      [|destruct (co_cleanup_error_oblivious a)].
    + eapply performs_bind;
        [apply performs_make_task|apply performs_ret|reflexivity].
    + eapply performs_bind;
        [apply performs_make_task|apply performs_ret|reflexivity].
    + apply performs_ret.
Qed.

(** A computation that returned has played its whole script. *)
Lemma performs_returned {A} (c : M A) (a : A) (sc : script) (m m' : machine)
    (x : A) :
  performs c a sc -> c m = (Normal x, m') ->
  x = a /\ m' = advanced m (requests sc) (events_of sc)
  /\ all_granted (play (heap m) (allocations m) sc) = true.
Proof.
  intros Hc H. rewrite Hc in H. unfold finish in H.
  destruct (all_granted (play (heap m) (allocations m) sc)) eqn:E;
    [|discriminate H].
  destruct (play_granted_all _ _ _ E) as [H1 H2]. rewrite H1, H2 in H.
  inversion H. repeat split.
Qed.

(* ===================================================================== *)
(** ** The arguments of a call, in the order the compiler chooses *)
(* ===================================================================== *)

Lemma flat_map_nth_error_seq {A B} (h : A -> list B) (l : list A) :
  flat_map (fun i => match nth_error l i with
                     | Some a => h a
                     | None => []
                     end) (seq 0 (length l))
  = flat_map h l.
Proof.
  induction l as [|a l IH]; [reflexivity|].
  cbn [length seq flat_map nth_error]. f_equal.
  rewrite <- seq_shift, flat_map_of_map. exact IH.
Qed.

Lemma flat_map_flat_map {A B C} (f : B -> list C) (h : A -> list B)
    (l : list A) :
  flat_map f (flat_map h l) = flat_map (fun x => flat_map f (h x)) l.
Proof.
  induction l as [|x l IH]; [reflexivity|].
  cbn [flat_map]. now rewrite flat_map_app, IH.
Qed.

Lemma flat_map_ext_on {A B} (f g : A -> list B) (l : list A) :
  (forall x, In x l -> f x = g x) -> flat_map f l = flat_map g l.
Proof.
  intro H. induction l as [|x l IH]; [reflexivity|].
  cbn [flat_map]. rewrite (H x) by now left.
  f_equal. apply IH. intros; apply H; now right.
Qed.

Lemma order_covers (o : evaluation_order) (n i : nat) :
  In i (order_of o n) <-> i < n.
Proof.
  split; intro H.
  - apply (Permutation_in _ (order_permutes o n)) in H.
    apply in_seq in H. lia.
  - apply (Permutation_in _ (Permutation_sym (order_permutes o n))).
    apply in_seq. lia.
Qed.

Section CallArguments.

Variables A B : Type.
Variable g : A -> B.
Variable l : list A.

(** What the calls leave, when they are evaluated in the order [ord]. *)
Lemma evaluated_lookup (ord : list nat) (i : nat) (a : A) :
  nth_error l i = Some a -> In i ord ->
  find (fun iy : nat * B => fst iy =? i)
    (concat (map (fun j => match nth_error l j with
                           | Some arg => [(j, g arg)]
                           | None => []
                           end) ord))
  = Some (i, g a).
Proof.
  intros Ha. induction ord as [|j ord IH]; intro Hin; [destruct Hin|].
  cbn [map concat]. destruct (Nat.eq_dec j i) as [->|Hne].
  - rewrite Ha. cbn [app find fst]. now rewrite Nat.eqb_refl.
  - destruct Hin as [E|Hin]; [contradiction|].
    destruct (nth_error l j) as [arg|]; cbn [app find fst];
      [|now apply IH].
    apply Nat.eqb_neq in Hne. rewrite Hne. now apply IH.
Qed.

(** The results stand in the order of the pack. *)
Lemma results_in_pack_order (o : evaluation_order) :
  flat_map (fun i => match find (fun iy : nat * B => fst iy =? i)
                             (concat (map (fun j => match nth_error l j with
                                                    | Some arg => [(j, g arg)]
                                                    | None => []
                                                    end)
                                        (order_of o (length l)))) with
                     | Some iy => [snd iy]
                     | None => []
                     end) (seq 0 (length l))
  = map g l.
Proof.
  rewrite <- (flat_map_singleton g l),
    <- (flat_map_nth_error_seq (fun a => [g a]) l).
  apply flat_map_ext_on. intros i Hi. apply in_seq in Hi.
  destruct (nth_error l i) as [a|] eqn:Ha.
  - rewrite (@evaluated_lookup (order_of o (length l)) i a Ha);
      [reflexivity|].
    apply order_covers. lia.
  - apply nth_error_None in Ha. lia.
Qed.

Lemma performs_call_arguments (o : evaluation_order) (f : A -> M B)
    (sc : A -> script) :
  (forall x, performs (f x) (g x) (sc x)) ->
  performs (call_arguments o f l) (map g l)
    (flat_map (fun i => match nth_error l i with
                        | Some x => sc x
                        | None => []
                        end) (order_of o (length l))).
Proof.
  intro H. unfold call_arguments.
  eapply performs_bind.
  - apply (performs_map_M
             (fun i => match nth_error l i with
                       | Some arg => y <- f arg ;; ret [(i, y)]
                       | None => ret []
                       end)
             (fun i => match nth_error l i with
                       | Some arg => [(i, g arg)]
                       | None => []
                       end)
             (fun i => match nth_error l i with
                       | Some x => sc x
                       | None => []
                       end)).
    intro i. destruct (nth_error l i) as [x|]; [|apply performs_ret].
    eapply performs_bind; [apply H|apply performs_ret|].
    now rewrite app_nil_r.
  - rewrite results_in_pack_order. apply performs_ret.
  - now rewrite app_nil_r.
Qed.

End CallArguments.

(** The cleanup tasks are created in the order the compiler chooses: the
    same tasks as the pack, one by one. *)
Lemma created_cleanups_permutation (o : evaluation_order)
    (sas : list capture_arg) :
  Permutation (created_cleanups o sas) (scheduled_cleanups sas).
Proof.
  unfold created_cleanups, scheduled_cleanups.
  rewrite <- flat_map_concat_map.
  rewrite <- (flat_map_nth_error_seq cleanup_tuple_of (rev (indexed sas))).
  apply Permutation_flat_map. apply order_permutes.
Qed.


Lemma created_cleanups_length (o : evaluation_order) (sas : list capture_arg) :
  length (created_cleanups o sas) = length (scheduled_cleanups sas).
Proof. apply Permutation_length, created_cleanups_permutation. Qed.

Section PerformsBuild.

Variable kIsDebug : bool.
Variable pack_order : evaluation_order.
Variable closure_min_arg_safety : safe_alias.
Variable V : Type.

Lemma performs_make_outer_coro (tok : bool) (OS : safe_alias)
    (im : inner_coro V) (s : async_closure_storage) :
  performs
    (async_closure_make_outer_coro pack_order closure_min_arg_safety tok OS
       im s)
    (Build_task (outer_coro_type closure_min_arg_safety OS)
       (outer_frame tok im s (scheduled_cleanups (storage_tuple_ s))))
    (cleanup_scripts (created_cleanups pack_order (storage_tuple_ s))
     ++ frame_script ev_make_outer).
Proof.
  unfold async_closure_make_outer_coro, reverse_apply, tuple_cat,
    storage_tuple_like.
  eapply performs_bind; [| |reflexivity].
  - eapply performs_bind;
      [apply (performs_call_arguments cleanup_tuple_of
                (rev (indexed (storage_tuple_ s))) pack_order
                async_closure_make_cleanup_tuple
                (fun ia => cleanup_scripts (cleanup_tuple_of ia)));
       apply performs_make_cleanup_tuple
      |apply performs_ret|].
    rewrite app_nil_r. unfold cleanup_scripts, created_cleanups.
    rewrite flat_map_flat_map.
    apply flat_map_ext_on. intros i _.
    destruct (nth_error _ i); reflexivity.
  - eapply performs_bind; [apply performs_allocate| |reflexivity].
    eapply performs_bind; [apply performs_emit|apply performs_ret|reflexivity].
Qed.

Lemma performs_make_storage (sas : list capture_arg) :
  performs (make_storage kIsDebug sas)
    (match sas with
     | [] => None
     | _ :: _ => Some (Build_async_closure_storage
                         (async_closure_default_inner_err kIsDebug) sas)
     end)
    (storage_script sas).
Proof.
  destruct sas as [|a l]; [apply performs_ret|].
  unfold make_storage, storage_script.
  eapply performs_bind; [apply performs_allocate| |reflexivity].
  eapply performs_bind;
    [apply (performs_for_each_emit ev_construct)|apply performs_ret|].
  now rewrite app_nil_r.
Qed.

(** The storage script is refused at its first request only. *)
Lemma storage_script_refused (h : nat -> bool) (s : nat) (sas : list capture_arg) :
  all_granted (play h s (storage_script sas)) = false ->
  play h s (storage_script sas) = Build_played false 1 [].
Proof.
  destruct sas as [|a l]; [discriminate|].
  unfold storage_script. cbn [play]. destruct (h s); [|reflexivity].
  intro H. exfalso. revert H.
  generalize (seq 0 (length (a :: l))). intro l0.
  induction l0 as [|i l0 IH]; cbn; [discriminate|exact IH].
Qed.

Lemma performs_coros (OS : safe_alias) (im : inner_coro V)
    (sas : list capture_arg) :
  performs
    (allocate ;; emit ev_make_inner ;;
     match
       match sas with
       | [] => None
       | _ :: _ => Some (Build_async_closure_storage
                           (async_closure_default_inner_err kIsDebug) sas)
       end
     with
     | None => ret (task_of_inner im)
     | Some s =>
         async_closure_make_outer_coro pack_order closure_min_arg_safety true OS
           im s
     end)
    (built_task kIsDebug closure_min_arg_safety OS im sas)
    (coros_script pack_order sas).
Proof.
  unfold coros_script, built_task.
  eapply performs_bind; [apply performs_allocate| |reflexivity].
  eapply performs_bind; [apply performs_emit| |reflexivity].
  destruct sas as [|a l]; [apply performs_ret|].
  apply performs_make_outer_coro.
Qed.

(** The run of a construction, in closed form. *)
Lemma build_outer_mover_run (OS : safe_alias) (im : inner_coro V)
    (sas : list capture_arg) (m : machine) :
  build_outer_mover kIsDebug pack_order closure_min_arg_safety OS im sas m
  = let p := play (heap m) (allocations m) (storage_script sas) in
    if all_granted p then
      let q := play (heap m) (requested p + allocations m) (coros_script pack_order sas) in
      (if all_granted q
       then Normal (built_task kIsDebug closure_min_arg_safety OS im sas)
       else Thrown bad_alloc,
       advanced m (requested p + requested q)
         (happened p ++ happened q
          ++ if all_granted q then [] else unwinding sas))
    else (Thrown bad_alloc, advanced m 1 []).
Proof.
  unfold build_outer_mover. unfold bind at 1.
  rewrite performs_make_storage. unfold finish. cbv zeta.
  destruct (all_granted (play (heap m) (allocations m) (storage_script sas)))
    eqn:Ep.
  - unfold on_unwind. rewrite (performs_coros OS im sas).
    unfold finish. cbn [heap allocations advanced].
    destruct (all_granted (play (heap m) _ (coros_script pack_order sas))).
    + rewrite advanced_advanced, app_nil_r. reflexivity.
    + rewrite advanced_advanced.
      destruct sas as [|a l].
      * cbn [ret snd unwinding length seq rev map]. now rewrite app_nil_r.
      * rewrite destroy_storage_run. cbn [snd storage_tuple_].
        rewrite logged_advanced, <- app_assoc. reflexivity.
  - rewrite (storage_script_refused _ _ _ Ep). reflexivity.
Qed.

(** The task of a construction that succeeds. *)
Lemma build_outer_mover_returned (OS : safe_alias) (im : inner_coro V)
    (sas : list capture_arg) (m m' : machine) (t : task V) :
  build_outer_mover kIsDebug pack_order closure_min_arg_safety OS im sas m
  = (Normal t, m') ->
  t = built_task kIsDebug closure_min_arg_safety OS im sas.
Proof.
  rewrite build_outer_mover_run. cbv zeta.
  destruct (all_granted (play (heap m) (allocations m) (storage_script sas)));
    [|discriminate].
  destruct (all_granted (play (heap m) _ (coros_script pack_order sas)));
    [|discriminate].
  intro H. now inversion H.
Qed.

End PerformsBuild.

(* ===================================================================== *)
(** ** Reading the traces *)
(* ===================================================================== *)

Section Collect.

Variable A : Type.
Variable f : event -> option A.

Lemma collect_app (a b : list event) :
  collect f (a ++ b) = collect f a ++ collect f b.
Proof. apply flat_map_app. Qed.

Lemma collect_none (tr : list event) :
  (forall ev, In ev tr -> f ev = None) -> collect f tr = [].
Proof.
  induction tr as [|ev tr IH]; intro H; [reflexivity|].
  unfold collect in *. simpl. rewrite (H ev) by now left.
  apply IH. intros ev' Hin. apply H. now right.
Qed.

Lemma collect_map_none {X} (g : X -> event) (l : list X) :
  (forall x, f (g x) = None) -> collect f (map g l) = [].
Proof.
  intro H. apply collect_none. intros ev Hin.
  apply in_map_iff in Hin as (x & <- & _). apply H.
Qed.

Lemma collect_map_some {X} (g : X -> event) (h : X -> A) (l : list X) :
  (forall x, f (g x) = Some (h x)) -> collect f (map g l) = map h l.
Proof.
  intro H. induction l as [|x l IH]; [reflexivity|].
  unfold collect in *. simpl. now rewrite H, IH.
Qed.

End Collect.

Lemma token_events_are_tokens (sas : list capture_arg) (k : nat) (ev : event) :
  In ev (token_events k sas) -> is_set_cancel_token ev = true.
Proof.
  revert k. induction sas as [|a sas IH]; intros k; simpl; [tauto|].
  destruct (token_member a) as [[e|]|]; simpl.
  - intros [<-|[]]. reflexivity.
  - intros [<-|H]; [reflexivity|eauto].
  - eauto.
Qed.

Lemma collect_tokens {A} (f : event -> option A) (k : nat)
    (sas : list capture_arg) :
  (forall i, f (ev_set_cancel_token i) = None) ->
  collect f (token_events k sas) = [].
Proof.
  intro H. apply collect_none. intros ev Hin.
  apply token_events_are_tokens in Hin. destruct ev; try discriminate Hin.
  apply H.
Qed.

Lemma collect_inner_events {A} (f : event -> option A) (cell : exception_wrapper) :
  f ev_await_inner = None -> collect f (inner_events cell) = [].
Proof.
  intro H. unfold inner_events. destruct (has_exception_ptr cell); [reflexivity|].
  unfold collect. simpl. now rewrite H.
Qed.

Lemma existsb_map_false {X} (p : event -> bool) (g : X -> event) (l : list X) :
  (forall x, p (g x) = false) -> existsb p (map g l) = false.
Proof.
  intro H. induction l as [|x l IH]; [reflexivity|].
  simpl. now rewrite H, IH.
Qed.

Lemma existsb_tokens (p : event -> bool) (k : nat) (sas : list capture_arg) :
  (forall i, p (ev_set_cancel_token i) = false) ->
  existsb p (token_events k sas) = false.
Proof.
  intro H. destruct (existsb p (token_events k sas)) eqn:E; [|reflexivity].
  apply existsb_exists in E as (ev & Hin & Hp).
  apply token_events_are_tokens in Hin. destruct ev; try discriminate Hin.
  now rewrite H in Hp.
Qed.

Lemma never_after_app (p q : event -> bool) (a b : list event) :
  never_after p q (a ++ b)
  = never_after p q a && never_after p q b
    && (negb (existsb p a) || negb (existsb q b)).
Proof.
  induction a as [|ev a IH]; simpl.
  - now rewrite andb_true_r.
  - rewrite IH, existsb_app.
    destruct (p ev), (existsb q a), (existsb q b), (never_after p q a),
      (never_after p q b), (existsb p a); reflexivity.
Qed.

Lemma never_after_without (p q : event -> bool) (tr : list event) :
  existsb q tr = false -> never_after p q tr = true.
Proof.
  induction tr as [|ev tr IH]; simpl; [reflexivity|].
  intro H. apply orb_false_iff in H as [_ H].
  rewrite H, IH by assumption. now destruct (p ev).
Qed.

Lemma never_after_none (p q : event -> bool) (tr : list event) :
  existsb p tr = false -> never_after p q tr = true.
Proof.
  induction tr as [|ev tr IH]; simpl; [reflexivity|].
  intro H. apply orb_false_iff in H as [-> H]. now rewrite IH.
Qed.

(** Rewriting an observer through the segments of a trace. *)
Ltac observe :=
  repeat first
    [ rewrite collect_app
    | rewrite existsb_app
    | rewrite collect_tokens by (intro; reflexivity)
    | rewrite collect_inner_events by reflexivity
    | rewrite existsb_tokens by (intro; reflexivity)
    | rewrite collect_map_none by (intro; reflexivity)
    | rewrite existsb_map_false by (intro; reflexivity) ].

Lemma seen_errors_cleanups (e : exception_wrapper) (tasks : list cleanup_task) :
  seen_errors (map (cleanup_event e) tasks) = map (fun _ => e) (filter err tasks).
Proof.
  induction tasks as [|t tasks IH]; [reflexivity|].
  unfold seen_errors, collect in *. cbn [map flat_map cleanup_event filter].
  rewrite IH. destruct (err t); reflexivity.
Qed.

Section ClosureTrace.

Variable V : Type.
Variable o : evaluation_order.
Variable sas : list capture_arg.
Variable r : task_result V.

Lemma closure_trace_constructed :
  constructed (closure_trace o sas r) = seq 0 (length sas).
Proof.
  unfold closure_trace, constructed. destruct sas as [|a l]; [reflexivity|].
  cbv zeta. observe.
  rewrite (collect_map_some _ _ (fun i => i)) by (intro; reflexivity).
  observe.
  rewrite map_id. cbn [collect flat_map app]. rewrite ?app_nil_r; reflexivity.
Qed.

Lemma closure_trace_cleaned_up :
  cleaned_up (closure_trace o sas r) = map name_of (scheduled_cleanups sas).
Proof.
  unfold closure_trace, cleaned_up. destruct sas as [|a l]; [reflexivity|].
  cbv zeta. observe. rewrite (collect_map_some _ _ name_of) by (intro; reflexivity).
  observe.
  cbn [collect flat_map app]. rewrite ?app_nil_r; reflexivity.
Qed.


Lemma closure_trace_destroyed :
  destroyed (closure_trace o sas r) = rev (seq 0 (length sas)).
Proof.
  unfold closure_trace, destroyed. destruct sas as [|a l]; [reflexivity|].
  cbv zeta. observe.
  rewrite (collect_map_some _ _ (fun i => i)) by (intro; reflexivity).
  observe.
  rewrite map_id. reflexivity.
Qed.

Lemma closure_trace_seen_errors :
  seen_errors (closure_trace o sas r)
  = map (fun _ => first_error true sas r) (filter err (scheduled_cleanups sas)).
Proof.
  unfold closure_trace. destruct sas as [|a l]; [reflexivity|].
  cbv zeta. unfold seen_errors at 1. observe.
  fold seen_errors. rewrite seen_errors_cleanups. unfold seen_errors. observe.
  cbn [collect flat_map app]. rewrite ?app_nil_r; reflexivity.
Qed.

Lemma closure_trace_inner_awaited :
  inner_awaited (closure_trace o sas r) = negb (has_exception_ptr (token_failure sas)).
Proof.
  unfold closure_trace, inner_awaited. destruct sas as [|a l]; [reflexivity|].
  cbv zeta. observe. unfold inner_events.
  destruct (has_exception_ptr (token_failure (a :: l))); reflexivity.
Qed.

Lemma closure_trace_cleanups_before_destructors :
  cleanups_before_destructors (closure_trace o sas r) = true.
Proof.
  unfold closure_trace, cleanups_before_destructors.
  destruct sas as [|a l]; [reflexivity|]. cbv zeta.
  rewrite !app_assoc. rewrite never_after_app.
  rewrite (never_after_without is_destroy is_cleanup (map ev_destroy _))
    by (apply existsb_map_false; intro; reflexivity).
  rewrite (existsb_map_false is_cleanup ev_destroy) by (intro; reflexivity).
  rewrite never_after_none; [cbn [andb negb]; apply orb_true_r|].
  observe. unfold inner_events.
  destruct (has_exception_ptr (token_failure (a :: l))); reflexivity.
Qed.


End ClosureTrace.

(* ===================================================================== *)
(** ** The schedule of the cleanup tasks *)
(* ===================================================================== *)

Lemma map_nth_seq {A} (l : list A) (d : A) :
  map (fun i => nth i l d) (seq 0 (length l)) = l.
Proof.
  induction l as [|x l IH]; [reflexivity|].
  cbn [length seq map nth]. rewrite <- seq_shift, map_map. cbn [nth].
  now rewrite IH.
Qed.

Lemma indexed_length {A} (l : list A) : length (indexed l) = length l.
Proof. unfold indexed. rewrite length_combine, length_seq. lia. Qed.

Lemma map_fst_combine_seq {A} (l : list A) (k : nat) :
  map fst (combine (seq k (length l)) l) = seq k (length l).
Proof.
  revert k. induction l as [|x l IH]; intro k; [reflexivity|].
  cbn [length seq combine map fst]. now rewrite IH.
Qed.

Lemma cleanup_hooks_length (sas : list capture_arg) :
  length (cleanup_hooks sas) = length sas.
Proof. unfold cleanup_hooks. now rewrite length_map, indexed_length. Qed.

(** The pack of the cleanup tasks is the hooks of the arguments, in the
    reverse of the order of the storage. *)
Lemma scheduled_in_reverse (sas : list capture_arg) :
  map name_of (scheduled_cleanups sas)
  = reverse_of_construction sas (seq 0 (length sas)).
Proof.
  unfold reverse_of_construction, scheduled_cleanups.
  rewrite flat_map_concat_map, concat_map. f_equal.
  rewrite <- (map_map (fun i => nth i (cleanup_hooks sas) []) (map name_of)).
  f_equal. rewrite !map_rev. f_equal.
  rewrite <- (cleanup_hooks_length sas), map_nth_seq. reflexivity.
Qed.

Lemma cleanup_tuple_names (i : nat) (a : capture_arg) :
  exists ks, NoDup ks
             /\ map name_of (cleanup_tuple_of (i, a)) = map (pair i) ks.
Proof.
  unfold cleanup_tuple_of.
  destruct (privateHack_co_cleanup a) as [n|].
  - exists (seq 0 n). split; [apply seq_NoDup|]. now rewrite map_map.
  - destruct (co_cleanup_with_error a);
      [|destruct (co_cleanup_error_oblivious a)].
    + exists [0]. split; [repeat constructor; simpl; tauto|reflexivity].
    + exists [0]. split; [repeat constructor; simpl; tauto|reflexivity].
    + exists []. split; [constructor|reflexivity].
Qed.

Lemma NoDup_map_pair {A B} (i : A) (ks : list B) :
  NoDup ks -> NoDup (map (pair i) ks).
Proof.
  induction 1 as [|k ks Hnotin _ IH]; simpl; constructor; [|assumption].
  intro Hin. apply in_map_iff in Hin as (k' & E & Hin').
  inversion E; subst. contradiction.
Qed.

Lemma names_of_tuples_owner (l : list (nat * capture_arg)) (x : nat * nat) :
  In x (map name_of (concat (map cleanup_tuple_of l))) -> In (fst x) (map fst l).
Proof.
  induction l as [|[i a] l IH]; [tauto|].
  cbn [map concat]. rewrite map_app, in_app_iff. intros [H|H].
  - destruct (cleanup_tuple_names i a) as (ks & _ & E). rewrite E in H.
    apply in_map_iff in H as (k & <- & _). now left.
  - right. now apply IH.
Qed.

Lemma names_of_tuples_NoDup (l : list (nat * capture_arg)) :
  NoDup (map fst l) -> NoDup (map name_of (concat (map cleanup_tuple_of l))).
Proof.
  induction l as [|[i a] l IH]; intro H; [constructor|].
  cbn [map concat fst] in *. inversion H as [|? ? Hnotin Hrest]; subst.
  rewrite map_app. apply NoDup_app.
  - destruct (cleanup_tuple_names i a) as (ks & Hks & ->).
    now apply NoDup_map_pair.
  - now apply IH.
  - intros x Hx Hin. apply names_of_tuples_owner in Hin.
    destruct (cleanup_tuple_names i a) as (ks & _ & E). rewrite E in Hx.
    apply in_map_iff in Hx as (k & <- & _). now apply Hnotin.
Qed.

(** No cleanup task is scheduled twice. *)
Lemma scheduled_NoDup (sas : list capture_arg) :
  NoDup (map name_of (scheduled_cleanups sas)).
Proof.
  unfold scheduled_cleanups. apply names_of_tuples_NoDup.
  rewrite map_rev. apply NoDup_rev. unfold indexed.
  rewrite map_fst_combine_seq. apply seq_NoDup.
Qed.

(* ===================================================================== *)
(** ** The life of a closure: bound, released, awaited *)
(* ===================================================================== *)

Section Life.

Variable kIsDebug : bool.
Variable pack_order : evaluation_order.
Variable closure_min_arg_safety : safe_alias.
Variable arg_safety : task_type -> safe_alias.
Variable V : Type.

Variable Cfg : async_closure_config.
Variable make_inner_coro : list inner_coro_arg -> inner_coro V.
Variable arg_safeties : list safe_alias.
Variable b_tup : list binding.


Lemma await_toNowTask (t : task V) :
  co_awaitTry_task kIsDebug (toNowTask t) = co_awaitTry_task kIsDebug t.
Proof. reflexivity. Qed.

Lemma closure_outcome_ext (im raw : inner_coro V) (l : list capture_arg) :
  result im = result raw ->
  result_after_cleanup im = result_after_cleanup raw ->
  is_void im = is_void raw ->
  closure_outcome l im = closure_outcome l raw.
Proof.
  intros Hres Hrac Hvoid. unfold closure_outcome, awaited_outcome,
    async_closure_outer_coro_result.
  rewrite Hres, Hrac, Hvoid. reflexivity.
Qed.

End Life.

(* ===================================================================== *)
(** ** The whole run of a closure, on every heap *)
(* ===================================================================== *)

Lemma requests_events {A} (g : A -> event) (l : list A) :
  requests (map (fun x => Some (g x)) l) = 0.
Proof. unfold requests. induction l as [|x l IH]; [reflexivity|exact IH]. Qed.

Lemma events_of_events {A} (g : A -> event) (l : list A) :
  events_of (map (fun x => Some (g x)) l) = map g l.
Proof.
  unfold events_of. induction l as [|x l IH]; [reflexivity|].
  cbn [map flat_map app]. now rewrite IH.
Qed.

Lemma requests_cleanup_scripts (tasks : list cleanup_task) :
  requests (cleanup_scripts tasks) = length tasks.
Proof.
  unfold requests, cleanup_scripts.
  induction tasks as [|t tasks IH]; [reflexivity|].
  cbn [flat_map frame_script app filter is_request length]. now rewrite IH.
Qed.

Lemma events_of_cleanup_scripts (tasks : list cleanup_task) :
  events_of (cleanup_scripts tasks) = map make_event tasks.
Proof.
  unfold events_of, cleanup_scripts.
  induction tasks as [|t tasks IH]; [reflexivity|].
  cbn [flat_map frame_script app map]. now rewrite IH.
Qed.

Lemma requests_storage_script (sas : list capture_arg) :
  requests (storage_script sas) = match sas with [] => 0 | _ :: _ => 1 end.
Proof.
  destruct sas as [|a l]; [reflexivity|].
  unfold storage_script.
  change (None :: ?l) with ([@None event] ++ l).
  now rewrite requests_app, requests_events.
Qed.

Lemma events_of_storage_script (sas : list capture_arg) :
  events_of (storage_script sas) = map ev_construct (seq 0 (length sas)).
Proof.
  destruct sas as [|a l]; [reflexivity|].
  unfold storage_script.
  change (None :: ?l) with ([@None event] ++ l).
  now rewrite events_of_app, events_of_events.
Qed.

Lemma requests_coros_script (o : evaluation_order) (sas : list capture_arg) :
  requests (coros_script o sas)
  = match sas with [] => 1 | _ :: _ => length (scheduled_cleanups sas) + 2 end.
Proof.
  unfold coros_script. rewrite requests_app.
  destruct sas as [|a l]; [reflexivity|].
  rewrite requests_app, requests_cleanup_scripts, created_cleanups_length.
  unfold requests, frame_script. cbn [filter is_request length]. lia.
Qed.

Lemma events_of_coros_script (o : evaluation_order) (sas : list capture_arg) :
  events_of (coros_script o sas)
  = ev_make_inner
    :: match sas with
       | [] => []
       | _ :: _ => map make_event (created_cleanups o sas) ++ [ev_make_outer]
       end.
Proof.
  unfold coros_script. rewrite events_of_app.
  destruct sas as [|a l]; [reflexivity|].
  rewrite events_of_app, events_of_cleanup_scripts. reflexivity.
Qed.

Lemma requests_construction (o : evaluation_order) (sas : list capture_arg) :
  requests (storage_script sas ++ coros_script o sas) = closure_allocations sas.
Proof.
  rewrite requests_app, requests_storage_script, requests_coros_script.
  unfold closure_allocations. destruct sas; lia.
Qed.

Lemma bind_bind_ret {A B C} (c : M A) (f : A -> B) (k : B -> M C) (m : machine) :
  (y <- (x <- c ;; ret (f x)) ;; k y) m = (x <- c ;; k (f x)) m.
Proof. unfold bind, ret. destruct (c m) as [[x|e] m1]; reflexivity. Qed.

Section WholeRun.

Variable kIsDebug : bool.
Variable pack_order : evaluation_order.
Variable closure_min_arg_safety : safe_alias.
Variable arg_safety : task_type -> safe_alias.
Variable V : Type.

(** Awaiting the task of a construction. *)
Lemma await_built_task (OS : safe_alias) (im : inner_coro V)
    (sas : list capture_arg) (m : machine) :
  co_awaitTry_task kIsDebug
    (built_task kIsDebug closure_min_arg_safety OS im sas) m
  = (Normal (Some (closure_outcome sas im)),
     logged m
       match sas with
       | [] => [ev_await_inner]
       | _ :: _ =>
           token_events 0 sas
           ++ inner_events (token_failure sas)
           ++ map (cleanup_event (first_error true sas (result im)))
                (scheduled_cleanups sas)
           ++ map ev_destroy (rev (seq 0 (length sas)))
       end).
Proof.
  unfold built_task. destruct sas as [|a l].
  - unfold task_of_inner. rewrite co_awaitTry_inner_frame_run. reflexivity.
  - rewrite co_awaitTry_outer_frame_run.
    unfold cell_before_inner, events_before_inner. cbn [storage_tuple_].
    reflexivity.
Qed.

(** Building, then awaiting, from a fresh machine. *)
Lemma build_await_life (OS : safe_alias) (im raw : inner_coro V)
    (sas : list capture_arg) (wrap : task V -> task V) (h : nat -> bool) :
  (forall t, co_awaitTry_task kIsDebug (wrap t) = co_awaitTry_task kIsDebug t) ->
  result im = result raw ->
  result_after_cleanup im = result_after_cleanup raw ->
  is_void im = is_void raw ->
  (t <- build_outer_mover kIsDebug pack_order closure_min_arg_safety OS im
          sas ;;
   co_awaitTry_task kIsDebug (wrap t)) (boot h)
  = closure_life pack_order sas raw h.
Proof.
  intros Hwrap Hres Hrac Hvoid. unfold bind.
  rewrite build_outer_mover_run. cbv zeta. cbn [boot heap allocations].
  unfold closure_life. rewrite Nat.add_0_r.
  destruct (all_granted (play h 0 (storage_script sas))) eqn:Ep;
    [|reflexivity].
  destruct (all_granted (play h _ (coros_script pack_order sas))) eqn:Eq.
  - rewrite Hwrap, await_built_task.
    rewrite (@closure_outcome_ext V im raw sas Hres Hrac Hvoid).
    destruct (play_granted_all _ _ _ Ep) as [Hp1 Hp2].
    destruct (play_granted_all _ _ _ Eq) as [Hq1 Hq2].
    rewrite Hq1, Hq2, Hp1, Hp2.
    rewrite events_of_storage_script, events_of_coros_script.
    rewrite requests_storage_script, requests_coros_script.
    unfold closure_trace, closure_allocations. rewrite Hres.
    apply pair_equal_spec. split; [reflexivity|].
    destruct sas as [|a l].
    + reflexivity.
    + unfold logged, advanced, boot. cbn [heap allocations trace app].
      f_equal; [lia|].
      repeat (rewrite <- app_assoc || rewrite app_nil_r
              || rewrite <- app_comm_cons || cbn [app]).
      reflexivity.
  - unfold advanced. cbn [heap allocations trace app].
    now rewrite Nat.add_0_r.
Qed.

(** Every run of a closure in closed form: the call is refused when it is
    compiled, or the closure lives as [closure_life] tells. *)
Lemma run_closure_life (Cfg : async_closure_config)
    (make_inner_coro : list inner_coro_arg -> inner_coro V)
    (arg_safeties : list safe_alias) (b_tup : list binding) (h : nat -> bool) :
  run_closure kIsDebug pack_order closure_min_arg_safety arg_safety Cfg
    make_inner_coro (arg_safeties, b_tup) h
  = match closure_refusal closure_min_arg_safety arg_safety Cfg
            (make_inner_coro (inner_args_of Cfg b_tup)) arg_safeties
            b_tup with
    | Some f => inl f
    | None =>
        inr (closure_life pack_order (outer_stored_args b_tup)
               (make_inner_coro (inner_args_of Cfg b_tup)) h)
    end.
Proof.
  unfold run_closure, bind_captures_to_closure, closure_refusal.
  rewrite bind_all_args, bind_all_asserts, make_outer_coro_asserts_refused.
  cbv zeta.
  destruct (bindings_refusal b_tup); [reflexivity|].
  set (raw := make_inner_coro (inner_args_of Cfg b_tup)).
  set (sas := outer_stored_args b_tup).
  set (OS := if force_shared_cleanup Cfg then SafeAlias.unsafe
             else SafeAlias.least_safe_alias arg_safeties).
  set (im := if SafeAlias.geb (arg_safety (coro_type raw))
                  SafeAlias.unsafe_closure_internal
             then withNewSafety (SafeAlias.max OS closure_min_arg_safety) raw
             else raw).
  assert (Hres : result im = result raw)
    by (unfold im; destruct (SafeAlias.geb _ _); reflexivity).
  assert (Hrac : result_after_cleanup im = result_after_cleanup raw)
    by (unfold im; destruct (SafeAlias.geb _ _); reflexivity).
  assert (Hvoid : is_void im = is_void raw)
    by (unfold im; destruct (SafeAlias.geb _ _); reflexivity).
  destruct (negb (Bool.eqb (is_MemberTask (coro_type raw))
                    (is_invoke_member Cfg))); [reflexivity|].
  rewrite Hrac.
  destruct (match sas with
            | [] => match result_after_cleanup raw with
                    | Some _ => true
                    | None => false
                    end
            | _ :: _ => false
            end) eqn:Eafter.
  { destruct sas; [destruct (result_after_cleanup raw)|];
      try discriminate Eafter; reflexivity. }
  replace (match sas with
           | [] => match result_after_cleanup raw with
                   | Some _ => true
                   | None => false
                   end
           | _ :: _ => false
           end) with false
    by (destruct sas; [destruct (result_after_cleanup raw)|];
        try discriminate Eafter; reflexivity).
  destruct (existsb cleanup_type_refused sas); [reflexivity|].
  unfold OS in *. clear OS.
  destruct (force_shared_cleanup Cfg); cbn [co_await_closure].
  - f_equal. rewrite bind_bind_ret.
    apply (@build_await_life SafeAlias.unsafe im raw sas (@toNowTask V) h);
      try assumption.
    intro t. reflexivity.
  - unfold release_outer_coro, has_safe_args, is_inner_coro_safe.
    cbn [OuterSafety InnerSafety outer_mover_].
    destruct (negb (SafeAlias.geb (SafeAlias.least_safe_alias arg_safeties)
                      closure_min_arg_safety)); [reflexivity|].
    destruct (negb (SafeAlias.geb (arg_safety (coro_type raw))
                      SafeAlias.unsafe_closure_internal)); [reflexivity|].
    f_equal.
    apply (@build_await_life (SafeAlias.least_safe_alias arg_safeties)
             im raw sas (fun t => t) h); try assumption.
    intro t. reflexivity.
Qed.

(** A closure that was constructed and awaited. *)
Lemma closure_life_returned (sas : list capture_arg) (raw : inner_coro V)
    (h : nat -> bool) (r : option (Try V)) (m : machine) :
  closure_life pack_order sas raw h = (Normal r, m) ->
  r = Some (closure_outcome sas raw)
  /\ m = Build_machine h (closure_allocations sas)
          (closure_trace pack_order sas (result raw)).
Proof.
  unfold closure_life.
  destruct (all_granted (play h 0 (storage_script sas))); [|discriminate].
  destruct (all_granted (play h _ (coros_script pack_order sas)));
    [|discriminate].
  intro H. inversion H. split; reflexivity.
Qed.

End WholeRun.

(* ===================================================================== *)
(** ** Constructions that fail *)
(* ===================================================================== *)

(** The storage is filled exactly when the first request is granted. *)
Lemma storage_granted (h : nat -> bool) (sas : list capture_arg) :
  all_granted (play h 0 (storage_script sas)) = true ->
  (if h 0 then seq 0 (length sas) else []) = seq 0 (length sas).
Proof.
  destruct sas as [|a l]; [now destruct (h 0)|].
  unfold storage_script. cbn [play]. destruct (h 0); [reflexivity|discriminate].
Qed.

Lemma storage_refused (h : nat -> bool) (sas : list capture_arg) :
  all_granted (play h 0 (storage_script sas)) = false -> h 0 = false.
Proof.
  destruct sas as [|a l]; [discriminate|].
  intro H. destruct (h 0) eqn:E; [|reflexivity].
  rewrite (proj2 (play_granted_iff h (storage_script (a :: l)) 0)) in H;
    [discriminate H|].
  rewrite requests_storage_script. intros [|j] Hj; [exact E|lia].
Qed.

(** The construction as one script. *)
Lemma play_construction (o : evaluation_order) (h : nat -> bool)
    (sas : list capture_arg) :
  play h 0 (storage_script sas ++ coros_script o sas)
  = if all_granted (play h 0 (storage_script sas)) then
      Build_played
        (all_granted (play h (requested (play h 0 (storage_script sas)))
                        (coros_script o sas)))
        (requested (play h 0 (storage_script sas))
         + requested (play h (requested (play h 0 (storage_script sas)))
                        (coros_script o sas)))
        (happened (play h 0 (storage_script sas))
         ++ happened (play h (requested (play h 0 (storage_script sas)))
                        (coros_script o sas)))
    else play h 0 (storage_script sas).
Proof. rewrite play_app. reflexivity. Qed.

Lemma collect_prefix {A} (f : event -> option A) (a b : list event) :
  collect f (a ++ b) = [] -> collect f a = [].
Proof. rewrite collect_app. intro H. now apply app_eq_nil in H. Qed.

Lemma existsb_prefix (p : event -> bool) (a b : list event) :
  existsb p (a ++ b) = false -> existsb p a = false.
Proof. rewrite existsb_app. intro H. now apply orb_false_iff in H. Qed.

(** The events of the coroutines' frames are neither constructions nor
    destructions of stored arguments, nor hand-overs of the token. *)
Lemma coros_events_collect {A} (o : evaluation_order) (f : event -> option A)
    (sas : list capture_arg) :
  f ev_make_inner = None ->
  (forall i k, f (ev_make_cleanup i k) = None) ->
  f ev_make_outer = None ->
  collect f (events_of (coros_script o sas)) = [].
Proof.
  intros Hi Hm Ho. rewrite events_of_coros_script.
  apply collect_none. intros ev [<-|Hin]; [exact Hi|].
  destruct sas as [|a l]; [destruct Hin|].
  apply in_app_iff in Hin as [Hin|[<-|[]]]; [|exact Ho].
  apply in_map_iff in Hin as (t & <- & _). apply Hm.
Qed.

Lemma coros_events_existsb (o : evaluation_order) (p : event -> bool)
    (sas : list capture_arg) :
  p ev_make_inner = false ->
  (forall i k, p (ev_make_cleanup i k) = false) ->
  p ev_make_outer = false ->
  existsb p (events_of (coros_script o sas)) = false.
Proof.
  intros Hi Hm Ho. rewrite events_of_coros_script. cbn [existsb]. rewrite Hi.
  destruct sas as [|a l]; [reflexivity|].
  rewrite existsb_app, (existsb_map_false p make_event) by (intro; apply Hm).
  cbn. now rewrite Ho.
Qed.

(** The three lives of a closure that compiles: every request of the
    construction is granted, and the closure is constructed and awaited; or
    the request for the storage is refused; or a later request of the
    construction is refused, and the storage is destroyed by the unwinding. *)
Lemma closure_life_cases {V} (o : evaluation_order) (sas : list capture_arg)
    (raw : inner_coro V) (h : nat -> bool) :
  ((forall j, j < closure_allocations sas -> h j = true)
   /\ (if h 0 then seq 0 (length sas) else []) = seq 0 (length sas)
   /\ closure_life o sas raw h
      = (Normal (Some (closure_outcome sas raw)),
         Build_machine h (closure_allocations sas)
           (closure_trace o sas (result raw))))
  \/ (exists j hq rest,
         j < closure_allocations sas
         /\ h j = false
         /\ (forall i, i < j -> h i = true)
         /\ events_of (coros_script o sas) = hq ++ rest
         /\ ((h 0 = false
              /\ closure_life o sas raw h
                 = (Thrown bad_alloc, Build_machine h (S j) []))
             \/ ((if h 0 then seq 0 (length sas) else []) = seq 0 (length sas)
                 /\ closure_life o sas raw h
                    = (Thrown bad_alloc,
                       Build_machine h (S j)
                         (map ev_construct (seq 0 (length sas))
                          ++ hq ++ unwinding sas))))).
Proof.
  unfold closure_life.
  pose proof (play_construction o h sas) as HP.
  pose proof (play_granted_iff h (storage_script sas ++ coros_script o sas) 0)
    as Hiff.
  pose proof (@play_refused h (storage_script sas ++ coros_script o sas) 0)
    as Href.
  rewrite requests_construction in Hiff, Href. cbn [Nat.add] in Hiff, Href.
  destruct (all_granted (play h 0 (storage_script sas))) eqn:Ep.
  - destruct (all_granted (play h _ (coros_script o sas))) eqn:Eq;
      rewrite HP in Hiff, Href; cbn [all_granted requested happened] in *.
    + left. split; [now apply Hiff|].
      split; [now apply storage_granted|reflexivity].
    + right. destruct (Href eq_refl) as (j & H1 & H2 & H3 & H4 & _).
      destruct (play_refused _ _ _ Eq) as (_ & _ & _ & _ & _ & rest & Hq).
      destruct (play_granted_all _ _ _ Ep) as [_ Hp].
      exists j, (happened (play h (requested (play h 0 (storage_script sas)))
                            (coros_script o sas))), rest.
      repeat (split; [assumption|]).
      right. split; [now apply storage_granted|].
      rewrite H1, Hp, events_of_storage_script. reflexivity.
  - right. rewrite HP in Hiff, Href. rewrite Ep in Hiff.
    specialize (Href Ep).
    rewrite (storage_script_refused _ _ _ Ep) in Href.
    cbn [requested] in Href.
    destruct Href as (j & H1 & H2 & H3 & H4 & _).
    inversion H1; subst j.
    exists 0, [], (events_of (coros_script o sas)).
    repeat (split; [assumption|]). split; [reflexivity|].
    left. split; [now apply storage_refused with (sas := sas)|reflexivity].
Qed.

(** When no [static_assert] refuses a call. *)
Lemma closure_refusal_none {V} (closure_min_arg_safety : safe_alias)
    (arg_safety : task_type -> safe_alias) (Cfg : async_closure_config)
    (raw : inner_coro V) (arg_safeties : list safe_alias)
    (b_tup : list binding) :
  closure_refusal closure_min_arg_safety arg_safety Cfg raw arg_safeties b_tup
  = None
  <-> bindings_refusal b_tup = None
      /\ is_MemberTask (coro_type raw) = is_invoke_member Cfg
      /\ (outer_stored_args b_tup = [] -> result_after_cleanup raw = None)
      /\ existsb cleanup_type_refused (outer_stored_args b_tup) = false
      /\ (force_shared_cleanup Cfg = false ->
          SafeAlias.geb (SafeAlias.least_safe_alias arg_safeties)
            closure_min_arg_safety = true
          /\ SafeAlias.geb (arg_safety (coro_type raw))
               SafeAlias.unsafe_closure_internal = true).
Proof.
  unfold closure_refusal. cbv zeta.
  destruct (bindings_refusal b_tup);
    [split; [discriminate|intros [H _]; discriminate H]|].
  rewrite <- (Bool.eqb_true_iff (is_MemberTask (coro_type raw))).
  destruct (Bool.eqb _ _); cbn [negb];
    [|split; [discriminate|intros (_ & H & _); discriminate H]].
  destruct (outer_stored_args b_tup) as [|a l].
  - destruct (result_after_cleanup raw).
    + split; [discriminate|]. intros (_ & _ & H & _).
      specialize (H eq_refl). discriminate H.
    + cbn [existsb]. destruct (force_shared_cleanup Cfg).
      * split; [|reflexivity]. intros _. repeat split; discriminate.
      * destruct (SafeAlias.geb (SafeAlias.least_safe_alias arg_safeties) _);
          cbn [negb].
        -- destruct (SafeAlias.geb (arg_safety (coro_type raw)) _); cbn [negb].
           ++ split; [|reflexivity]. intros _. repeat split.
           ++ split; [discriminate|]. intros (_ & _ & _ & _ & H).
              destruct (H eq_refl) as [_ H']. discriminate H'.
        -- split; [discriminate|]. intros (_ & _ & _ & _ & H).
           destruct (H eq_refl) as [H' _]. discriminate H'.
  - destruct (existsb cleanup_type_refused (a :: l)).
    + split; [discriminate|]. intros (_ & _ & _ & H & _). discriminate H.
    + destruct (force_shared_cleanup Cfg).
      * split; [|reflexivity]. intros _. repeat split; discriminate.
      * destruct (SafeAlias.geb (SafeAlias.least_safe_alias arg_safeties) _);
          cbn [negb].
        -- destruct (SafeAlias.geb (arg_safety (coro_type raw)) _); cbn [negb].
           ++ split; [|reflexivity]. intros _. repeat split; discriminate.
           ++ split; [discriminate|]. intros (_ & _ & _ & _ & H).
              destruct (H eq_refl) as [_ H']. discriminate H'.
        -- split; [discriminate|]. intros (_ & _ & _ & _ & H).
           destruct (H eq_refl) as [H' _]. discriminate H'.
Qed.

(** A call that compiled, and the life of its closure. *)
Lemma run_closure_compiled (kIsDebug : bool) (pack_order : evaluation_order)
    (closure_min_arg_safety : safe_alias)
    (arg_safety : task_type -> safe_alias) (V : Type)
    (Cfg : async_closure_config)
    (make_inner_coro : list inner_coro_arg -> inner_coro V)
    (arg_safeties : list safe_alias) (b_tup : list binding) (h : nat -> bool)
    (x : outcome (option (Try V)) * machine) :
  run_closure kIsDebug pack_order closure_min_arg_safety arg_safety Cfg
    make_inner_coro (arg_safeties, b_tup) h = inr x ->
  closure_refusal closure_min_arg_safety arg_safety Cfg
    (make_inner_coro (inner_args_of Cfg b_tup)) arg_safeties b_tup = None
  /\ x = closure_life pack_order (outer_stored_args b_tup)
           (make_inner_coro (inner_args_of Cfg b_tup)) h.
Proof.
  rewrite run_closure_life.
  destruct (closure_refusal _ _ _ _ _ _); [discriminate|].
  intro H. inversion H. split; reflexivity.
Qed.


(** The refusals in plain words. *)
Lemma bindings_refusal_none (b_tup : list binding) :
  bindings_refusal b_tup = None
  <-> (forall r, ~ In (any_capture false r) b_tup)
      /\ (forall x, ~ In (other_binding x) b_tup).
Proof.
  induction b_tup as [|b l IH].
  - split; [intros _; split; intros ? []|reflexivity].
  - assert (Hin : (forall r, ~ In (any_capture false r) l)
                  /\ (forall x, ~ In (other_binding x) l)
                  -> b <> b ->
                  False) by (intros _ H; now apply H).
    destruct b as [a|a|a|[|] r|x|x]; cbn [bindings_refusal].
    1-4, 6: rewrite IH; split; intros [H1 H2];
      (split; [intros r' [Hr|Hr]; [discriminate Hr|now apply (H1 r')]
              |intros x' [Hx|Hx]; [discriminate Hx|now apply (H2 x')]])
      || (split; [intros r' Hr; apply (H1 r'); now right
                 |intros x' Hx; apply (H2 x'); now right]).
    + split; [discriminate|]. intros [H _]. exfalso. apply (H r). now left.
    + split; [discriminate|]. intros [_ H]. exfalso. apply (H x). now left.
Qed.

Lemma cleanup_type_refused_none (sas : list capture_arg) :
  existsb cleanup_type_refused sas = false
  <-> (forall a, In a sas ->
         privateHack_co_cleanup a = None ->
         co_cleanup_with_error a || co_cleanup_error_oblivious a = true ->
         co_cleanup_is_noexcept_void a = true).
Proof.
  split.
  - intros H a Hin Hp Hc.
    destruct (co_cleanup_is_noexcept_void a) eqn:E; [reflexivity|].
    assert (Hex : existsb cleanup_type_refused sas = true).
    { apply existsb_exists. exists a. split; [exact Hin|].
      unfold cleanup_type_refused. now rewrite Hp, Hc, E. }
    rewrite H in Hex. discriminate Hex.
  - intro H. destruct (existsb cleanup_type_refused sas) eqn:E; [|reflexivity].
    apply existsb_exists in E as (a & Hin & Ha).
    unfold cleanup_type_refused in Ha.
    destruct (privateHack_co_cleanup a) eqn:Ep; [discriminate Ha|].
    apply andb_true_iff in Ha as [Hc Hn].
    rewrite (H a Hin Ep Hc) in Hn. discriminate Hn.
Qed.

(** The slot of a stored argument is never why a call is refused. *)
Lemma closure_refusal_kinds {V} (closure_min_arg_safety : safe_alias)
    (arg_safety : task_type -> safe_alias) (Cfg : async_closure_config)
    (raw : inner_coro V) (arg_safeties : list safe_alias)
    (b_tup : list binding) (f : static_assert_failure) :
  closure_refusal closure_min_arg_safety arg_safety Cfg raw arg_safeties b_tup
  = Some f ->
  f <> get_out_of_range /\ f <> storage_type_is_not_the_type_of_the_slot.
Proof.
  unfold closure_refusal. cbv zeta.
  destruct (bindings_refusal b_tup) as [g|] eqn:Eb.
  { intro H. inversion H; subst g. clear H.
    induction b_tup as [|b l IH]; [discriminate Eb|].
    destruct b as [a|a|a|[|] r|x|x]; cbn [bindings_refusal] in Eb;
      try (apply IH; exact Eb); inversion Eb; split; discriminate. }
  repeat match goal with
         | |- (if ?c then _ else _) = _ -> _ => destruct c
         end;
    intro H; inversion H; split; discriminate.
Qed.

(* ===================================================================== *)
(** ** The order of the cleanups *)
(* ===================================================================== *)

Section Claims.

Variable kIsDebug : bool.
Variable pack_order : evaluation_order.
Variable closure_min_arg_safety : safe_alias.
Variable arg_safety : task_type -> safe_alias.
Variable V : Type.

Variable Cfg : async_closure_config.
Variable make_inner_coro : list inner_coro_arg -> inner_coro V.
Variable arg_safeties : list safe_alias.
Variable b_tup : list binding.
Variable h : nat -> bool.

(** A closure that was constructed and awaited. *)
Lemma run_closure_returned (r : option (Try V)) (m : machine) :
  run_closure kIsDebug pack_order closure_min_arg_safety arg_safety Cfg make_inner_coro
    (arg_safeties, b_tup) h = inr (Normal r, m) ->
  r = Some (closure_outcome (outer_stored_args b_tup)
              (make_inner_coro (inner_args_of Cfg b_tup)))
  /\ trace m = closure_trace pack_order (outer_stored_args b_tup)
                 (result (make_inner_coro (inner_args_of Cfg b_tup)))
  /\ allocations m = closure_allocations (outer_stored_args b_tup)
  /\ (outer_stored_args b_tup = [] ->
      result_after_cleanup (make_inner_coro (inner_args_of Cfg b_tup)) = None).
Proof.
  intro H. apply run_closure_compiled in H as [Hnone Hlife].
  apply closure_refusal_none in Hnone as (_ & _ & Hnone & _).
  symmetry in Hlife.
  apply closure_life_returned in Hlife as [-> ->].
  repeat split. exact Hnone.
Qed.

(** C1. For every closure that is constructed and awaited, whatever its
    arguments: the stored arguments are constructed from the first to the
    last; the cleanup tasks run one after the other, the hooks of the argument
    constructed last first, in the exact reverse of the order of
    construction, and none runs twice; and no destructor of a stored argument
    runs before the last cleanup task is over. *)
Theorem cleanups_run_in_reverse_before_any_destructor
    (r : option (Try V)) (m : machine) :
  run_closure kIsDebug pack_order closure_min_arg_safety arg_safety Cfg make_inner_coro
    (arg_safeties, b_tup) h = inr (Normal r, m) ->
  constructed (trace m) = seq 0 (length (outer_stored_args b_tup))
  /\ cleaned_up (trace m)
     = reverse_of_construction (outer_stored_args b_tup) (constructed (trace m))
  /\ NoDup (cleaned_up (trace m))
  /\ cleanups_before_destructors (trace m) = true
  /\ destroyed (trace m) = rev (constructed (trace m)).
Proof.
  intro H. apply run_closure_returned in H as (_ & -> & _).
  rewrite closure_trace_constructed, closure_trace_cleaned_up,
    closure_trace_destroyed.
  split; [reflexivity|]. split; [apply scheduled_in_reverse|].
  split; [apply scheduled_NoDup|]. split; [|reflexivity].
  apply closure_trace_cleanups_before_destructors.
Qed.

Lemma token_failure_thrower (sas : list capture_arg) (e : exception) :
  token_failure sas = Some e ->
  exists a, In a sas /\ token_member a = Some (Some e).
Proof.
  induction sas as [|a sas IH]; simpl; [discriminate|].
  destruct (token_member a) as [[e'|]|] eqn:E.
  - intro H. inversion H; subst. exists a. split; [now left|assumption].
  - intro H. destruct (IH H) as (a' & Hin & Ha'). exists a'.
    split; [now right|assumption].
  - intro H. destruct (IH H) as (a' & Hin & Ha'). exists a'.
    split; [now right|assumption].
Qed.

Lemma thrower_token_failure (sas : list capture_arg) :
  (exists a e, In a sas /\ token_member a = Some (Some e)) ->
  exists e, token_failure sas = Some e.
Proof.
  intros (a & e & Hin & Ha). induction sas as [|a' sas IH]; [destruct Hin|].
  simpl. destruct Hin as [->|Hin].
  - rewrite Ha. eauto.
  - destruct (token_member a') as [[e'|]|]; eauto.
Qed.

(** C4. For every closure with an outer coroutine, which hands the
    cancellation token to its arguments: if handing it to some argument
    throws, the error thrown is caught into the first-error cell of the
    storage, where the cleanup tasks read it; the inner task is never
    awaited; and every cleanup task still runs, exactly once. *)
Theorem token_failure_skips_the_inner_task_not_the_cleanups
    (r : option (Try V)) (m : machine) :
  run_closure kIsDebug pack_order closure_min_arg_safety arg_safety Cfg make_inner_coro
    (arg_safeties, b_tup) h = inr (Normal r, m) ->
  (exists a e, In a (outer_stored_args b_tup)
               /\ token_member a = Some (Some e)) ->
  exists a e,
    In a (outer_stored_args b_tup) /\ token_member a = Some (Some e)
    /\ (forall (im : inner_coro V) (m0 : machine),
          fst (outer_coro_await_inner kIsDebug true im
                 (Build_async_closure_storage
                    (async_closure_default_inner_err kIsDebug)
                    (outer_stored_args b_tup)) m0)
          = Normal (NOTHING,
                    Build_async_closure_storage (Some e)
                      (outer_stored_args b_tup)))
    /\ seen_errors (trace m)
       = map (fun _ => Some e)
           (filter err (scheduled_cleanups (outer_stored_args b_tup)))
    /\ inner_awaited (trace m) = false
    /\ cleaned_up (trace m)
       = map name_of (scheduled_cleanups (outer_stored_args b_tup))
    /\ (forall t, In t (scheduled_cleanups (outer_stored_args b_tup)) ->
          count_occ name_eq_dec (cleaned_up (trace m)) (name_of t) = 1).
Proof.
  intros H Hthrower. apply run_closure_returned in H as (_ & -> & _).
  destruct (@thrower_token_failure _ Hthrower) as (e & He).
  destruct (@token_failure_thrower _ _ He) as (a & Hin & Ha).
  exists a, e. split; [assumption|]. split; [assumption|].
  split; [|split; [|split; [|split]]].
  - intros im m0. rewrite outer_coro_await_inner_run.
    unfold cell_before_inner. cbn [storage_tuple_ fst]. rewrite He. reflexivity.
  - rewrite closure_trace_seen_errors. unfold first_error. now rewrite He.
  - rewrite closure_trace_inner_awaited. now rewrite He.
  - apply closure_trace_cleaned_up.
  - intros t Ht. rewrite closure_trace_cleaned_up.
    apply NoDup_count_occ'; [apply scheduled_NoDup|].
    now apply in_map.
Qed.

(** C5. Every cleanup hook that takes the error reads, when it runs, the
    first error recorded by the closure.  If the inner task is awaited and
    fails with [E], each of these hooks reads [E], and the caller of the
    closure gets [E]; if it is awaited and returns, each of them reads no
    error, and the caller gets the value. *)
Theorem cleanup_hooks_see_the_first_error
    (r : option (Try V)) (m : machine) :
  run_closure kIsDebug pack_order closure_min_arg_safety arg_safety Cfg make_inner_coro
    (arg_safeties, b_tup) h = inr (Normal r, m) ->
  seen_errors (trace m)
  = map (fun _ => first_error true (outer_stored_args b_tup)
                    (result (make_inner_coro (inner_args_of Cfg b_tup))))
      (filter err (scheduled_cleanups (outer_stored_args b_tup)))
  /\ (inner_awaited (trace m) = true ->
      match result (make_inner_coro (inner_args_of Cfg b_tup)) with
      | throws E =>
          first_error true (outer_stored_args b_tup)
            (result (make_inner_coro (inner_args_of Cfg b_tup))) = Some E
          /\ r = Some (EXCEPTION (Some E))
      | returns v =>
          first_error true (outer_stored_args b_tup)
            (result (make_inner_coro (inner_args_of Cfg b_tup))) = None
          /\ r = Some (VALUE (async_closure_outer_coro_result
                                (make_inner_coro (inner_args_of Cfg b_tup)) v))
      end).
Proof.
  intro H. apply run_closure_returned in H as (-> & -> & _ & Hnone).
  split; [apply closure_trace_seen_errors|].
  rewrite closure_trace_inner_awaited. intro Hawaited.
  destruct (token_failure (outer_stored_args b_tup)) as [e|] eqn:He;
    [discriminate Hawaited|].
  unfold first_error, closure_outcome, awaited_outcome. rewrite He.
  destruct (outer_stored_args b_tup) as [|a l] eqn:Es.
  - unfold async_closure_outer_coro_result. rewrite (Hnone eq_refl).
    destruct (result (make_inner_coro (inner_args_of Cfg b_tup)));
      split; reflexivity.
  - destruct (result (make_inner_coro (inner_args_of Cfg b_tup)));
      split; reflexivity.
Qed.

End Claims.

(** [ctorCleanupDtorOrdering]: four [OrderTracker]s. *)
Lemma cleanups_run_in_reverse_before_any_destructor_witness :
  Tests.run Tests.closure_cfg (returns 7%Z) Tests.four_trackers plentiful
  = inr (Normal (Some (VALUE 7%Z)), Ends.four_trackers)
  /\ cleaned_up (trace Ends.four_trackers) = [(3, 0); (2, 0); (1, 0); (0, 0)]
  /\ cleanups_before_destructors (trace Ends.four_trackers) = true.
Proof.
  assert (H : Tests.run Tests.closure_cfg (returns 7%Z) Tests.four_trackers
                plentiful
              = inr (Normal (Some (VALUE 7%Z)), Ends.four_trackers))
    by (vm_compute; reflexivity).
  split; [exact H|].
  destruct (@cleanups_run_in_reverse_before_any_destructor
              true left_to_right Tests.min_arg_safety Tests.arg_safety Z Tests.closure_cfg
              (Tests.inner (returns 7%Z))
              (map (fun _ => SafeAlias.maybe_value) Tests.four_trackers)
              Tests.four_trackers plentiful _ _ H)
    as (_ & H2 & _ & H4 & _).
  split; [exact H2|exact H4].
Defined.

(** A closure whose second argument refuses the token. *)
Lemma token_failure_skips_the_inner_task_not_the_cleanups_witness :
  Tests.run Tests.closure_cfg (returns 7%Z) Tests.token_refused plentiful
  = inr (Normal (Some (EXCEPTION (Some UsingUninitializedTry))),
         Ends.token_refused)
  /\ inner_awaited (trace Ends.token_refused) = false
  /\ cleaned_up (trace Ends.token_refused) = [(1, 0); (0, 0)].
Proof.
  assert (H : Tests.run Tests.closure_cfg (returns 7%Z) Tests.token_refused
                plentiful
              = inr (Normal (Some (EXCEPTION (Some UsingUninitializedTry))),
                     Ends.token_refused))
    by (vm_compute; reflexivity).
  split; [exact H|].
  destruct (@token_failure_skips_the_inner_task_not_the_cleanups
              true left_to_right Tests.min_arg_safety Tests.arg_safety Z Tests.closure_cfg
              (Tests.inner (returns 7%Z))
              (map (fun _ => SafeAlias.maybe_value) Tests.token_refused)
              Tests.token_refused plentiful _ _ H)
    as (a & e & _ & _ & _ & _ & H5 & H6 & _).
  - exists (Tests.refuses_token 2 OperationCancelled), OperationCancelled.
    split; [simpl; tauto|reflexivity].
  - split; [exact H5|exact H6].
Defined.

(** [cleanupAfterError]: the inner task fails with [MagicError{111}]. *)
Lemma cleanup_hooks_see_the_first_error_witness :
  Tests.run Tests.closure_cfg (throws Tests.MagicError) Tests.one_cleanup
    plentiful
  = inr (Normal (Some (EXCEPTION (Some Tests.MagicError))),
         Ends.cleanup_after_error)
  /\ seen_errors (trace Ends.cleanup_after_error) = [Some Tests.MagicError]
  /\ first_error true (outer_stored_args Tests.one_cleanup)
       (@throws Z Tests.MagicError)
     = Some Tests.MagicError.
Proof.
  assert (H : Tests.run Tests.closure_cfg (throws Tests.MagicError)
                Tests.one_cleanup plentiful
              = inr (Normal (Some (EXCEPTION (Some Tests.MagicError))),
                     Ends.cleanup_after_error))
    by (vm_compute; reflexivity).
  split; [exact H|].
  destruct (@cleanup_hooks_see_the_first_error
              true left_to_right Tests.min_arg_safety Tests.arg_safety Z Tests.closure_cfg
              (Tests.inner (throws Tests.MagicError))
              (map (fun _ => SafeAlias.maybe_value) Tests.one_cleanup)
              Tests.one_cleanup plentiful _ _ H) as [Hseen Hinner].
  split; [exact Hseen|].
  exact (proj1 (Hinner eq_refl)).
Defined.

(* ===================================================================== *)
(** ** How the outer coroutine ends *)
(* ===================================================================== *)

(** Once all the cleanup tasks have run, the outer coroutine ends on the
    state of [res].  A [res] that holds a value is returned, through
    [result_after_cleanup] when the result has this member; a [res] that
    holds an exception raises the first error again, which the cell holds;
    a [res] that was never written raises [UsingUninitializedTry], unless
    the result is [void]: then [res.hasValue()] holds, and the coroutine
    returns. *)
Lemma outer_coro_completions :
  forall (kIsDebug : bool) (V : Type) (SetCancelTok : bool)
         (inner_mover : inner_coro V) (storage_ptr : async_closure_storage)
         (cleanups : list cleanup_task) (m : machine),
  exists (res : Try V) (s : async_closure_storage) (m1 m2 : machine),
    outer_coro_await_inner kIsDebug SetCancelTok inner_mover storage_ptr m
    = (Normal (res, s), m1)
    /\ async_closure_outer_coro kIsDebug SetCancelTok inner_mover storage_ptr
         cleanups m
       = (Normal (outer_coro_complete kIsDebug inner_mover res s), m2)
    /\ trace m2 = trace m1 ++ map (cleanup_event (inner_err_ s)) cleanups
    /\ match res with
       | VALUE v =>
           outer_coro_complete kIsDebug inner_mover res s
           = co_return (match result_after_cleanup inner_mover with
                        | Some f => f v
                        | None => v
                        end)
       | EXCEPTION _ =>
           exists e : exception,
             inner_err_ s = Some e
             /\ outer_coro_complete kIsDebug inner_mover res s
                = co_yield_co_error (Result.Build_co_error (Some e))
       | NOTHING =>
           (exists e : exception, inner_err_ s = Some e)
           /\ outer_coro_complete kIsDebug inner_mover res s
              = match is_void inner_mover with
                | Some unit_type => co_return (the_unit unit_type)
                | None =>
                    co_yield_co_error
                      (Result.Build_co_error (Some UsingUninitializedTry))
                end
       end.
Proof.
  intros kd V tok im s tasks m.
  eexists. eexists. eexists. eexists.
  split; [apply outer_coro_await_inner_run|].
  split; [apply async_closure_outer_coro_run|].
  split.
  - unfold logged. cbn [trace inner_err_ set_inner_err].
    rewrite <- !app_assoc. reflexivity.
  - unfold res_after_inner, cell_after_inner.
    destruct (cell_before_inner kd tok s) as [e|].
    + split; [exists e; reflexivity|].
      unfold outer_coro_complete.
      destruct (is_void im); [reflexivity|].
      now rewrite ResultFacts.co_error_of_exception.
    + destruct (result im) as [v|e].
      * unfold outer_coro_complete.
        destruct (is_void im) as [u|] eqn:E; [|reflexivity].
        now rewrite (void_outer_coro_result im v E).
      * exists e. split; [reflexivity|].
        unfold outer_coro_complete. cbn [inner_err_ set_inner_err].
        rewrite ResultFacts.co_error_of_wrapper.
        destruct (is_void im); reflexivity.
Qed.

(** The coroutine returns exactly when [res.hasValue()] holds. *)
Lemma outer_coro_returns_iff_hasValue (kIsDebug : bool) (V : Type)
    (inner_mover : inner_coro V) (res : Try V) (s : async_closure_storage) :
  (exists v, outer_coro_complete kIsDebug inner_mover res s = co_return v)
  <-> hasValue (is_void inner_mover) res = true.
Proof.
  unfold outer_coro_complete, hasValue.
  destruct res as [v|e|]; destruct (is_void inner_mover) as [u|];
    try (split; [reflexivity|eauto]).
  all: destruct (Result.co_error_ctor _ _);
    (split; [intros [v Hv]; discriminate Hv|discriminate]).
Qed.

(** C6.  Once all the cleanup tasks have run, the outer coroutine is to
    end on the state of [res]: a value is returned, or else the first error
    is raised again, or else, [res] never written, the fault
    [UsingUninitializedTry] is raised, and never a silent success.  The code
    does not do so for a closure that returns [void].  One stored argument
    throws [MagicError] when it is handed the cancellation token.  The error
    is caught and kept in the cell, the inner task is skipped, and [res] is
    never written; the cleanup task runs and reads the error.  Then the outer
    coroutine of a closure of [int] raises [UsingUninitializedTry]; but the
    one of a closure of [void] returns, and the caller of the closure gets a
    success: the error is lost.  This is so in both builds. *)
Theorem void_closure_swallows_a_token_failure :
  forall kIsDebug : bool,
    let refuser := Tests.refuses_token 1 Tests.MagicError in
    let storage_ptr :=
      Build_async_closure_storage (async_closure_default_inner_err kIsDebug)
        [refuser] in
    let cleanup := Build_cleanup_task 0 0 true in
    let heard := [ev_set_cancel_token 0;
                  ev_cleanup 0 0 (Some (Some Tests.MagicError))] in
    let life := [ev_construct 0; ev_make_inner; ev_make_cleanup 0 0;
                 ev_make_outer] ++ heard ++ [ev_destroy 0] in
    outer_coro_await_inner kIsDebug true (Tests.void_inner []) storage_ptr
      (boot plentiful)
    = (Normal (NOTHING, set_inner_err storage_ptr (Some Tests.MagicError)),
       Build_machine plentiful 0 [ev_set_cancel_token 0])
    /\ async_closure_outer_coro kIsDebug true (Tests.void_inner []) storage_ptr
         [cleanup] (boot plentiful)
       = (Normal (co_return tt), Build_machine plentiful 0 heard)
    /\ (exists m : machine,
          async_closure_outer_coro kIsDebug true
            (Tests.inner (returns 7%Z) []) storage_ptr [cleanup]
            (boot plentiful)
          = (Normal (co_yield_co_error
                       (Result.Build_co_error (Some UsingUninitializedTry))),
             m)
          /\ trace m = heard)
    /\ (exists m : machine,
          run_closure kIsDebug left_to_right Tests.min_arg_safety
            Tests.arg_safety Tests.closure_cfg Tests.void_inner
            ([SafeAlias.maybe_value], [async_closure_outer_stored_arg refuser])
            plentiful
          = inr (Normal (Some (VALUE tt)), m)
          /\ trace m = life)
    /\ (exists m : machine,
          run_closure kIsDebug left_to_right Tests.min_arg_safety
            Tests.arg_safety Tests.closure_cfg (Tests.inner (returns 7%Z))
            ([SafeAlias.maybe_value], [async_closure_outer_stored_arg refuser])
            plentiful
          = inr (Normal (Some (EXCEPTION (Some UsingUninitializedTry))), m)
          /\ trace m = life).
Proof.
  intros kIsDebug refuser storage_ptr cleanup heard life.
  destruct kIsDebug.
  all: split; [vm_compute; reflexivity|].
  all: split; [vm_compute; reflexivity|].
  all: split; [eexists; split; vm_compute; reflexivity|].
  all: split; eexists; split; vm_compute; reflexivity.
Qed.

(* ===================================================================== *)
(** ** The errors a closure hands out *)
(* ===================================================================== *)

Module ResultClaims.

Import Result.
Import ResultFacts.




End ResultClaims.

(* ===================================================================== *)
(** ** Allocation failures *)
(* ===================================================================== *)

(** What is seen of a construction that failed once the storage was filled:
    the frames that were made, then the unwinding. *)
Lemma failed_construction_observed (o : evaluation_order)
    (sas : list capture_arg) (hq rest : list event) :
  events_of (coros_script o sas) = hq ++ rest ->
  let tr := map ev_construct (seq 0 (length sas)) ++ hq ++ unwinding sas in
  constructed tr = seq 0 (length sas)
  /\ destroyed tr = rev (seq 0 (length sas))
  /\ cleaned_up tr = []
  /\ inner_awaited tr = false.
Proof.
  intros Hq tr. subst tr.
  assert (Hc : constructed hq = []).
  { apply collect_prefix with (b := rest). rewrite <- Hq.
    apply coros_events_collect; intros; reflexivity. }
  assert (Hd : destroyed hq = []).
  { apply collect_prefix with (b := rest). rewrite <- Hq.
    apply coros_events_collect; intros; reflexivity. }
  assert (Hu : cleaned_up hq = []).
  { apply collect_prefix with (b := rest). rewrite <- Hq.
    apply coros_events_collect; intros; reflexivity. }
  assert (Ha : existsb is_await_inner hq = false).
  { apply existsb_prefix with (b := rest). rewrite <- Hq.
    apply coros_events_existsb; intros; reflexivity. }
  unfold constructed, destroyed, cleaned_up, inner_awaited, unwinding in *.
  rewrite !collect_app, !existsb_app, Hc, Hd, Hu, Ha.
  repeat first
    [ rewrite collect_map_none by (intro; reflexivity)
    | rewrite existsb_map_false by (intro; reflexivity)
    | rewrite (collect_map_some _ _ (fun i : nat => i))
        by (intro; reflexivity) ].
  rewrite !map_id, !app_nil_r. cbn [app]. repeat split.
Qed.

Section AllocationFailure.

Variable kIsDebug : bool.
Variable pack_order : evaluation_order.
Variable closure_min_arg_safety : safe_alias.
Variable arg_safety : task_type -> safe_alias.
Variable V : Type.

Variable Cfg : async_closure_config.
Variable make_inner_coro : list inner_coro_arg -> inner_coro V.
Variable arg_safeties : list safe_alias.
Variable b_tup : list binding.
Variable h : nat -> bool.


End AllocationFailure.



(* ===================================================================== *)
(** ** The storage is there when it is needed, and only then *)
(* ===================================================================== *)








(* ===================================================================== *)
(** ** The safety gate *)
(* ===================================================================== *)

Section Gate.

Variable kIsDebug : bool.
Variable pack_order : evaluation_order.
Variable closure_min_arg_safety : safe_alias.
Variable arg_safety : task_type -> safe_alias.
Variable V : Type.







End Gate.


(* ===================================================================== *)
(** ** [cumsum_except_last] and the slots of the storage *)
(* ===================================================================== *)

Section CumsumAppend.

Variable T : Type.
Variable add : T -> T -> T.

(** X3. [cumsum_except_last] on a pack made of two packs: the sums of the
    first pack, then the sums of the second pack started from the sum of the
    whole first pack. *)
Theorem cumsum_except_last_app (Sum : T) (vs ws : list T) :
  cumsum_except_last add Sum (vs ++ ws)
  = cumsum_except_last add Sum vs
    ++ cumsum_except_last add (sum_from add Sum vs) ws.
Proof.
  revert Sum. induction vs as [|v vs IH]; intro Sum; [reflexivity|].
  cbn [app cumsum_except_last]. rewrite IH. reflexivity.
Qed.

End CumsumAppend.

Lemma storage_indices_from (k : nat) (b_tup : list binding) :
  map snd
    (filter (fun p => is_outer_stored (fst p))
       (combine b_tup
          (cumsum_except_last Nat.add k
             (map (fun b => if is_outer_stored b then 1 else 0) b_tup))))
  = seq k (length (outer_stored_args b_tup)).
Proof.
  revert k. induction b_tup as [|b b_tup IH]; intro k; [reflexivity|].
  cbn [map cumsum_except_last combine filter fst].
  unfold outer_stored_args in *. cbn [map concat].
  rewrite length_app.
  destruct b; cbn [is_outer_stored map snd length Nat.add seq]; rewrite IH;
    [now rewrite Nat.add_1_r|now rewrite Nat.add_0_r ..].
Qed.

(** X4. The storage indices [StorageIs] that [bind_captures_to_closure]
    computes give the bindings stored on the outer coroutine the slots
    [0, 1, 2, ...] of the storage, in the order of the bindings: every slot
    is given, and no slot is given twice.  The index computed for a binding
    that is not stored on the outer coroutine is never read. *)
Theorem storage_indices_enumerate_the_slots :
  forall b_tup : list binding,
    map snd
      (filter (fun p => is_outer_stored (fst p))
         (combine b_tup (StorageIs_of b_tup)))
    = seq 0 (length (outer_stored_args b_tup))
    /\ (forall (bs : binding) (i j : nat) (p : list capture_arg),
          is_outer_stored bs = false ->
          async_closure_bind_inner_coro_arg i bs p
          = async_closure_bind_inner_coro_arg j bs p).
Proof.
  intro b_tup. split; [apply storage_indices_from|].
  intros bs i j p H. destruct bs; try reflexivity. discriminate H.
Qed.

(** [inPlaceArgs], with the capture stored on the outer coroutine. *)
Lemma storage_indices_enumerate_the_slots_witness :
  async_closure_bind_inner_coro_arg 0 (async_closure_regular_arg 30) []
  = async_closure_bind_inner_coro_arg 1 (async_closure_regular_arg 30) [].
Proof.
  apply (proj2 (storage_indices_enumerate_the_slots Tests.in_place_args_outer)).
  reflexivity.
Defined.

(* ===================================================================== *)
(** ** The hand-over of the cancellation token *)
(* ===================================================================== *)

Lemma tokens_given_cons (i : nat) (evs : list event) :
  tokens_given (ev_set_cancel_token i :: evs) = i :: tokens_given evs.
Proof. reflexivity. Qed.

(** The arguments handed the token are the first of those that take it, up
    to the first one that throws. *)
Lemma tokens_given_prefix (sas : list capture_arg) (k : nat) :
  exists rest,
    token_receivers_from k sas = tokens_given (token_events k sas) ++ rest
    /\ (token_failure sas = None -> rest = [])
    /\ (forall e, token_failure sas = Some e ->
          exists pre i a,
            tokens_given (token_events k sas) = pre ++ [k + i]
            /\ nth_error sas i = Some a
            /\ token_member a = Some (Some e)).
Proof.
  revert k. induction sas as [|a sas IH]; intro k.
  - exists []. repeat split. intros e H. discriminate H.
  - destruct (IH (S k)) as (rest & Hrest & Hnone & Hsome).
    unfold token_receivers_from in *.
    cbn [length seq combine filter snd token_events token_failure].
    unfold takes_token at 1.
    destruct (token_member a) as [[e|]|] eqn:E; cbn [map fst].
    + eexists. split; [rewrite tokens_given_cons; reflexivity|].
      split; [discriminate|].
      intros e' H. inversion H; subst. exists [], 0, a.
      rewrite Nat.add_0_r. repeat split. exact E.
    + exists rest. rewrite tokens_given_cons, Hrest.
      split; [reflexivity|]. split; [assumption|].
      intros e H. destruct (Hsome e H) as (pre & i & a' & Hpre & Hnth & Ha').
      exists (k :: pre), (S i), a'. rewrite Hpre.
      rewrite Nat.add_succ_r. repeat split; assumption.
    + exists rest. rewrite Hrest.
      split; [reflexivity|]. split; [assumption|].
      intros e H. destruct (Hsome e H) as (pre & i & a' & Hpre & Hnth & Ha').
      exists pre, (S i), a'. rewrite Hpre.
      rewrite Nat.add_succ_r. repeat split; assumption.
Qed.

Lemma closure_trace_tokens_given {V} (o : evaluation_order)
    (sas : list capture_arg) (r : task_result V) :
  tokens_given (closure_trace o sas r) = tokens_given (token_events 0 sas).
Proof.
  unfold closure_trace, tokens_given. destruct sas as [|a l]; [reflexivity|].
  cbv zeta. rewrite !collect_app.
  rewrite !collect_map_none by (intro; reflexivity).
  rewrite collect_inner_events by reflexivity.
  cbn [collect flat_map app]. now rewrite app_nil_r.
Qed.

Lemma closure_trace_tokens_first {V} (o : evaluation_order)
    (sas : list capture_arg) (r : task_result V) (p : event -> bool) :
  (forall i, p (ev_construct i) = false) ->
  p ev_make_inner = false ->
  (forall i k, p (ev_make_cleanup i k) = false) ->
  p ev_make_outer = false ->
  (forall i, p (ev_set_cancel_token i) = false) ->
  never_after p is_set_cancel_token (closure_trace o sas r) = true.
Proof.
  intros Hc Hi Hm Ho Ht. unfold closure_trace.
  destruct sas as [|a l]; [now cbn; rewrite Hi; destruct (p ev_await_inner)|].
  cbv zeta.
  set (pre := map ev_construct (seq 0 (length (a :: l)))).
  set (tasks := scheduled_cleanups (a :: l)).
  set (made := created_cleanups o (a :: l)).
  set (post := inner_events (token_failure (a :: l))
               ++ map (cleanup_event (first_error true (a :: l) r)) tasks
               ++ map ev_destroy (rev (seq 0 (length (a :: l))))).
  replace (pre ++ [ev_make_inner] ++ map make_event made ++ [ev_make_outer]
           ++ token_events 0 (a :: l) ++ post)
    with ((pre ++ [ev_make_inner] ++ map make_event made ++ [ev_make_outer]
           ++ token_events 0 (a :: l)) ++ post)
    by (now rewrite <- !app_assoc).
  rewrite never_after_app.
  assert (Hpost : existsb is_set_cancel_token post = false).
  { unfold post, inner_events. rewrite !existsb_app.
    rewrite !existsb_map_false by (intro; reflexivity).
    destruct (has_exception_ptr _); reflexivity. }
  rewrite (never_after_without p is_set_cancel_token post Hpost), Hpost.
  rewrite andb_true_r, orb_true_r, andb_true_r.
  apply never_after_none.
  unfold pre. rewrite !existsb_app.
  rewrite (existsb_map_false p ev_construct) by assumption.
  rewrite (existsb_map_false p make_event) by (intro; apply Hm).
  rewrite existsb_tokens by assumption.
  cbn. now rewrite Hi, Ho.
Qed.

Section Token.

Variable kIsDebug : bool.
Variable pack_order : evaluation_order.
Variable closure_min_arg_safety : safe_alias.
Variable arg_safety : task_type -> safe_alias.
Variable V : Type.
Variable Cfg : async_closure_config.
Variable make_inner_coro : list inner_coro_arg -> inner_coro V.
Variable arg_safeties : list safe_alias.
Variable b_tup : list binding.
Variable h : nat -> bool.

(** X5. In every closure that is constructed and awaited, the cancellation
    token is handed to the stored arguments that have a member for it, in
    the order of the storage, each at most once, and before the inner task
    is awaited and before any cleanup task runs.  When no member throws,
    every such argument is handed the token; when one throws, it is the last
    one to be handed the token: the arguments stored after it never get it. *)
Theorem token_is_handed_over_in_storage_order_up_to_the_first_failure
    (r : option (Try V)) (m : machine) :
  run_closure kIsDebug pack_order closure_min_arg_safety arg_safety Cfg make_inner_coro
    (arg_safeties, b_tup) h = inr (Normal r, m) ->
  (exists rest,
      token_receivers (outer_stored_args b_tup) = tokens_given (trace m) ++ rest
      /\ (token_failure (outer_stored_args b_tup) = None -> rest = [])
      /\ (forall e, token_failure (outer_stored_args b_tup) = Some e ->
            exists pre i a,
              tokens_given (trace m) = pre ++ [i]
              /\ nth_error (outer_stored_args b_tup) i = Some a
              /\ token_member a = Some (Some e)))
  /\ NoDup (tokens_given (trace m))
  /\ never_after is_await_inner is_set_cancel_token (trace m) = true
  /\ never_after is_cleanup is_set_cancel_token (trace m) = true.
Proof.
  intro H. apply run_closure_returned in H as (_ & -> & _).
  rewrite closure_trace_tokens_given.
  destruct (tokens_given_prefix (outer_stored_args b_tup) 0)
    as (rest & Hrest & Hnone & Hsome).
  split; [|split; [|split]].
  - exists rest. split; [exact Hrest|]. split; [exact Hnone|exact Hsome].
  - assert (Hnd : NoDup (token_receivers_from 0 (outer_stored_args b_tup))).
    { unfold token_receivers_from.
      set (l := combine _ _).
      assert (Hl : NoDup (map fst l))
        by (unfold l; rewrite map_fst_combine_seq; apply seq_NoDup).
      clearbody l. induction l as [|x l IH]; [constructor|].
      cbn [map] in Hl. inversion Hl as [|? ? Hnotin Hl']; subst.
      cbn [filter]. destruct (takes_token (snd x)); [|now apply IH].
      cbn [map]. constructor; [|now apply IH].
      intro Hin. apply Hnotin. apply in_map_iff in Hin as (y & Hy & Hin).
      apply filter_In in Hin as [Hin _]. rewrite <- Hy. now apply in_map. }
    rewrite Hrest in Hnd. now apply NoDup_app_remove_r in Hnd.
  - now apply closure_trace_tokens_first.
  - now apply closure_trace_tokens_first.
Qed.

(** X6. When handing the token to some stored argument throws, the caller
    of the closure never gets what the member has thrown, which goes to the
    cleanup hooks only.  The caller of a closure of [void] gets a success;
    the caller of any other closure gets the error [UsingUninitializedTry];
    and this whatever the member has thrown and however the inner coroutine
    would have ended. *)
Theorem token_failure_never_reaches_the_caller
    (r : option (Try V)) (m : machine) :
  run_closure kIsDebug pack_order closure_min_arg_safety arg_safety Cfg
    make_inner_coro (arg_safeties, b_tup) h = inr (Normal r, m) ->
  (exists a e, In a (outer_stored_args b_tup)
               /\ token_member a = Some (Some e)) ->
  r = Some (match is_void (make_inner_coro (inner_args_of Cfg b_tup)) with
            | Some unit_type => VALUE (the_unit unit_type)
            | None => EXCEPTION (Some UsingUninitializedTry)
            end).
Proof.
  intros H Hthrower. apply run_closure_returned in H as (-> & _).
  destruct (@thrower_token_failure _ Hthrower) as (e & He).
  unfold closure_outcome, awaited_outcome. rewrite He.
  destruct (outer_stored_args b_tup); [discriminate He|reflexivity].
Qed.

End Token.

(** A closure whose second argument refuses the token. *)
Lemma token_is_handed_over_in_storage_order_up_to_the_first_failure_witness :
  tokens_given (trace Ends.token_refused) = [1]
  /\ never_after is_await_inner is_set_cancel_token (trace Ends.token_refused)
     = true.
Proof.
  assert (H : Tests.run Tests.closure_cfg (returns 7%Z) Tests.token_refused
                plentiful
              = inr (Normal (Some (EXCEPTION (Some UsingUninitializedTry))),
                     Ends.token_refused))
    by (vm_compute; reflexivity).
  destruct (@token_is_handed_over_in_storage_order_up_to_the_first_failure
              true left_to_right Tests.min_arg_safety Tests.arg_safety Z Tests.closure_cfg
              (Tests.inner (returns 7%Z))
              (map (fun _ => SafeAlias.maybe_value) Tests.token_refused)
              Tests.token_refused plentiful _ _ H) as (_ & _ & Hbefore & _).
  split; [reflexivity|exact Hbefore].
Defined.

(** The same closure, of [int] and of [void]. *)
Lemma token_failure_never_reaches_the_caller_witness :
  match Tests.run Tests.closure_cfg (returns 7%Z) Tests.token_refused plentiful
  with
  | inr (Normal r, _) => r = Some (EXCEPTION (Some UsingUninitializedTry))
  | _ => False
  end
  /\ match run_closure true left_to_right Tests.min_arg_safety
             Tests.arg_safety Tests.closure_cfg Tests.void_inner
             (map (fun _ => SafeAlias.maybe_value) Tests.token_refused,
              Tests.token_refused) plentiful
     with
     | inr (Normal r, _) => r = Some (VALUE tt)
     | _ => False
     end.
Proof.
  split.
  - destruct (Tests.run Tests.closure_cfg (returns 7%Z) Tests.token_refused
                plentiful) as [f|[[r|e] m]] eqn:H.
    + vm_compute in H. discriminate H.
    + apply (@token_failure_never_reaches_the_caller
               true left_to_right Tests.min_arg_safety Tests.arg_safety Z
               Tests.closure_cfg (Tests.inner (returns 7%Z))
               (map (fun _ => SafeAlias.maybe_value) Tests.token_refused)
               Tests.token_refused plentiful r m H).
      exists (Tests.refuses_token 2 OperationCancelled), OperationCancelled.
      split; [right; left; reflexivity|reflexivity].
    + vm_compute in H. discriminate H.
  - destruct (run_closure true left_to_right Tests.min_arg_safety
                Tests.arg_safety Tests.closure_cfg Tests.void_inner
                (map (fun _ => SafeAlias.maybe_value) Tests.token_refused,
                 Tests.token_refused) plentiful) as [f|[[r|e] m]] eqn:H.
    + vm_compute in H. discriminate H.
    + apply (@token_failure_never_reaches_the_caller
               true left_to_right Tests.min_arg_safety Tests.arg_safety unit
               Tests.closure_cfg Tests.void_inner
               (map (fun _ => SafeAlias.maybe_value) Tests.token_refused)
               Tests.token_refused plentiful r m H).
      exists (Tests.refuses_token 2 OperationCancelled), OperationCancelled.
      split; [right; left; reflexivity|reflexivity].
    + vm_compute in H. discriminate H.
Defined.

(* ===================================================================== *)
(** ** What the heap decides *)
(* ===================================================================== *)




(* ===================================================================== *)
(** ** The stored arguments, from their construction to their destruction *)
(* ===================================================================== *)



Section Unwinding.

Variable kIsDebug : bool.
Variable pack_order : evaluation_order.
Variable closure_min_arg_safety : safe_alias.
Variable arg_safety : task_type -> safe_alias.
Variable V : Type.
Variable Cfg : async_closure_config.
Variable make_inner_coro : list inner_coro_arg -> inner_coro V.
Variable arg_safeties : list safe_alias.
Variable b_tup : list binding.
Variable h : nat -> bool.


End Unwinding.


(* ===================================================================== *)
(** ** What does not change a run *)
(* ===================================================================== *)

(** X10. [async_now_closure] runs a closure as [async_closure] does:
    whenever a call of [async_closure] compiles, the call of
    [async_now_closure] with the same inner coroutine and the same bindings
    compiles as well, whatever safety its arguments are measured at, and the
    two runs end alike and leave the same events and the same requests. *)
Theorem async_now_closure_runs_as_async_closure :
  forall (kIsDebug : bool) (pack_order : evaluation_order)
         (closure_min_arg_safety : safe_alias)
         (arg_safety : task_type -> safe_alias) (V : Type)
         (invoke_member : bool)
         (make_inner_coro : list inner_coro_arg -> inner_coro V)
         (arg_safeties arg_safeties' : list safe_alias) (b_tup : list binding)
         (h : nat -> bool) (x : outcome (option (Try V)) * machine),
    run_closure kIsDebug pack_order closure_min_arg_safety arg_safety
      (Build_async_closure_config false invoke_member) make_inner_coro
      (arg_safeties, b_tup) h = inr x ->
    run_closure kIsDebug pack_order closure_min_arg_safety arg_safety
      (Build_async_closure_config true invoke_member) make_inner_coro
      (arg_safeties', b_tup) h = inr x.
Proof.
  intros kd o cmin asf V inv mk sf sf' b_tup h x H.
  apply run_closure_compiled in H as [Hnone ->].
  apply closure_refusal_none in Hnone as (Hb & Hm & Hafter & Hclean & _).
  rewrite run_closure_life.
  change (inner_args_of (Build_async_closure_config true inv) b_tup)
    with (inner_args_of (Build_async_closure_config false inv) b_tup).
  replace (closure_refusal cmin asf (Build_async_closure_config true inv)
             (mk (inner_args_of (Build_async_closure_config false inv) b_tup))
             sf' b_tup) with (@None static_assert_failure); [reflexivity|].
  symmetry. apply closure_refusal_none.
  split; [exact Hb|]. split; [exact Hm|]. split; [exact Hafter|].
  split; [exact Hclean|]. intro H. discriminate H.
Qed.

(** [ctorCleanupDtorOrdering], through [async_now_closure]. *)
Lemma async_now_closure_runs_as_async_closure_witness :
  run_closure true left_to_right Tests.min_arg_safety Tests.arg_safety
    Tests.now_closure_cfg
    (Tests.inner (returns 7%Z)) ([SafeAlias.unsafe], Tests.four_trackers)
    plentiful
  = inr (Normal (Some (VALUE 7%Z)), Ends.four_trackers).
Proof.
  assert (H : Tests.run Tests.closure_cfg (returns 7%Z) Tests.four_trackers
                plentiful
              = inr (Normal (Some (VALUE 7%Z)), Ends.four_trackers))
    by (vm_compute; reflexivity).
  exact (@async_now_closure_runs_as_async_closure
           true left_to_right Tests.min_arg_safety Tests.arg_safety Z false
           (Tests.inner (returns 7%Z))
           (map (fun _ => SafeAlias.maybe_value) Tests.four_trackers)
           [SafeAlias.unsafe] Tests.four_trackers plentiful _ H).
Defined.

(* ===================================================================== *)
(** ** The phases of the life of a closure *)
(* ===================================================================== *)

Lemma in_phase_order_app (a b : list event) :
  in_phase_order a = true -> in_phase_order b = true ->
  (forall x y, In x a -> In y b -> phase x <= phase y) ->
  in_phase_order (a ++ b) = true.
Proof.
  intros Ha Hb Hab. induction a as [|x a IH]; [exact Hb|].
  cbn [app in_phase_order] in *. apply andb_true_iff in Ha as [Hx Ha].
  rewrite forallb_app, Hx, IH; [|assumption|].
  - cbn [andb]. rewrite andb_true_r. apply forallb_forall. intros y Hy.
    apply Nat.leb_le. apply Hab; [now left|assumption].
  - intros x' y Hx' Hy. apply Hab; [now right|assumption].
Qed.

Lemma in_phase_order_prefix (a b : list event) :
  in_phase_order (a ++ b) = true -> in_phase_order a = true.
Proof.
  induction a as [|x a IH]; [reflexivity|].
  cbn [app in_phase_order]. rewrite forallb_app.
  intro H. apply andb_true_iff in H as [H1 H2].
  apply andb_true_iff in H1 as [H1 _]. now rewrite H1, IH.
Qed.

(** Events of one phase before later events. *)
Lemma phase_block (k k' : nat) (a rest : list event) :
  (forall x, In x a -> phase x = k) ->
  k <= k' ->
  in_phase_order rest = true /\ (forall y, In y rest -> k' <= phase y) ->
  in_phase_order (a ++ rest) = true
  /\ (forall y, In y (a ++ rest) -> k <= phase y).
Proof.
  intros Ha Hk [Hrest Hlow]. split.
  - apply in_phase_order_app; [|assumption|].
    + clear Hrest Hlow. induction a as [|x a IH]; [reflexivity|].
      cbn [in_phase_order]. rewrite IH by (intros; apply Ha; now right).
      rewrite andb_true_r. apply forallb_forall. intros y Hy.
      apply Nat.leb_le. rewrite (Ha x), (Ha y); [lia|now right|now left].
    + intros x y Hx Hy. rewrite (Ha x Hx). specialize (Hlow y Hy). lia.
  - intros y Hy. apply in_app_iff in Hy as [Hy|Hy].
    + rewrite (Ha y Hy). lia.
    + specialize (Hlow y Hy). lia.
Qed.

Lemma phase_end (k : nat) :
  in_phase_order [] = true /\ (forall y, In y [] -> k <= phase y).
Proof. split; [reflexivity|intros y []]. Qed.

Lemma phase_of_map {A} (g : A -> event) (k : nat) (l : list A) :
  (forall i, phase (g i) = k) -> forall x, In x (map g l) -> phase x = k.
Proof. intros H x Hx. apply in_map_iff in Hx as (i & <- & _). apply H. Qed.

Lemma phase_of_tokens (k : nat) (sas : list capture_arg) :
  forall x, In x (token_events k sas) -> phase x = 4.
Proof.
  intros x Hx. apply token_events_are_tokens in Hx.
  destruct x; try discriminate Hx. reflexivity.
Qed.

Lemma phase_of_inner_events (cell : exception_wrapper) :
  forall x, In x (inner_events cell) -> phase x = 5.
Proof.
  unfold inner_events. destruct (has_exception_ptr cell); intros x Hx;
    [destruct Hx|]. destruct Hx as [<-|[]]. reflexivity.
Qed.

Lemma phase_of_one (ev : event) : forall x, In x [ev] -> phase x = phase ev.
Proof. intros x [<-|[]]. reflexivity. Qed.

Lemma destructors_phased (l : list nat) :
  in_phase_order (map ev_destroy l) = true
  /\ (forall y, In y (map ev_destroy l) -> 7 <= phase y).
Proof.
  rewrite <- (app_nil_r (map ev_destroy l)).
  apply phase_block with (k' := 7); [|lia|apply phase_end].
  apply phase_of_map. reflexivity.
Qed.

Lemma coros_events_phased (o : evaluation_order) (sas : list capture_arg) :
  in_phase_order (events_of (coros_script o sas)) = true
  /\ (forall y, In y (events_of (coros_script o sas)) ->
        1 <= phase y /\ phase y <= 3).
Proof.
  rewrite events_of_coros_script.
  change (ev_make_inner :: ?l) with ([ev_make_inner] ++ l). split.
  - apply (phase_block (k := 1) (k' := 2));
      [apply phase_of_one|lia|].
    destruct sas as [|a l]; [apply phase_end|].
    apply phase_block with (k' := 3);
      [apply phase_of_map; reflexivity|lia|].
    rewrite <- (app_nil_r [ev_make_outer]).
    apply phase_block with (k' := 3); [apply phase_of_one|lia|apply phase_end].
  - intros y Hy. apply in_app_iff in Hy as [[<-|[]]|Hy]; [cbn; lia|].
    destruct sas as [|a l]; [destruct Hy|].
    apply in_app_iff in Hy as [Hy|[<-|[]]]; [|cbn; lia].
    apply in_map_iff in Hy as (t & <- & _). cbn. lia.
Qed.

Lemma closure_trace_in_phase_order {V} (o : evaluation_order)
    (sas : list capture_arg) (r : task_result V) :
  in_phase_order (closure_trace o sas r) = true.
Proof.
  unfold closure_trace. destruct sas as [|a l]; [reflexivity|]. cbv zeta.
  apply (phase_block (k := 0) (k' := 1));
    [apply phase_of_map; reflexivity|lia|].
  apply (phase_block (k := 1) (k' := 2)); [apply phase_of_one|lia|].
  apply (phase_block (k := 2) (k' := 3));
    [apply phase_of_map; reflexivity|lia|].
  apply (phase_block (k := 3) (k' := 4)); [apply phase_of_one|lia|].
  apply (phase_block (k := 4) (k' := 5)); [apply phase_of_tokens|lia|].
  apply (phase_block (k := 5) (k' := 6)); [apply phase_of_inner_events|lia|].
  apply (phase_block (k := 6) (k' := 7));
    [apply phase_of_map; reflexivity|lia|].
  apply destructors_phased.
Qed.

Lemma filter_map_none {A} (p : event -> bool) (g : A -> event) (l : list A) :
  (forall i, p (g i) = false) -> filter p (map g l) = [].
Proof.
  intro H. induction l as [|i l IH]; [reflexivity|].
  cbn [map filter]. now rewrite H.
Qed.

Lemma filter_tokens_none (p : event -> bool) (k : nat) (sas : list capture_arg) :
  (forall i, p (ev_set_cancel_token i) = false) ->
  filter p (token_events k sas) = [].
Proof.
  intro H. revert k. induction sas as [|a sas IH]; intro k; [reflexivity|].
  cbn [token_events]. destruct (token_member a) as [[e|]|];
    cbn [filter]; rewrite ?H; auto.
Qed.

Lemma filter_none {A} (p : A -> bool) (l : list A) :
  (forall y, In y l -> p y = false) -> filter p l = [].
Proof.
  intro H. induction l as [|y l IH]; [reflexivity|].
  cbn [filter]. rewrite (H y) by now left.
  apply IH. intros; apply H; now right.
Qed.

Lemma closure_trace_one_inner_coro {V} (o : evaluation_order)
    (sas : list capture_arg) (r : task_result V) :
  length (filter (fun ev => phase ev =? 1) (closure_trace o sas r)) = 1.
Proof.
  unfold closure_trace. destruct sas as [|a l]; [reflexivity|].
  cbv zeta. rewrite !filter_app.
  rewrite !filter_map_none by (intro; reflexivity).
  rewrite filter_tokens_none by (intro; reflexivity).
  unfold inner_events. destruct (has_exception_ptr _); reflexivity.
Qed.

Lemma closure_trace_one_await {V} (o : evaluation_order)
    (sas : list capture_arg) (r : task_result V) :
  length (filter is_await_inner (closure_trace o sas r)) <= 1.
Proof.
  unfold closure_trace. destruct sas as [|a l]; [cbn; lia|].
  cbv zeta. rewrite !filter_app.
  rewrite !filter_map_none by (intro; reflexivity).
  rewrite filter_tokens_none by (intro; reflexivity).
  unfold inner_events. destruct (has_exception_ptr _); cbn; lia.
Qed.

Section Phases.

Variable kIsDebug : bool.
Variable pack_order : evaluation_order.
Variable closure_min_arg_safety : safe_alias.
Variable arg_safety : task_type -> safe_alias.
Variable V : Type.
Variable Cfg : async_closure_config.
Variable make_inner_coro : list inner_coro_arg -> inner_coro V.
Variable arg_safeties : list safe_alias.
Variable b_tup : list binding.
Variable h : nat -> bool.

(** X11. Every run of a closure goes through the phases of its life in
    order, and never back: the stored arguments are constructed; then
    [make_inner_coro] is called, once, and when it is called the stored
    arguments are all constructed; then the cleanup tasks are created; then
    the outer coroutine; then the token is handed over; then the inner task
    is awaited, at most once; then the cleanup tasks run; then the stored
    arguments are destroyed.  A construction that fails stops on the way and
    goes to the destructors: the token is handed to no argument, the inner
    task is not awaited and no cleanup task runs. *)
Theorem closure_goes_through_its_phases_in_order
    (out : outcome (option (Try V))) (m : machine) :
  run_closure kIsDebug pack_order closure_min_arg_safety arg_safety Cfg
    make_inner_coro (arg_safeties, b_tup) h = inr (out, m) ->
  in_phase_order (trace m) = true
  /\ length (filter (fun ev => phase ev =? 1) (trace m)) <= 1
  /\ length (filter is_await_inner (trace m)) <= 1
  /\ ((exists r, out = Normal r) ->
      length (filter (fun ev => phase ev =? 1) (trace m)) = 1)
  /\ (In ev_make_inner (trace m) ->
      constructed (trace m) = seq 0 (length (outer_stored_args b_tup)))
  /\ (forall e, out = Thrown e ->
        forall ev, In ev (trace m) -> phase ev <= 3 \/ phase ev = 7).
Proof.
  intro H. apply run_closure_compiled in H as [_ Hlife].
  set (sas := outer_stored_args b_tup) in *.
  set (raw := make_inner_coro (inner_args_of Cfg b_tup)) in *.
  destruct (closure_life_cases pack_order sas raw h)
    as [(_ & _ & Hrun)
       |(j & hq & rest & _ & _ & _ & Hq & [[_ Hrun]|[_ Hrun]])];
    rewrite Hrun in Hlife; apply pair_equal_spec in Hlife as [-> ->];
    cbn [trace].
  - split; [apply closure_trace_in_phase_order|].
    rewrite closure_trace_one_inner_coro.
    split; [lia|]. split; [apply closure_trace_one_await|].
    split; [reflexivity|].
    split; [intros _; apply closure_trace_constructed|].
    intros e He. discriminate He.
  - split; [reflexivity|]. split; [cbn; lia|]. split; [cbn; lia|].
    split; [intros [r Hr]; discriminate Hr|].
    split; [intros []|]. intros e _ ev [].
  - destruct (coros_events_phased pack_order sas) as [Hord Hbounds].
    rewrite Hq in Hord, Hbounds.
    assert (Hhq : forall y, In y hq -> 1 <= phase y /\ phase y <= 3).
    { intros y Hy. apply Hbounds. apply in_app_iff. now left. }
    split; [|split; [|split; [|split; [|split]]]].
    + apply (phase_block (k := 0) (k' := 1));
        [apply phase_of_map; reflexivity|lia|].
      split.
      * apply in_phase_order_app.
        -- now apply in_phase_order_prefix with (b := rest).
        -- apply destructors_phased.
        -- intros x y Hx Hy. apply Hhq in Hx.
           apply (proj2 (destructors_phased _)) in Hy. lia.
      * intros y Hy. apply in_app_iff in Hy as [Hy|Hy].
        -- now apply Hhq.
        -- apply (proj2 (destructors_phased _)) in Hy. lia.
    + rewrite !filter_app, !length_app. unfold unwinding.
      rewrite !filter_map_none by (intro; reflexivity).
      assert (Hle : length (filter (fun ev => phase ev =? 1) hq)
                    <= length (filter (fun ev => phase ev =? 1)
                                 (hq ++ rest))).
      { rewrite filter_app, length_app. lia. }
      rewrite <- Hq in Hle.
      assert (Hone : length (filter (fun ev => phase ev =? 1)
                               (events_of (coros_script pack_order sas))) = 1).
      { rewrite events_of_coros_script. cbn [filter phase Nat.eqb length].
        destruct sas as [|a l]; [reflexivity|].
        rewrite filter_app, filter_map_none by (intro; reflexivity).
        reflexivity. }
      cbn [length]. lia.
    + rewrite !filter_app, !length_app. unfold unwinding.
      rewrite !filter_map_none by (intro; reflexivity).
      rewrite (filter_none is_await_inner hq); [cbn; lia|].
      intros y Hy. apply Hhq in Hy. destruct y; try reflexivity.
      cbn in Hy. lia.
    + intros [r Hr]. discriminate Hr.
    + intros _.
      exact (proj1 (@failed_construction_observed pack_order sas hq rest Hq)).
    + intros e _ ev Hev. apply in_app_iff in Hev as [Hev|Hev].
      * apply in_map_iff in Hev as (i & <- & _). left. cbn. lia.
      * apply in_app_iff in Hev as [Hev|Hev].
        -- apply Hhq in Hev. left. lia.
        -- unfold unwinding in Hev. apply in_map_iff in Hev as (i & <- & _).
           right. reflexivity.
Qed.

End Phases.

(** [ctorCleanupDtorOrdering], and two [HasCleanup] arguments on a heap that
    refuses its fourth request. *)
Lemma closure_goes_through_its_phases_in_order_witness :
  in_phase_order (trace Ends.four_trackers) = true
  /\ constructed (trace Ends.four_trackers) = [0; 1; 2; 3]
  /\ in_phase_order (trace Ends.out_of_memory) = true
  /\ (forall ev, In ev (trace Ends.out_of_memory) ->
        phase ev <= 3 \/ phase ev = 7).
Proof.
  assert (H1 : Tests.run Tests.closure_cfg (returns 7%Z) Tests.four_trackers
                 plentiful
               = inr (Normal (Some (VALUE 7%Z)), Ends.four_trackers))
    by (vm_compute; reflexivity).
  assert (H2 : Tests.run Tests.closure_cfg (returns 7%Z) Tests.two_cleanups
                 (exhausted_after 3)
               = inr (Thrown bad_alloc, Ends.out_of_memory))
    by (vm_compute; reflexivity).
  destruct (@closure_goes_through_its_phases_in_order
              true left_to_right Tests.min_arg_safety Tests.arg_safety Z
              Tests.closure_cfg (Tests.inner (returns 7%Z))
              (map (fun _ => SafeAlias.maybe_value) Tests.four_trackers)
              Tests.four_trackers plentiful _ _ H1)
    as (Ha & _ & _ & _ & Hb & _).
  destruct (@closure_goes_through_its_phases_in_order
              true left_to_right Tests.min_arg_safety Tests.arg_safety Z
              Tests.closure_cfg (Tests.inner (returns 7%Z))
              (map (fun _ => SafeAlias.maybe_value) Tests.two_cleanups)
              Tests.two_cleanups (exhausted_after 3) _ _ H2)
    as (Hc & _ & _ & _ & _ & Hd).
  split; [exact Ha|]. split.
  - apply Hb. cbn. tauto.
  - split; [exact Hc|]. exact (Hd bad_alloc eq_refl).
Defined.

(* ===================================================================== *)
(** ** What is decided when the call is compiled *)
(* ===================================================================== *)

Lemma max_of_the_greater (a b : safe_alias) :
  SafeAlias.geb a b = true -> SafeAlias.max a b = a.
Proof.
  unfold SafeAlias.geb, SafeAlias.max, SafeAlias.leb. intro H.
  destruct (SafeAlias.rank a <=? SafeAlias.rank b) eqn:E; [|reflexivity].
  apply Nat.leb_le in H, E. apply SafeAliasFacts.rank_inj. lia.
Qed.

Section Compiled.

Variable kIsDebug : bool.
Variable pack_order : evaluation_order.
Variable closure_min_arg_safety : safe_alias.
Variable arg_safety : task_type -> safe_alias.
Variable V : Type.
Variable Cfg : async_closure_config.
Variable make_inner_coro : list inner_coro_arg -> inner_coro V.
Variable arg_safeties : list safe_alias.
Variable b_tup : list binding.

(** X13. The task that a safe closure releases is a [SafeTask] whose level
    is the safety measured on the arguments of the closure, whether the
    closure has an outer coroutine or hands back its inner coroutine: in the
    latter case the inner coroutine, whatever level it was declared with, is
    given the level of the arguments. *)
Theorem released_task_is_a_SafeTask_at_the_safety_of_the_arguments
    (w : async_closure_wrap_coro V) (m0 m1 : machine) (t : task V) :
  bind_captures_to_closure kIsDebug pack_order closure_min_arg_safety
    arg_safety Cfg make_inner_coro (arg_safeties, b_tup) = inr (wrapped w) ->
  is_safe closure_min_arg_safety w = true ->
  outer_mover_ w m0 = (Normal t, m1) ->
  type_of t = SafeTask (SafeAlias.least_safe_alias arg_safeties)
  /\ OuterSafety w = SafeAlias.least_safe_alias arg_safeties.
Proof.
  unfold bind_captures_to_closure.
  rewrite bind_all_args, bind_all_asserts, make_outer_coro_asserts_refused.
  set (raw := make_inner_coro (inner_args_of Cfg b_tup)).
  set (sas := outer_stored_args b_tup).
  destruct (bindings_refusal b_tup); [discriminate|].
  destruct (negb (Bool.eqb _ _)); [discriminate|].
  destruct (match sas with
            | [] => _
            | _ :: _ => false
            end); [discriminate|].
  destruct (existsb cleanup_type_refused sas); [discriminate|].
  destruct (force_shared_cleanup Cfg); [discriminate|].
  intro H. inversion H; subst w. clear H.
  unfold is_safe, has_safe_args, is_inner_coro_safe.
  cbn [OuterSafety InnerSafety outer_mover_].
  intro Hsafe. apply andb_true_iff in Hsafe as [Hargs Hinner].
  rewrite Hinner. intro Hrun. apply build_outer_mover_returned in Hrun.
  subst t. split; [|reflexivity].
  unfold built_task. destruct sas as [|a l].
  - cbn [task_of_inner type_of withNewSafety coro_type].
    now rewrite (max_of_the_greater _ _ Hargs).
  - cbn [type_of]. unfold outer_coro_type. now rewrite Hargs.
Qed.

(** X14. A call of [async_closure] or of [async_now_closure] compiles
    unless a [static_assert] fails, which is when: a capture that is passed
    on holds no reference, or a binding that is no capture is no
    [async_closure_regular_arg]; or the inner coroutine is a [MemberTask]
    and the call is not made through [FOLLY_INVOKE_MEMBER], or the other way
    round; or its result has a [result_after_cleanup] and no argument is
    stored on the outer coroutine; or the [co_cleanup] of a stored argument
    returns something else than a [noexcept]-awaitable coroutine of [void];
    or, for [async_closure] only, the arguments are measured below
    [closure_min_arg_safety], or the inner coroutine below
    [unsafe_closure_internal].  The slot of a stored argument is never a
    reason: its index is in range, and the slot has the type stored for the
    binding. *)
Theorem closure_compiles_unless_a_static_assert_fails (h : nat -> bool) :
  ((exists x,
       run_closure kIsDebug pack_order closure_min_arg_safety arg_safety Cfg
         make_inner_coro (arg_safeties, b_tup) h = inr x)
   <-> (forall r, ~ In (any_capture false r) b_tup)
       /\ (forall x, ~ In (other_binding x) b_tup)
       /\ is_MemberTask (coro_type (make_inner_coro (inner_args_of Cfg b_tup)))
          = is_invoke_member Cfg
       /\ (outer_stored_args b_tup = [] ->
           result_after_cleanup (make_inner_coro (inner_args_of Cfg b_tup))
           = None)
       /\ (forall a, In a (outer_stored_args b_tup) ->
           privateHack_co_cleanup a = None ->
           co_cleanup_with_error a || co_cleanup_error_oblivious a = true ->
           co_cleanup_is_noexcept_void a = true)
       /\ (force_shared_cleanup Cfg = false ->
           SafeAlias.le closure_min_arg_safety
             (SafeAlias.least_safe_alias arg_safeties)
           /\ SafeAlias.le SafeAlias.unsafe_closure_internal
                (arg_safety
                   (coro_type (make_inner_coro (inner_args_of Cfg b_tup))))))
  /\ run_closure kIsDebug pack_order closure_min_arg_safety arg_safety Cfg
       make_inner_coro (arg_safeties, b_tup) h <> inl get_out_of_range
  /\ run_closure kIsDebug pack_order closure_min_arg_safety arg_safety Cfg
       make_inner_coro (arg_safeties, b_tup) h
     <> inl storage_type_is_not_the_type_of_the_slot.
Proof.
  rewrite run_closure_life.
  set (raw := make_inner_coro (inner_args_of Cfg b_tup)).
  split.
  - split.
    + intros [x Hx].
      destruct (closure_refusal _ _ _ _ _ _) eqn:E; [discriminate Hx|].
      apply closure_refusal_none in E as (Hb & Hm & Ha & Hc & Hs).
      apply bindings_refusal_none in Hb as [H1 H2].
      rewrite cleanup_type_refused_none in Hc.
      split; [exact H1|]. split; [exact H2|]. split; [exact Hm|].
      split; [exact Ha|]. split; [exact Hc|].
      intro Hforce. destruct (Hs Hforce) as [Hs1 Hs2].
      unfold SafeAlias.geb in Hs1, Hs2.
      rewrite SafeAliasFacts.leb_le in Hs1, Hs2. split; assumption.
    + intros (H1 & H2 & Hm & Ha & Hc & Hs).
      replace (closure_refusal closure_min_arg_safety arg_safety Cfg raw
                 arg_safeties b_tup) with (@None static_assert_failure);
        [eauto|].
      symmetry. apply closure_refusal_none.
      split; [apply bindings_refusal_none; split; assumption|].
      split; [exact Hm|]. split; [exact Ha|].
      split; [now apply cleanup_type_refused_none|].
      intro Hforce. destruct (Hs Hforce) as [Hs1 Hs2].
      unfold SafeAlias.geb. rewrite !SafeAliasFacts.leb_le.
      split; assumption.
  - destruct (closure_refusal _ _ _ _ _ _) as [f|] eqn:E;
      [|split; discriminate].
    apply closure_refusal_kinds in E.
    destruct E as [E1 E2].
    split; intro H; inversion H; subst f; [now apply E1|now apply E2].
Qed.

End Compiled.

(** [inPlaceArgs]: no argument is stored on the outer coroutine, and the
    inner [ClosureTask] is handed back at the level of the arguments. *)
Lemma released_task_is_a_SafeTask_at_the_safety_of_the_arguments_witness :
  match
    build_outer_mover true left_to_right Tests.min_arg_safety
      SafeAlias.maybe_value
      (withNewSafety
         (SafeAlias.max SafeAlias.maybe_value Tests.min_arg_safety)
         (Tests.inner (returns 7%Z) []))
      (outer_stored_args Tests.in_place_args) (boot plentiful)
  with
  | (Normal t, _) => type_of t = SafeTask SafeAlias.maybe_value
  | _ => False
  end.
Proof.
  destruct (build_outer_mover true left_to_right Tests.min_arg_safety
              SafeAlias.maybe_value
              (withNewSafety
                 (SafeAlias.max SafeAlias.maybe_value Tests.min_arg_safety)
                 (Tests.inner (returns 7%Z) []))
              (outer_stored_args Tests.in_place_args) (boot plentiful))
    as [[t|e] m1] eqn:Hrun.
  - apply (@released_task_is_a_SafeTask_at_the_safety_of_the_arguments
             true left_to_right Tests.min_arg_safety Tests.arg_safety Z
             Tests.closure_cfg (Tests.inner (returns 7%Z))
             [SafeAlias.maybe_value; SafeAlias.maybe_value]
             Tests.in_place_args
             (Build_async_closure_wrap_coro SafeAlias.maybe_value
                SafeAlias.unsafe_closure_internal
                (build_outer_mover true left_to_right Tests.min_arg_safety
                   SafeAlias.maybe_value
                   (withNewSafety
                      (SafeAlias.max SafeAlias.maybe_value
                         Tests.min_arg_safety)
                      (Tests.inner (returns 7%Z) []))
                   (outer_stored_args Tests.in_place_args)))
             (boot plentiful) m1 t).
    + reflexivity.
    + reflexivity.
    + exact Hrun.
  - vm_compute in Hrun. discriminate Hrun.
Defined.

(** [cleanupAfterSuccess]: the call compiles, so its arguments are measured
    at the threshold or above. *)
Lemma closure_compiles_unless_a_static_assert_fails_witness :
  SafeAlias.le Tests.min_arg_safety
    (SafeAlias.least_safe_alias [SafeAlias.maybe_value]).
Proof.
  assert (H : Tests.run Tests.closure_cfg (returns 7%Z) Tests.one_cleanup
                plentiful
              = inr (Normal (Some (VALUE 7%Z)),
                     Build_machine plentiful 4
                       [ev_construct 0; ev_make_inner; ev_make_cleanup 0 0;
                        ev_make_outer; ev_await_inner;
                        ev_cleanup 0 0 (Some None); ev_destroy 0]))
    by (vm_compute; reflexivity).
  destruct (proj1 (proj1 (@closure_compiles_unless_a_static_assert_fails
                            true left_to_right Tests.min_arg_safety
                            Tests.arg_safety Z
                            Tests.closure_cfg (Tests.inner (returns 7%Z))
                            [SafeAlias.maybe_value] Tests.one_cleanup
                            plentiful))
              (ex_intro _ _ H)) as (_ & _ & _ & _ & _ & Hsafe).
  exact (proj1 (Hsafe eq_refl)).
Defined.

(** The manual test of [invalid_co_cleanup]: the call does not compile. *)
Example invalid_co_cleanup_is_refused :
  run_closure true left_to_right Tests.min_arg_safety Tests.arg_safety
    Tests.closure_cfg Tests.void_inner
    ([SafeAlias.maybe_value],
     [async_closure_outer_stored_arg (Tests.InvalidCleanupLacksNoexcept 1)])
    plentiful
  = inl co_cleanup_must_return_a_noexcept_awaitable_void_coro.
Proof. reflexivity. Qed.

(* ===================================================================== *)
(** ** The cleanup members of one argument *)
(* ===================================================================== *)

Lemma cleanup_tuple_owner (j : nat) (a : capture_arg) (t : cleanup_task) :
  In t (cleanup_tuple_of (j, a)) -> owner t = j.
Proof.
  unfold cleanup_tuple_of. destruct (privateHack_co_cleanup a) as [n|].
  - intro H. apply in_map_iff in H as (k & <- & _). reflexivity.
  - destruct (co_cleanup_with_error a);
      [|destruct (co_cleanup_error_oblivious a)].
    + intros [<-|[]]. reflexivity.
    + intros [<-|[]]. reflexivity.
    + intros [].
Qed.

(** The tasks of the argument [i] among the tasks [tasks]. *)
Lemma cleanups_of_events (i : nat) (e : exception_wrapper)
    (tasks : list cleanup_task) :
  cleanups_of i (map (cleanup_event e) tasks)
  = map (fun t => (position t, err t))
      (filter (fun t => owner t =? i) tasks).
Proof.
  unfold cleanups_of, collect.
  induction tasks as [|t tasks IH]; [reflexivity|].
  cbn [map flat_map cleanup_event filter]. rewrite IH.
  destruct (owner t =? i); [|reflexivity].
  cbn [map]. destruct (err t); reflexivity.
Qed.

Lemma filter_all {A} (p : A -> bool) (l : list A) :
  (forall x, In x l -> p x = true) -> filter p l = l.
Proof.
  intro H. induction l as [|x l IH]; [reflexivity|].
  cbn [filter]. rewrite (H x) by now left.
  f_equal. apply IH. intros; apply H; now right.
Qed.

Lemma tasks_of_owner (i : nat) (a : capture_arg) (l : list (nat * capture_arg)) :
  NoDup (map fst l) -> In (i, a) l ->
  filter (fun t => owner t =? i) (concat (map cleanup_tuple_of l))
  = cleanup_tuple_of (i, a).
Proof.
  induction l as [|[j a'] l IH]; intros Hnd Hin; [destruct Hin|].
  cbn [map fst concat] in *. inversion Hnd as [|? ? Hnotin Hnd']; subst.
  rewrite filter_app. destruct Hin as [E|Hin].
  - inversion E; subst. rewrite filter_all.
    + rewrite filter_none; [apply app_nil_r|].
      intros t Ht. apply in_concat in Ht as (ts & Hts & Ht).
      apply in_map_iff in Hts as ([j a''] & <- & Hin').
      apply cleanup_tuple_owner in Ht. rewrite Ht.
      apply Nat.eqb_neq. intros ->. apply Hnotin.
      apply in_map_iff. exists (i, a''). split; [reflexivity|assumption].
    + intros t Ht. apply cleanup_tuple_owner in Ht. rewrite Ht.
      apply Nat.eqb_refl.
  - rewrite filter_none.
    + cbn [app]. now apply IH.
    + intros t Ht. apply cleanup_tuple_owner in Ht. rewrite Ht.
      apply Nat.eqb_neq. intros ->. apply Hnotin.
      apply in_map_iff. exists (i, a). split; [reflexivity|assumption].
Qed.

Lemma indexed_nth_error {A} (l : list A) (k i : nat) (x : A) :
  nth_error l i = Some x -> In (k + i, x) (combine (seq k (length l)) l).
Proof.
  revert k i. induction l as [|y l IH]; intros k [|i] H;
    try discriminate H; cbn [length seq combine].
  - inversion H; subst. left. now rewrite Nat.add_0_r.
  - right. rewrite Nat.add_succ_r. apply (IH (S k) i H).
Qed.

Lemma scheduled_tasks_of_owner (sas : list capture_arg) (i : nat)
    (a : capture_arg) :
  nth_error sas i = Some a ->
  filter (fun t => owner t =? i) (scheduled_cleanups sas)
  = cleanup_tuple_of (i, a).
Proof.
  intro H. unfold scheduled_cleanups. apply tasks_of_owner.
  - rewrite map_rev. apply NoDup_rev. unfold indexed.
    rewrite map_fst_combine_seq. apply seq_NoDup.
  - apply in_rev. rewrite rev_involutive.
    apply (indexed_nth_error sas 0 i H).
Qed.

Lemma closure_trace_cleanups_of {V} (o : evaluation_order)
    (sas : list capture_arg) (r : task_result V) (i : nat) :
  cleanups_of i (closure_trace o sas r)
  = map (fun t => (position t, err t))
      (filter (fun t => owner t =? i) (scheduled_cleanups sas)).
Proof.
  unfold closure_trace. destruct sas as [|a l]; [reflexivity|].
  cbv zeta. unfold cleanups_of at 1. rewrite !collect_app.
  fold (cleanups_of i). rewrite cleanups_of_events. unfold cleanups_of.
  rewrite !collect_map_none by (intro; reflexivity).
  rewrite collect_tokens by (intro; reflexivity).
  rewrite collect_inner_events by reflexivity.
  cbn [collect flat_map app]. now rewrite app_nil_r.
Qed.

Section Members.

Variable kIsDebug : bool.
Variable pack_order : evaluation_order.
Variable closure_min_arg_safety : safe_alias.
Variable arg_safety : task_type -> safe_alias.
Variable V : Type.
Variable Cfg : async_closure_config.
Variable make_inner_coro : list inner_coro_arg -> inner_coro V.
Variable arg_safeties : list safe_alias.
Variable b_tup : list binding.
Variable h : nat -> bool.

(** X15. In a closure that is constructed and awaited, the cleanup of each
    stored argument is that of exactly one of its members, chosen in this
    order: [privateHack_co_cleanup], and then all the tasks of its tuple run,
    from the first to the last, each given the pointer to the first error;
    or else [co_cleanup] taking the error, and then this task runs, once,
    given the pointer, even when the argument also has the [co_cleanup]
    without error; or else [co_cleanup] without error, and then this task
    runs, once, with no pointer; an argument with none of them has no
    cleanup. *)
Theorem each_argument_is_cleaned_up_by_one_member
    (r : option (Try V)) (m : machine) (i : nat) (a : capture_arg) :
  run_closure kIsDebug pack_order closure_min_arg_safety arg_safety Cfg
    make_inner_coro (arg_safeties, b_tup) h = inr (Normal r, m) ->
  nth_error (outer_stored_args b_tup) i = Some a ->
  cleanups_of i (trace m)
  = match privateHack_co_cleanup a with
    | Some n => map (fun k => (k, true)) (seq 0 n)
    | None =>
        if co_cleanup_with_error a then [(0, true)]
        else if co_cleanup_error_oblivious a then [(0, false)]
        else []
    end.
Proof.
  intros H Hnth. apply run_closure_returned in H as (_ & -> & _).
  rewrite closure_trace_cleanups_of, (scheduled_tasks_of_owner _ _ Hnth).
  unfold cleanup_tuple_of. destruct (privateHack_co_cleanup a) as [n|].
  - now rewrite map_map.
  - destruct (co_cleanup_with_error a);
      [|destruct (co_cleanup_error_oblivious a)]; reflexivity.
Qed.

End Members.

(** [ErrorObliviousHasCleanup] and [HasCleanup] in one closure: the first
    runs without the pointer, the second with it. *)
Lemma each_argument_is_cleaned_up_by_one_member_witness :
  cleanups_of 0
    [ev_construct 0; ev_construct 1; ev_make_inner;
     ev_make_cleanup 1 0; ev_make_cleanup 0 0; ev_make_outer;
     ev_await_inner;
     ev_cleanup 1 0 (Some None); ev_cleanup 0 0 None;
     ev_destroy 1; ev_destroy 0]
  = [(0, false)].
Proof.
  assert (H : Tests.run Tests.closure_cfg (returns 7%Z)
                [async_closure_outer_stored_arg (Tests.OrderTracker 1);
                 async_closure_outer_stored_arg (Tests.HasCleanup 2)]
                plentiful
              = inr (Normal (Some (VALUE 7%Z)),
                     Build_machine plentiful 5
                       [ev_construct 0; ev_construct 1; ev_make_inner;
                        ev_make_cleanup 1 0; ev_make_cleanup 0 0;
                        ev_make_outer; ev_await_inner;
                        ev_cleanup 1 0 (Some None); ev_cleanup 0 0 None;
                        ev_destroy 1; ev_destroy 0]))
    by (vm_compute; reflexivity).
  exact (@each_argument_is_cleaned_up_by_one_member
           true left_to_right Tests.min_arg_safety Tests.arg_safety Z
           Tests.closure_cfg (Tests.inner (returns 7%Z))
           [SafeAlias.maybe_value; SafeAlias.maybe_value]
           [async_closure_outer_stored_arg (Tests.OrderTracker 1);
            async_closure_outer_stored_arg (Tests.HasCleanup 2)]
           plentiful _ _ 0 (Tests.OrderTracker 1) H eq_refl).
Defined.

(* ===================================================================== *)
(** ** The outer coroutine that hands no token over *)
(* ===================================================================== *)

(** X16. An outer coroutine made with [SetCancelTok = false] on a new
    storage hands the token to no argument and always awaits the inner task,
    in a debug build as in a release build: the error that a debug build puts
    in the cell of a new storage is taken out first, so it never passes for a
    failure of the token.  The cleanup tasks then read the error of the inner
    task, or none, and the coroutine ends on the outcome of the inner task. *)
Theorem outer_coro_without_token_always_awaits_the_inner_task :
  forall (kIsDebug : bool) (V : Type) (inner_mover : inner_coro V)
         (sas : list capture_arg) (cleanups : list cleanup_task) (m : machine),
    async_closure_outer_coro kIsDebug false inner_mover
      (Build_async_closure_storage
         (async_closure_default_inner_err kIsDebug) sas) cleanups m
    = (Normal
         match result inner_mover with
         | returns v =>
             co_return (async_closure_outer_coro_result inner_mover v)
         | throws e => co_yield_co_error (Result.Build_co_error (Some e))
         end,
       logged m
         (ev_await_inner
          :: map (cleanup_event
                    match result inner_mover with
                    | returns _ => None
                    | throws e => Some e
                    end) cleanups)).
Proof.
  intros kd V im sas tasks m. rewrite async_closure_outer_coro_run.
  assert (Hcell : cell_before_inner kd false
                    (Build_async_closure_storage
                       (async_closure_default_inner_err kd) sas) = None)
    by (destruct kd; reflexivity).
  rewrite Hcell, (outer_coro_complete_run kd im _ None).
  unfold events_before_inner, inner_events, awaited_outcome.
  cbn [has_exception_ptr app res_after_inner cell_after_inner].
  destruct (result im); reflexivity.
Qed.
